(** * FlowTest ft-generator: flow planning core

    A shallow embedding of the parts of the traffic generator that the
    specification talks about:

    - [AddressGenerators]   (addressgenerators.cpp): the Lehmer address stream;
    - [PacketSizeGeneratorSlow] (packetsizegeneratorslow.cpp): the packet-size
      distributor;
    - [ValueGenerator]      (valuegenerator.cpp): the older distributor, of
      which only the biasing step is needed;
    - [Flow]                (flow.cpp): encapsulation choice, ICMP layer
      choice and timestamp planning.

    Unsigned 64-bit integers are [Z] with the wrap-around written out,
    [double] is the primitive binary64 type of Rocq, C++ exceptions are a sum
    type, and the process-wide [RandomGenerator] is passed around as an
    explicit state. *)

From Stdlib Require Import ZArith List Lia Bool Floats Permutation Sorted.
Import ListNotations.

#[local] Set Warnings "-inexact-float".
#[local] Open Scope Z_scope.

(** ** Machine integers *)

Definition wrap64 (z : Z) : Z := z mod 2 ^ 64.
Definition wrap32 (z : Z) : Z := z mod 2 ^ 32.

(** [uint8_t((v >> k) & 0xFF)] *)
Definition byte_at (v k : Z) : Z := Z.land (Z.shiftr v k) 255.

(** C++ exceptions thrown by the modelled code. *)
Inductive exn : Type :=
| invalid_argument
| runtime_error.

(** ** Address generators (addressgenerators.cpp) *)

Module AddressGenerators.

Record t : Type := mk
  { _state : Z;       (* uint32_t *)
    _seedState : Z;   (* uint32_t *)
    _capacity : Z }.

Definition LEHMER_A : Z := 48271.
Definition LEHMER_M : Z := 2147483647. (* 0x7fffffff *)

(** [uint64_t(x) * 48271 % 0x7fffffff], stored back into a [uint32_t]. *)
Definition lehmer (x : Z) : Z := wrap32 ((x * LEHMER_A) mod LEHMER_M).

Definition NextSeed (g : t) : t :=
  let seedState := lehmer (_seedState g) in
  {| _capacity := LEHMER_M - 1; _seedState := seedState; _state := seedState |}.

(** The constructor; [seed] is a [uint32_t]. *)
Definition make (seed : Z) : exn + t :=
  if (seed <=? 0) || (seed >=? LEHMER_M) then inl invalid_argument
  else inr (NextSeed {| _state := 0; _seedState := seed; _capacity := 0 |}).

Definition NextValue (g : t) : Z * t :=
  let g := if _capacity g =? 0 then NextSeed g else g in
  let state := lehmer (_state g) in
  (state, {| _capacity := _capacity g - 1; _seedState := _seedState g; _state := state |}).

Definition GenerateIPv4 (g : t) : list Z * t :=
  let '(value, g) := NextValue g in
  ([byte_at value 24; byte_at value 16; byte_at value 8; byte_at value 0], g).

Definition GenerateMac (g : t) : list Z * t :=
  let '(value0, g) := NextValue g in
  let '(value1, g) := NextValue g in
  ([byte_at value0 24; byte_at value0 16; byte_at value0 8; byte_at value0 0;
    byte_at value1 24; byte_at value1 16], g).

Definition GenerateIPv6 (g : t) : list Z * t :=
  let '(value0, g) := NextValue g in
  let '(value1, g) := NextValue g in
  let '(value2, g) := NextValue g in
  let '(value3, g) := NextValue g in
  ([byte_at value0 24; byte_at value0 16; byte_at value0 8; byte_at value0 0;
    byte_at value1 24; byte_at value1 16; byte_at value1 8; byte_at value1 0;
    byte_at value2 24; byte_at value2 16; byte_at value2 8; byte_at value2 0;
    byte_at value3 24; byte_at value3 16; byte_at value3 8; byte_at value3 0], g).

(** The first IPv4 address of a generator built from [seed]. *)
Definition first_ipv4 (seed : Z) : exn + list Z :=
  match make seed with
  | inl e => inl e
  | inr g => inr (fst (GenerateIPv4 g))
  end.

(** Big-endian bytes of a 32-bit value. *)
Definition be32 (v : Z) : list Z :=
  [v / 2 ^ 24 mod 256; v / 2 ^ 16 mod 256; v / 2 ^ 8 mod 256; v mod 256].

End AddressGenerators.

(** ** Doubles

    [double] is IEEE binary64, i.e. Rocq's primitive [float].  The two
    conversions the code relies on are written with the specification
    floats of the standard library. *)

(** [double(z)] for an integer [z]: the nearest binary64 value, ties to even. *)
Definition double_of_int (z : Z) : float :=
  SF2Prim (binary_normalize prec emax z 0 false).

(** [uint64_t(f)]: truncation toward zero.  The conversion is undefined in C++
    for NaN, infinities and values outside the range of [uint64_t]; the model
    returns [0] for the first two and for negative values and wraps the rest. *)
Definition u64_of_double (f : float) : Z :=
  match Prim2SF f with
  | S754_finite false m e =>
      wrap64 (if 0 <=? e then Zpos m * 2 ^ e else Zpos m / 2 ^ (- e))
  | _ => 0
  end.

(** ** The shared random generator *)

(** Modelled from the spec: [RandomGenerator] (randomgenerator.h and .cpp are
    not part of the sources at hand).  The spec (section 4.1) gives the
    interface: [RandomDouble(lo = 0, hi = 1)] and [RandomUInt(lo, hi)]
    (inclusive) on one process-wide seeded engine.  The engine state is
    threaded explicitly; the operations are left abstract. *)
Class RandomGenerator : Type :=
  { rng : Type;
    RandomDouble : float -> float -> rng -> float * rng;
    RandomUInt : Z -> Z -> rng -> Z * rng }.

(** What the spec promises of a draw: it lies in the requested range. *)
Class RandomGeneratorSpec (RG : RandomGenerator) : Prop :=
  { RandomDouble_range : forall lo hi g,
      (lo <=? hi)%float = true ->
      (lo <=? fst (RandomDouble lo hi g))%float = true /\
      (fst (RandomDouble lo hi g) <=? hi)%float = true;
    RandomUInt_range : forall lo hi g,
      lo <= hi -> lo <= fst (RandomUInt lo hi g) <= hi }.

(** Modelled from the spec: the default arguments of [RandomDouble], declared
    in the absent randomgenerator.h; section 4.1 of the spec gives them as
    [lo = 0] and [hi = 1]. *)
Definition RandomDouble_default {RG : RandomGenerator} : rng -> float * rng :=
  RandomDouble 0 1.

(** Computations that draw from the shared generator. *)
Definition Rand {RG : RandomGenerator} (A : Type) : Type := rng -> A * rng.

Definition ret {RG : RandomGenerator} {A : Type} (a : A) : Rand A :=
  fun g => (a, g).

Definition bind {RG : RandomGenerator} {A B : Type}
  (m : Rand A) (k : A -> Rand B) : Rand B :=
  fun g => let (a, g') := m g in k a g'.

Notation "x <- m ;; k" := (bind m (fun x => k))
  (at level 61, m at next level, right associativity).

(** [std::shuffle(first, last, std::default_random_engine())]: the engine is
    default-constructed at every call, so the permutation applied depends on
    the length of the vector only.  The standard library's algorithm is left
    abstract. *)
Class DefaultShuffle : Type :=
  { shuffle : list Z -> list Z }.

Class DefaultShuffleSpec (SH : DefaultShuffle) : Prop :=
  { shuffle_perm : forall l, Permutation (shuffle l) l }.

(** ** Intervals *)

Record IntervalInfo : Type := mkInterval
  { _from : Z;              (* uint64_t *)
    _to : Z;                (* uint64_t *)
    _probability : float }.

(** [inter._probability = 0.0] *)
Definition zero_probability (inter : IntervalInfo) : IntervalInfo :=
  {| _from := _from inter; _to := _to inter; _probability := 0 |}.

(** [inter._from / 2 + inter._to / 2] *)
Definition interAvg (inter : IntervalInfo) : Z :=
  wrap64 (_from inter / 2 + _to inter / 2).

(** A value lies inside the union of the intervals. *)
Definition in_intervals (intervals : list IntervalInfo) (v : Z) : Prop :=
  exists inter, In inter intervals /\ _from inter <= v <= _to inter.

(** [vec.resize(n)]: truncate, or pad with value-initialised elements. *)
Definition resize (n : nat) (l : list Z) : list Z :=
  firstn n l ++ repeat 0 (n - length l).

(** [a > b ? a - b : b - a] on [uint64_t]. *)
Definition absdiff (a b : Z) : Z :=
  if a >? b then wrap64 (a - b) else wrap64 (b - a).

(** ** Packet size generator, slow variant (packetsizegeneratorslow.cpp) *)

Module PacketSizeGeneratorSlow.

Definition MAX_ATTEMPTS : nat := 2000.
Definition MAX_DIFF_RATIO : float := 0.01.
Definition MIN_DIFF : float := 50.
Definition GET_EXACT_MAX_DISTANCE : Z := 1000.
Definition DIFF_RATIO_FALLBACK_TO_UNIFORM : float := 0.2.

Definition SumProbabilities (intervals : list IntervalInfo) : float :=
  fold_left (fun sum inter => (sum + _probability inter)%float) intervals 0%float.

(** The object state. *)
Record t : Type := mk
  { _intervals : list IntervalInfo;
    _numPkts : Z;
    _numBytes : Z;
    _values : list Z;
    _assignedPkts : Z;
    _assignedBytes : Z }.

Definition set_values (s : t) (values : list Z) : t :=
  {| _intervals := _intervals s; _numPkts := _numPkts s; _numBytes := _numBytes s;
     _values := values;
     _assignedPkts := _assignedPkts s; _assignedBytes := _assignedBytes s |}.

(** [_assignedPkts++; _assignedBytes += value;] *)
Definition assign (s : t) (value : Z) : t :=
  {| _intervals := _intervals s; _numPkts := _numPkts s; _numBytes := _numBytes s;
     _values := _values s;
     _assignedPkts := wrap64 (_assignedPkts s + 1);
     _assignedBytes := wrap64 (_assignedBytes s + value) |}.

(** The constructor; [assert(!_intervals.empty())] is a precondition. *)
Definition make (intervals : list IntervalInfo) (numPkts numBytes : Z) : t :=
  {| _intervals := intervals; _numPkts := numPkts; _numBytes := numBytes;
     _values := []; _assignedPkts := 0; _assignedBytes := 0 |}.

(** The state of the refinement loop of [Generate]. *)
Record refine : Type := mkRefine
  { values : list Z;
    valuesSum : Z;
    bestDiff : Z;
    bestValues : list Z }.

(** The biasing step at the head of an attempt (lines 119-133). *)
Definition BiasIntervals (valuesSum targetMin targetMax avgValue : Z)
  (intervals : list IntervalInfo) : list IntervalInfo :=
  if valuesSum <? targetMin then
    map (fun inter => if interAvg inter <? avgValue then zero_probability inter else inter)
        intervals
  else if valuesSum >? targetMax then
    map (fun inter => if interAvg inter >? avgValue then zero_probability inter else inter)
        intervals
  else intervals.

(** The band around the desired byte count (lines 101-103). *)
Definition maxDiff (desiredBytes : Z) : float :=
  double_of_int
    (Z.max (u64_of_double (MAX_DIFF_RATIO * double_of_int desiredBytes)%float)
           (u64_of_double MIN_DIFF)).

Definition targetMin (desiredBytes : Z) : Z :=
  if (maxDiff desiredBytes <? double_of_int desiredBytes)%float
  then u64_of_double (double_of_int desiredBytes - maxDiff desiredBytes)%float
  else 0.

Definition targetMax (desiredBytes : Z) : Z :=
  u64_of_double (double_of_int desiredBytes + maxDiff desiredBytes)%float.

(** [double(bestDiff) / double(desiredBytes)] and the test of line 172. *)
Definition finalDiffRatio (bestDiff desiredBytes : Z) : float :=
  (double_of_int bestDiff / double_of_int desiredBytes)%float.

Definition fallback_to_uniform (bestDiff desiredBytes : Z) : bool :=
  (DIFF_RATIO_FALLBACK_TO_UNIFORM <? finalDiffRatio bestDiff desiredBytes)%float.

Section WithGenerator.
Context {RG : RandomGenerator} {SH : DefaultShuffle}.

(** The loop of [GenerateRandomValue]: the first interval whose running
    probability sum reaches [genVal]; [0] when there is none. *)
Fixpoint pick_interval (intervals : list IntervalInfo) (genVal probSum : float)
  : Rand Z :=
  match intervals with
  | [] => ret 0
  | inter :: rest =>
      let probSum := (probSum + _probability inter)%float in
      if (genVal <=? probSum)%float
      then RandomUInt (_from inter) (_to inter)
      else pick_interval rest genVal probSum
  end.

Definition GenerateRandomValue (intervals : list IntervalInfo)
  (intervalProbSum : float) : Rand Z :=
  genVal <- RandomDouble 0 intervalProbSum ;;
  pick_interval intervals genVal 0.

(** The first loop of [Generate] (lines 96-99): every slot gets a fresh draw. *)
Fixpoint fill (intervals : list IntervalInfo) (probSum : float)
  (done todo : list Z) (valuesSum : Z) : Rand (list Z * Z) :=
  match todo with
  | [] => ret (done, valuesSum)
  | _ :: rest =>
      value <- GenerateRandomValue intervals probSum ;;
      fill intervals probSum (done ++ [value]) rest (wrap64 (valuesSum + value))
  end.

(** One sweep over the vector (lines 136-151).  [done] are the slots already
    replaced in this sweep and [todo] the ones still to visit, so that the
    vector is [done ++ todo] throughout. *)
Fixpoint sweep (intervals : list IntervalInfo) (probSum : float)
  (desiredBytes targetMin targetMax : Z)
  (done todo : list Z) (valuesSum bestDiff : Z) (bestValues : list Z)
  : Rand refine :=
  match todo with
  | [] => ret (mkRefine done valuesSum bestDiff bestValues)
  | value :: rest =>
      newValue <- GenerateRandomValue intervals probSum ;;
      let valuesSum := wrap64 (wrap64 (valuesSum - value) + newValue) in
      let _values := done ++ newValue :: rest in
      if (valuesSum >=? targetMin) && (valuesSum <=? targetMax)
      then ret (mkRefine _values valuesSum bestDiff bestValues)
      else
        let diff := absdiff valuesSum desiredBytes in
        if diff <? bestDiff
        then sweep intervals probSum desiredBytes targetMin targetMax
                   (done ++ [newValue]) rest valuesSum diff _values
        else sweep intervals probSum desiredBytes targetMin targetMax
                   (done ++ [newValue]) rest valuesSum bestDiff bestValues
  end.

(** The [while] loop of [Generate] (lines 114-166); it is bounded by
    [numAttempts], which only decreases. *)
Fixpoint attempts (numAttempts : nat) (intervals : list IntervalInfo)
  (desiredPkts desiredBytes targetMin targetMax : Z) (st : refine)
  : Rand refine :=
  match numAttempts with
  | O => ret st
  | S numAttempts =>
      if (valuesSum st <? targetMin) || (valuesSum st >? targetMax) then
        let avgValue := valuesSum st / desiredPkts in
        let biased :=
          BiasIntervals (valuesSum st) targetMin targetMax avgValue intervals in
        let probSum := SumProbabilities biased in
        st <- sweep biased probSum desiredBytes targetMin targetMax
                    [] (values st) (valuesSum st) (bestDiff st) (bestValues st) ;;
        let diff := absdiff (valuesSum st) desiredBytes in
        let st :=
          if diff <? bestDiff st
          then mkRefine (values st) (valuesSum st) diff (values st)
          else st in
        attempts numAttempts intervals desiredPkts desiredBytes targetMin targetMax st
      else ret st
  end.

(** One attempt of the loop from the point where its intervals are biased
    (lines 134-165): the probability sum of the biased intervals, the sweep
    that draws from them, the update of the best vector, and the rest of the
    loop, which starts again from the original intervals. *)
Definition attempt_with (biased : list IntervalInfo) (numAttempts : nat)
  (intervals : list IntervalInfo)
  (desiredPkts desiredBytes targetMin targetMax : Z) (st : refine)
  : Rand refine :=
  let probSum := SumProbabilities biased in
  st <- sweep biased probSum desiredBytes targetMin targetMax
              [] (values st) (valuesSum st) (bestDiff st) (bestValues st) ;;
  let diff := absdiff (valuesSum st) desiredBytes in
  let st :=
    if diff <? bestDiff st
    then mkRefine (values st) (valuesSum st) diff (values st)
    else st in
  attempts numAttempts intervals desiredPkts desiredBytes targetMin targetMax st.

(** [Generate] from the initial fill to the end of the refinement loop
    (lines 96-166), for [desiredPkts >= 2] and [desiredBytes >= 1]. *)
Definition GenerateBest (desiredPkts desiredBytes : Z) (s : t) : Rand refine :=
  let intervals := _intervals s in
  let probSum := SumProbabilities intervals in
  filled <- fill intervals probSum [] (resize (Z.to_nat desiredPkts) (_values s)) 0 ;;
  let '(_values, valuesSum) := filled in
  attempts MAX_ATTEMPTS intervals desiredPkts desiredBytes
           (targetMin desiredBytes) (targetMax desiredBytes)
           (mkRefine _values valuesSum (absdiff valuesSum desiredBytes) _values).

Definition Generate (desiredPkts desiredBytes : Z) (s : t) : Rand t :=
  let _values := resize (Z.to_nat desiredPkts) (_values s) in
  if (desiredPkts =? 0) || (desiredBytes =? 0) then ret (set_values s _values)
  else if desiredPkts =? 1 then
    ret (set_values s (match _values with
                       | _ :: rest => desiredBytes :: rest
                       | [] => []
                       end))
  else
    st <- GenerateBest desiredPkts desiredBytes s ;;
    if fallback_to_uniform (bestDiff st) desiredBytes
    then ret (set_values s (map (fun _ => desiredBytes / desiredBytes) (values st)))
    else ret (set_values s (shuffle (bestValues st))).

Definition PlanRemaining (s : t) : Rand t :=
  let remPkts :=
    if _numPkts s >=? _assignedPkts s then _numPkts s - _assignedPkts s else 0 in
  let remBytes :=
    if _numBytes s >=? _assignedBytes s then _numBytes s - _assignedBytes s else 0 in
  Generate remPkts remBytes s.

(** [_values.back(); _values.pop_back()], or a fresh draw when empty. *)
Definition GetValue (s : t) : Rand (Z * t) :=
  match rev (_values s) with
  | value :: front =>
      ret (value, assign (set_values s (rev front)) value)
  | [] =>
      value <- GenerateRandomValue (_intervals s) (SumProbabilities (_intervals s)) ;;
      ret (value, assign s value)
  end.

(** The search loop of [GetValueExact] (lines 219-227) over the indices
    [idx]. *)
Fixpoint find_closest (_values : list Z) (value : Z) (idx : list nat)
  (closest : nat) (closestDiff : Z) : nat :=
  match idx with
  | [] => closest
  | i :: idx =>
      let diff := absdiff (nth i _values 0) value in
      if diff <? closestDiff
      then find_closest _values value idx i diff
      else find_closest _values value idx closest closestDiff
  end.

(** [std::swap(v[i], v[v.size() - 1]); v.pop_back();] *)
Definition swap_remove (i : nat) (v : list Z) : list Z :=
  match rev v with
  | [] => []
  | lastv :: _ =>
      let front := removelast v in
      if (i <? length front)%nat
      then firstn i front ++ lastv :: skipn (S i) front
      else front
  end.

Definition GetValueExact (value : Z) (s : t) : Rand t :=
  let size := Z.of_nat (length (_values s)) in
  if size =? 0 then ret (assign s value)
  else
    range <- (if size <=? GET_EXACT_MAX_DISTANCE
              then ret (0, size)
              else start <- RandomUInt 0 (size - GET_EXACT_MAX_DISTANCE) ;;
                   ret (start, start + GET_EXACT_MAX_DISTANCE)) ;;
    let '(start, end_) := range in
    let closest :=
      find_closest (_values s) value
                   (seq (Z.to_nat start) (Z.to_nat (end_ - start))) 0%nat value in
    ret (assign (set_values s (swap_remove closest (_values s))) value).

End WithGenerator.

End PacketSizeGeneratorSlow.

(** ** The older value generator (valuegenerator.cpp)

    Only the biasing step of [ValueGenerator::Generate] (lines 53-67) is
    modelled: it is the variant in which both branches are the same. *)

Module ValueGenerator.

Definition BiasIntervals (valuesSum targetMin avgValue : Z)
  (intervals : list IntervalInfo) : list IntervalInfo :=
  if valuesSum <? targetMin then
    map (fun inter => if interAvg inter <? avgValue then zero_probability inter else inter)
        intervals
  else
    map (fun inter => if interAvg inter <? avgValue then zero_probability inter else inter)
        intervals.

End ValueGenerator.

(** ** Flows (flow.cpp) *)

(** Modelled from the spec: [Timeval] (timeval.h is not part of the sources at
    hand): seconds and microseconds, compared lexicographically. *)
Record Timeval : Type := mkTimeval
  { tv_sec : Z;     (* int64_t *)
    tv_usec : Z }.  (* int64_t *)

(** [a < b] *)
Definition Timeval_ltb (a b : Timeval) : bool :=
  (tv_sec a <? tv_sec b) || ((tv_sec a =? tv_sec b) && (tv_usec a <? tv_usec b)).

(** [a <= b], that is [!(b < a)]. *)
Definition Timeval_leb (a b : Timeval) : bool := negb (Timeval_ltb b a).

Definition Timeval_le (a b : Timeval) : Prop := Timeval_leb a b = true.

(** The engine local to [PlanPacketsTimestamps]: [std::mt19937 gen(rd())]
    drawn through [std::uniform_int_distribution<int64_t>(a, b)].  Its state
    comes from [std::random_device], not from the shared generator. *)
Class LocalEngine : Type :=
  { engine : Type;
    uniform_int : Z -> Z -> engine -> Z * engine }.

(** The contract of [uniform_int_distribution(a, b)] for [a <= b]. *)
Class LocalEngineSpec (LE : LocalEngine) : Prop :=
  { uniform_int_range : forall a b gen,
      a <= b -> a <= fst (uniform_int a b gen) <= b }.

(** Sizes of the PcapPlusPlus headers ([sizeof(pcpp::...)], not part of this
    repository), taken as parameters. *)
Class HeaderSizes : Type :=
  { ETHER_HDR_SIZE : Z;
    ICMP_HDR_SIZE : Z;
    ICMPV6_HDR_SIZE : Z;
    IPV4_HDR_SIZE : Z;
    IPV6_HDR_SIZE : Z;
    UDP_HDR_SIZE : Z }.

Inductive Direction : Type := Unknown | Forward | Reverse.

Inductive L3Protocol : Type := L3Unknown | Ipv4 | Ipv6.

(** The layers [MakeIcmpLayer] can return. *)
Inductive IcmpLayer : Type := IcmpEcho | IcmpRandom | Icmpv6Echo | Icmpv6Random.

(** Encapsulation as the configuration gives it ([config::EncapsulationLayer]
    is a variant of VLAN and MPLS entries). *)
Inductive EncapsulationLayer : Type :=
| EncapsulationLayerVlan (id : Z)
| EncapsulationLayerMpls (label : Z).

Record EncapsulationVariant : Type := mkVariant
  { GetProbability : float;
    GetLayers : list EncapsulationLayer }.

(** A packet plan; the per-layer parameters play no part here. *)
Record Packet : Type := mkPacket
  { _direction : Direction;
    _timestamp : Timeval;
    _size : Z;
    _isFinished : bool }.

Module Flow.

Record t : Type := mk
  { _fwdPackets : Z;   (* uint64_t *)
    _revPackets : Z;
    _fwdBytes : Z;
    _revBytes : Z;
    _tsFirst : Timeval;
    _tsLast : Timeval;
    _packets : list Packet }.

Definition set_packets (f : t) (packets : list Packet) : t :=
  {| _fwdPackets := _fwdPackets f; _revPackets := _revPackets f;
     _fwdBytes := _fwdBytes f; _revBytes := _revBytes f;
     _tsFirst := _tsFirst f; _tsLast := _tsLast f; _packets := packets |}.

Definition set_timestamp (p : Packet) (ts : Timeval) : Packet :=
  {| _direction := _direction p; _timestamp := ts; _size := _size p;
     _isFinished := _isFinished p |}.

(** *** Encapsulation choice *)

(** The loop of [ChooseEncaps] (lines 229-234). *)
Fixpoint choose_variant (variants : list EncapsulationVariant) (rand accum : float)
  : list EncapsulationLayer :=
  match variants with
  | [] => []
  | variant :: rest =>
      let accum := (accum + GetProbability variant)%float in
      if (rand <=? accum)%float then GetLayers variant
      else choose_variant rest rand accum
  end.

Definition ChooseEncaps {RG : RandomGenerator} (variants : list EncapsulationVariant)
  : Rand (list EncapsulationLayer) :=
  match variants with
  | [] => ret []
  | _ :: _ =>
      rand <- RandomDouble_default ;;
      ret (choose_variant variants rand 0)
  end.

(** *** ICMP layer choice *)

Section WithHeaderSizes.
Context {HS : HeaderSizes}.

Definition ICMP_UNREACH_PKT_SIZE : Z := ICMP_HDR_SIZE + IPV4_HDR_SIZE + UDP_HDR_SIZE.
Definition ICMPV6_UNREACH_PKT_SIZE : Z :=
  ICMPV6_HDR_SIZE + 4 + IPV6_HDR_SIZE + UDP_HDR_SIZE.

(** [fwdRevRatioDiff] as lines 357-362 compute it. *)
Definition fwdRevRatioDiff (f : t) : float :=
  if wrap64 (_fwdPackets f + _revPackets f) >? 0 then
    let min := double_of_int (Z.min (_fwdPackets f) (_revPackets f)) in
    let max := double_of_int (Z.max (_fwdPackets f) (_revPackets f)) in
    (1 - min / max)%float
  else 1%float.

(** [bytesPerPkt] as lines 358-363 compute it: an unsigned integer quotient,
    then converted. *)
Definition bytesPerPkt (f : t) : float :=
  if wrap64 (_fwdPackets f + _revPackets f) >? 0 then
    double_of_int
      (wrap64 (_fwdBytes f + _revBytes f) / wrap64 (_fwdPackets f + _revPackets f))
  else 0%float.

(** The chain of tests of lines 376-389 (and 391-404), for either family. *)
Definition icmp_heuristic (f : t) (unreachSize : Z) (random echo : IcmpLayer)
  : IcmpLayer :=
  if ((_fwdPackets f <=? 3) || (_revPackets f <=? 3))
     && (bytesPerPkt f <=? 1.10 * double_of_int unreachSize)%float
  then random
  else if (fwdRevRatioDiff f <=? 0.2)%float then echo
  else if (bytesPerPkt f <=? 1.10 * double_of_int unreachSize)%float then random
  else echo.

Definition MakeIcmpLayer (f : t) (l3Proto : L3Protocol) : IcmpLayer :=
  match l3Proto with
  | Ipv4 => icmp_heuristic f ICMP_UNREACH_PKT_SIZE IcmpRandom IcmpEcho
  | _ => icmp_heuristic f ICMPV6_UNREACH_PKT_SIZE Icmpv6Random Icmpv6Echo
  end.

Definition is_random (l : IcmpLayer) : bool :=
  match l with
  | IcmpRandom | Icmpv6Random => true
  | IcmpEcho | Icmpv6Echo => false
  end.

End WithHeaderSizes.

(** *** Timestamp planning *)

(** [std::sort] with the comparator [a < b]; equal timestamps are
    indistinguishable, so every sorting algorithm gives this vector. *)
Fixpoint insert_sorted (x : Timeval) (l : list Timeval) : list Timeval :=
  match l with
  | [] => [x]
  | y :: rest =>
      if Timeval_ltb y x then y :: insert_sorted x rest else x :: y :: rest
  end.

Fixpoint sort (l : list Timeval) : list Timeval :=
  match l with
  | [] => []
  | x :: rest => insert_sorted x (sort rest)
  end.

(** Modelled from the spec: [PacketFlowSpan] (packetflowspan.h is not part of
    the sources at hand).  The span built with [PacketFlowSpan(this, false)]
    visits every packet of the flow in order: the spec says the timestamps are
    assigned positionally.  This is the last loop of [PlanPacketsTimestamps]
    (lines 548-551). *)
Fixpoint assign_timestamps (packets : list Packet) (timestamps : list Timeval)
  : list Packet :=
  match packets, timestamps with
  | packet :: packets, ts :: timestamps =>
      set_timestamp packet ts :: assign_timestamps packets timestamps
  | _, _ => packets
  end.

Section WithLocalEngine.
Context {LE : LocalEngine}.

(** One round of the generating loop (lines 532-541). *)
Definition draw_timestamp (f : t) (gen : engine) : Timeval * engine :=
  let first := _tsFirst f in
  let last := _tsLast f in
  let firstUsecDis :=
    if tv_sec first =? tv_sec last then (tv_usec first, tv_usec last)
    else (tv_usec first, 999999) in
  let lastUsecDis :=
    if tv_sec first =? tv_sec last then (tv_usec first, tv_usec last)
    else (0, tv_usec last) in
  let '(sec, gen) := uniform_int (tv_sec first) (tv_sec last) gen in
  let '(usec, gen) :=
    if sec =? tv_sec first then uniform_int (fst firstUsecDis) (snd firstUsecDis) gen
    else if sec =? tv_sec last then uniform_int (fst lastUsecDis) (snd lastUsecDis) gen
    else uniform_int 0 999999 gen in
  (mkTimeval sec usec, gen).

Fixpoint draw_timestamps (f : t) (timestampsToGen : nat) (timestamps : list Timeval)
  (gen : engine) : list Timeval * engine :=
  match timestampsToGen with
  | O => (timestamps, gen)
  | S n =>
      let '(time, gen) := draw_timestamp f gen in
      draw_timestamps f n (timestamps ++ [time]) gen
  end.

(** [gen] is the engine as seeded from [std::random_device]. *)
Definition PlanPacketsTimestamps (f : t) (gen : engine) : t :=
  let timestampsToGen := (length (_packets f) - 2)%nat in
  let '(timestamps, _) :=
    draw_timestamps f timestampsToGen [_tsFirst f; _tsLast f] gen in
  set_packets f (assign_timestamps (_packets f) (sort timestamps)).

End WithLocalEngine.

End Flow.

(** ** Stand-ins

    Concrete instances of the abstract collaborators, used to run the model
    on explicit inputs. *)

Module Stub.

(** A generator that replays a script: doubles and integers come from two
    lists, forced into the requested range; when a script runs out the lower
    bound is returned. *)
Definition scripted_double (lo hi : float) (g : list float * list Z)
  : float * (list float * list Z) :=
  match fst g with
  | d :: ds =>
      (if (lo <=? d)%float && (d <=? hi)%float then d else lo, (ds, snd g))
  | [] => (lo, g)
  end.

Definition scripted_uint (lo hi : Z) (g : list float * list Z)
  : Z * (list float * list Z) :=
  match snd g with
  | u :: us => (lo + u mod (hi - lo + 1), (fst g, us))
  | [] => (lo, g)
  end.

Definition Scripted : RandomGenerator :=
  {| rng := list float * list Z;
     RandomDouble := scripted_double;
     RandomUInt := scripted_uint |}.

(** A shuffle that reverses the vector. *)
Definition Reversing : DefaultShuffle := {| shuffle := @rev Z |}.

(** A local engine that replays raw outputs, reduced into the range. *)
Definition replay_int (a b : Z) (gen : list Z) : Z * list Z :=
  match gen with
  | r :: gen => (a + r mod (b - a + 1), gen)
  | [] => (a, [])
  end.

Definition Replay : LocalEngine :=
  {| engine := list Z; uniform_int := replay_int |}.

(** The header sizes of PcapPlusPlus. *)
Definition Pcpp : HeaderSizes :=
  {| ETHER_HDR_SIZE := 14; ICMP_HDR_SIZE := 4; ICMPV6_HDR_SIZE := 4;
     IPV4_HDR_SIZE := 20; IPV6_HDR_SIZE := 40; UDP_HDR_SIZE := 8 |}.

(** One interval, [50, 65], with weight one. *)
Definition one_interval : list IntervalInfo := [mkInterval 50 65 1].

(** Three intervals used to tell the two biasing branches apart. *)
Definition three_intervals : list IntervalInfo :=
  [mkInterval 10 20 0.5; mkInterval 100 200 0.25; mkInterval 1000 2000 0.25].

Definition blank_packet : Packet :=
  mkPacket Unknown (mkTimeval 0 0) 0 false.

(** A flow of three packets between 10.000000 s and 20.000000 s. *)
Definition three_packets : Flow.t :=
  Flow.mk 3 0 300 0 (mkTimeval 10 0) (mkTimeval 20 0)
          [blank_packet; blank_packet; blank_packet].

(** Two intervals of equal weight, and the vector of [Generate] for three
    packets and 1000 bytes after a first fill that drew 57, 58 and 58. *)
Definition two_intervals : list IntervalInfo :=
  [mkInterval 50 65 0.5; mkInterval 700 2000 0.5].

Definition after_fill : PacketSizeGeneratorSlow.refine :=
  PacketSizeGeneratorSlow.mkRefine [57; 58; 58] 173 827 [57; 58; 58].

(** An ICMP flow of 3 + 7 packets and 155 + 200 bytes. *)
Definition icmp_flow : Flow.t :=
  Flow.mk 3 7 155 200 (mkTimeval 0 0) (mkTimeval 1 0) [].

End Stub.

(** ** Two steps in the words of the specification

    Section 4.4, step a, and section 4.2 of the specification, read with
    exact quotients; they are compared with the code below. *)

Module AsSpecified.

(** The midpoint [(from + to) / 2] of an interval lies below (above) the
    average [S / N]; for [N > 0] that is [(from + to) * N < 2 * S]. *)
Definition midpoint_below_avg (inter : IntervalInfo) (S N : Z) : bool :=
  (_from inter + _to inter) * N <? 2 * S.

Definition midpoint_above_avg (inter : IntervalInfo) (S N : Z) : bool :=
  2 * S <? (_from inter + _to inter) * N.

(** "If [S < targetMin], zero intervals with midpoint [< avg]; if
    [S > targetMax], zero intervals with midpoint [> avg]." *)
Definition BiasIntervals (S targetMin targetMax N : Z)
  (intervals : list IntervalInfo) : list IntervalInfo :=
  if S <? targetMin then
    map (fun inter =>
           if midpoint_below_avg inter S N then zero_probability inter else inter)
        intervals
  else if S >? targetMax then
    map (fun inter =>
           if midpoint_above_avg inter S N then zero_probability inter else inter)
        intervals
  else intervals.

(** "[bpp = (Bf+Br)/(Pf+Pr)]", a quotient like [minPR/maxPR] beside it. *)
Definition bpp (f : Flow.t) : float :=
  (double_of_int (Flow._fwdBytes f + Flow._revBytes f)
   / double_of_int (Flow._fwdPackets f + Flow._revPackets f))%float.

(** "[ratioDiff = 1 - minPR/maxPR] (or 1.0 if both zero)". *)
Definition ratioDiff (f : Flow.t) : float :=
  if (Flow._fwdPackets f =? 0) && (Flow._revPackets f =? 0) then 1%float
  else (1 - double_of_int (Z.min (Flow._fwdPackets f) (Flow._revPackets f))
            / double_of_int (Z.max (Flow._fwdPackets f) (Flow._revPackets f)))%float.

(** "[IcmpRandom] if [Pf <= 3 or Pr <= 3] and [bpp <= 1.10 * S_unreach], or
    if [ratioDiff > 0.2] and [bpp <= 1.10 * S_unreach]". *)
Definition selects_random (f : Flow.t) (S_unreach : Z) : bool :=
  (((Flow._fwdPackets f <=? 3) || (Flow._revPackets f <=? 3))
   && PrimFloat.leb (bpp f) (1.10 * double_of_int S_unreach)%float)
  || (PrimFloat.ltb 0.2%float (ratioDiff f)
      && PrimFloat.leb (bpp f) (1.10 * double_of_int S_unreach)%float).

End AsSpecified.

(** ** Specification predicates *)

(** [inter'] is [inter] after a biasing step that clears the probability of
    the intervals satisfying [wrong_side]. *)
Definition biased_from (wrong_side : IntervalInfo -> Prop)
  (inter inter' : IntervalInfo) : Prop :=
  _from inter' = _from inter /\ _to inter' = _to inter /\
  (wrong_side inter -> _probability inter' = 0%float) /\
  (~ wrong_side inter -> _probability inter' = _probability inter).

(** The running sum of [ChooseEncaps] after the variants [l]. *)
Definition cumulative (l : list EncapsulationVariant) : float :=
  fold_left (fun accum variant => (accum + GetProbability variant)%float) l 0%float.

(** [rand <= accum] holds once the first [n] variants have been added. *)
Definition covers (variants : list EncapsulationVariant) (rand : float) (n : nat)
  : bool :=
  (rand <=? cumulative (firstn n variants))%float.

(** A float that is not NaN and carries the sign [s]. *)
Definition signed (s : bool) (x : spec_float) : Prop :=
  match x with
  | S754_zero s' | S754_infinity s' | S754_finite s' _ _ => s' = s
  | S754_nan => False
  end.

(** Non-negative doubles: [0 <= x]. *)
Definition nonneg (x : spec_float) : Prop :=
  match x with
  | S754_zero _ | S754_infinity false | S754_finite false _ _ => True
  | _ => False
  end.

(** A float that is not NaN. *)
Definition not_nan (x : spec_float) : Prop :=
  match x with S754_nan => False | _ => True end.

(** A finite double with a full mantissa. *)
Definition normal (s : bool) (x : spec_float) : Prop :=
  exists m e, x = S754_finite s m e /\ valid_binary x = true.

(** Intervals a generator can be built from: ordered bounds, and weights that
    are non-negative doubles. *)
Definition well_formed (intervals : list IntervalInfo) : Prop :=
  Forall (fun inter => _from inter <= _to inter /\
                       (0 <=? _probability inter)%float = true) intervals.

(** [biased] are [intervals] with some weights cleared. *)
Definition weights_cleared (intervals biased : list IntervalInfo) : Prop :=
  Forall2 (fun inter inter' => inter' = inter \/ inter' = zero_probability inter)
          intervals biased.

(** The invariant of the refinement: the current vector and the best vector
    hold values of the intervals only. *)
Definition all_in (intervals : list IntervalInfo) (st : PacketSizeGeneratorSlow.refine) : Prop :=
  Forall (in_intervals intervals) (PacketSizeGeneratorSlow.values st) /\
  Forall (in_intervals intervals) (PacketSizeGeneratorSlow.bestValues st).

(** A timestamp of the flow's interval. *)
Definition in_span (f : Flow.t) (ts : Timeval) : Prop :=
  Timeval_le (Flow._tsFirst f) ts /\ Timeval_le ts (Flow._tsLast f).

(** A microsecond field in its range. *)
Definition valid_usec (ts : Timeval) : Prop := 0 <= tv_usec ts <= 999999.

(** The size [MakeIcmpLayer] compares against, by family. *)
Definition unreach_size {HS : HeaderSizes} (l3Proto : L3Protocol) : Z :=
  match l3Proto with
  | Ipv4 => Flow.ICMP_UNREACH_PKT_SIZE
  | _ => Flow.ICMPV6_UNREACH_PKT_SIZE
  end.

(** [bytesPerPkt <= 1.10 * ICMP(V6)_UNREACH_PKT_SIZE] *)
Definition small_packets {HS : HeaderSizes} (f : Flow.t) (l3Proto : L3Protocol) : bool :=
  (Flow.bytesPerPkt f <=? 1.10 * double_of_int (unreach_size l3Proto))%float.

(** [_fwdPackets <= 3 || _revPackets <= 3] *)
Definition few_packets (f : Flow.t) : bool :=
  (Flow._fwdPackets f <=? 3) || (Flow._revPackets f <=? 3).

(** ** Address generators: iterated draws and decoding *)

Module AddressStream.

(** The states the constructor can produce and [NextValue] keeps. *)
Definition valid (g : AddressGenerators.t) : Prop :=
  1 <= AddressGenerators._state g < AddressGenerators.LEHMER_M /\
  1 <= AddressGenerators._seedState g < AddressGenerators.LEHMER_M /\
  0 <= AddressGenerators._capacity g <= AddressGenerators.LEHMER_M - 1.

(** [n] Lehmer steps. *)
Fixpoint iter_lehmer (n : nat) (x : Z) : Z :=
  match n with
  | O => x
  | S n => iter_lehmer n (AddressGenerators.lehmer x)
  end.

(** [n] successive calls of [NextValue], with the values in call order. *)
Fixpoint draws (n : nat) (g : AddressGenerators.t) : list Z * AddressGenerators.t :=
  match n with
  | O => ([], g)
  | S n =>
      let '(value, g) := AddressGenerators.NextValue g in
      let '(values, g) := draws n g in
      (value :: values, g)
  end.

(** The number a sequence of octets spells in network order. *)
Definition decode_be (bytes : list Z) : Z :=
  fold_left (fun acc b => acc * 256 + b) bytes 0.

End AddressStream.

(** ** Packet size generator: sums and repeated calls *)

Module PacketSizeGeneratorSlowMore.
Import PacketSizeGeneratorSlow.

(** The sum of a vector of values, before any wrap-around. *)
Definition sum_values (l : list Z) : Z := fold_right Z.add 0 l.

(** What the refinement loop of [Generate] keeps true: the running sum is
    the sum of the vector, the best difference is the difference of the best
    vector, and the two vectors have the same length. *)
Definition consistent (desiredBytes : Z) (st : refine) : Prop :=
  valuesSum st = wrap64 (sum_values (values st)) /\
  bestDiff st = absdiff (wrap64 (sum_values (bestValues st))) desiredBytes /\
  length (bestValues st) = length (values st).

(** [n] successive calls of [GetValue], with the values in call order. *)
Fixpoint GetValues {RG : RandomGenerator} (n : nat) (s : t) : Rand (list Z * t) :=
  match n with
  | O => ret ([], s)
  | S n =>
      r <- GetValue s ;;
      rs <- GetValues n (snd r) ;;
      ret (fst r :: fst rs, snd rs)
  end.

End PacketSizeGeneratorSlowMore.

(** ** Layers (layer.cpp) and the rest of flow.cpp *)

Module L4Protocol.

Inductive t : Type := Unknown | Tcp | Udp | Icmp | Icmpv6.

End L4Protocol.

(** [pcpp::IPAddress]: an address of either family, as its octets. *)
Inductive IPAddress : Type :=
| IPv4Address (octets : list Z)
| IPv6Address (octets : list Z).

(** The fields of [FlowProfile] that flow.cpp reads (flowprofile.h is not part
    of the sources at hand). *)
Record FlowProfile : Type := mkFlowProfile
  { _packets : Z;
    _packetsRev : Z;
    _bytes : Z;
    _bytesRev : Z;
    _startTime : Timeval;
    _endTime : Timeval;
    _l3Proto : L3Protocol;
    _l4Proto : L4Protocol.t;
    _srcIp : option IPAddress;
    _dstIp : option IPAddress;
    _srcPort : Z;    (* uint16_t *)
    _dstPort : Z }.

(** The getters of [config::Config] that flow.cpp calls (the configuration
    classes are not part of the sources at hand). *)
Record IpConfig : Type := mkIpConfig
  { GetFragmentationProbability : float;
    GetMinPacketSizeToFragment : Z }.

Record Config : Type := mkConfig
  { GetVariants : list EncapsulationVariant;
    GetIPv4 : IpConfig;
    GetIPv6 : IpConfig }.

Module Layer.

(** The layer classes the constructor of [Flow] instantiates, with their
    constructor arguments. *)
Inductive kind : Type :=
| Ethernet (macSrc macDst : list Z)
| Vlan (id : Z)
| Mpls (label : Z)
| IPv4 (ipSrc ipDst : list Z) (fragProb : float) (minPktSizeToFragment : Z)
| IPv6 (ipSrc ipDst : list Z) (fragProb : float) (minPktSizeToFragment : Z)
| Tcp (portSrc portDst : Z)
| Udp (portSrc portDst : Z)
| Icmp (layer : IcmpLayer)
| Payload.

(** A layer object: [_flow] tells whether the back pointer is set; the stack
    it points to is passed where it is read. *)
Record t : Type := mk
  { _kind : kind;
    _flow : bool;
    _layerNumber : Z }.   (* size_t *)

(** [Layer::AddedToFlow] *)
Definition AddedToFlow (layer : t) (layerNumber : Z) : t :=
  {| _kind := _kind layer; _flow := true; _layerNumber := layerNumber |}.

(** [Layer::GetNextLayer]; [layerStack] is [_flow->_layerStack].  The
    subtraction is on [size_t]. *)
Definition GetNextLayer (layerStack : list t) (layer : t) : option t :=
  if negb (_flow layer)
     || (_layerNumber layer >=? wrap64 (Z.of_nat (length layerStack) - 1))
  then None
  else nth_error layerStack (Z.to_nat (_layerNumber layer + 1)).

(** A layer as [std::make_unique] leaves it, before it is added to a flow. *)
Definition fresh (k : kind) : t :=
  {| _kind := k; _flow := false; _layerNumber := 0 |}.

End Layer.

Module FlowBuild.

(** [AdjustPacketSizesToL3] (flow.cpp, lines 200-210); the comparison
    converts the [int] header size to [uint64_t]. *)
Fixpoint AdjustPacketSizesToL3 {HS : HeaderSizes} (intervals : list IntervalInfo)
  : exn + list IntervalInfo :=
  match intervals with
  | [] => inr []
  | interval :: rest =>
      if (_from interval <? wrap64 ETHER_HDR_SIZE)
         || (_to interval <? wrap64 ETHER_HDR_SIZE)
      then inl invalid_argument
      else
        match AdjustPacketSizesToL3 rest with
        | inl e => inl e
        | inr rest =>
            inr (mkInterval (wrap64 (_from interval - wrap64 ETHER_HDR_SIZE))
                            (wrap64 (_to interval - wrap64 ETHER_HDR_SIZE))
                            (_probability interval) :: rest)
        end
  end.

(** The table of lines 212-218, before the adjustment. *)
Definition PACKET_SIZE_TABLE : list IntervalInfo :=
  [mkInterval 64 79 0.2824;
   mkInterval 80 159 0.073;
   mkInterval 160 319 0.0115;
   mkInterval 320 639 0.012;
   mkInterval 640 1279 0.0092;
   mkInterval 1280 1500 0.6119].

Definition PACKET_SIZE_PROBABILITIES {HS : HeaderSizes} : exn + list IntervalInfo :=
  AdjustPacketSizesToL3 PACKET_SIZE_TABLE.

(** [Flow::AddLayer] on the layer stack. *)
Definition AddLayer (layerStack : list Layer.t) (k : Layer.kind) : list Layer.t :=
  layerStack
  ++ [Layer.AddedToFlow (Layer.fresh k) (wrap64 (Z.of_nat (length layerStack)))].

(** [std::get_if<config::EncapsulationLayerVlan>(&layer)] and
    [std::get_if<config::EncapsulationLayerMpls>(&layer)]. *)
Definition get_if_vlan (layer : EncapsulationLayer) : option Z :=
  match layer with
  | EncapsulationLayerVlan id => Some id
  | _ => None
  end.

Definition get_if_mpls (layer : EncapsulationLayer) : option Z :=
  match layer with
  | EncapsulationLayerMpls label => Some label
  | _ => None
  end.

(** The loop of lines 257-266: an entry that holds neither alternative
    throws. *)
Fixpoint add_encapsulation (layerStack : list Layer.t)
  (encapsLayers : list EncapsulationLayer) : exn + list Layer.t :=
  match encapsLayers with
  | [] => inr layerStack
  | layer :: rest =>
      match get_if_vlan layer with
      | Some id => add_encapsulation (AddLayer layerStack (Layer.Vlan id)) rest
      | None =>
          match get_if_mpls layer with
          | Some label =>
              add_encapsulation (AddLayer layerStack (Layer.Mpls label)) rest
          | None => inl runtime_error
          end
      end
  end.

(** [getIPv4()] and [getIPv6()]; the constructor asserts the family first. *)
Definition getIPv4 (ip : IPAddress) : list Z :=
  match ip with
  | IPv4Address octets => octets
  | IPv6Address _ => [0; 0; 0; 0]
  end.

Definition getIPv6 (ip : IPAddress) : list Z :=
  match ip with
  | IPv6Address octets => octets
  | IPv4Address _ => repeat 0 16
  end.

(** An address of the profile, or a generated one. *)
Definition address_or (given : option IPAddress) (get : IPAddress -> list Z)
  (generate : AddressGenerators.t -> list Z * AddressGenerators.t)
  (ag : AddressGenerators.t) : list Z * AddressGenerators.t :=
  match given with
  | Some ip => (get ip, ag)
  | None => generate ag
  end.

(** The members the constructor initialises from the profile (lines 244-250),
    before any plan exists. *)
Definition members (profile : FlowProfile) : Flow.t :=
  Flow.mk (_packets profile) (_packetsRev profile) (_bytes profile)
          (_bytesRev profile) (_startTime profile) (_endTime profile) [].

(** The second [switch] of the constructor (lines 317-350). *)
Definition add_l4 {HS : HeaderSizes} (profile : FlowProfile)
  (layerStack : list Layer.t) : exn + list Layer.t :=
  match _l4Proto profile with
  | L4Protocol.Unknown => inl runtime_error
  | L4Protocol.Tcp =>
      inr (AddLayer (AddLayer layerStack
                       (Layer.Tcp (_srcPort profile) (_dstPort profile)))
                    Layer.Payload)
  | L4Protocol.Udp =>
      inr (AddLayer (AddLayer layerStack
                       (Layer.Udp (_srcPort profile) (_dstPort profile)))
                    Layer.Payload)
  | L4Protocol.Icmp =>
      match _l3Proto profile with
      | Ipv4 =>
          inr (AddLayer layerStack
                 (Layer.Icmp (Flow.MakeIcmpLayer (members profile) (_l3Proto profile))))
      | _ => inl runtime_error
      end
  | L4Protocol.Icmpv6 =>
      match _l3Proto profile with
      | Ipv6 =>
          inr (AddLayer layerStack
                 (Layer.Icmp (Flow.MakeIcmpLayer (members profile) (_l3Proto profile))))
      | _ => inl runtime_error
      end
  end.

(** The statements of the constructor of [Flow] that build the layer stack
    (lines 252-350): the stack or the exception, and the address generators
    and the random generator as these statements leave them. *)
Definition build_layers {RG : RandomGenerator} {HS : HeaderSizes}
  (profile : FlowProfile) (config : Config)
  (ag : AddressGenerators.t) (g : rng)
  : (exn + list Layer.t) * AddressGenerators.t * rng :=
  let '(macSrc, ag) := AddressGenerators.GenerateMac ag in
  let '(macDst, ag) := AddressGenerators.GenerateMac ag in
  let layerStack := AddLayer [] (Layer.Ethernet macSrc macDst) in
  let '(encapsLayers, g) := Flow.ChooseEncaps (GetVariants config) g in
  match add_encapsulation layerStack encapsLayers with
  | inl e => (inl e, ag, g)
  | inr layerStack =>
      match _l3Proto profile with
      | L3Unknown => (inl runtime_error, ag, g)
      | Ipv4 =>
          let '(ipSrc, ag) :=
            address_or (_srcIp profile) getIPv4 AddressGenerators.GenerateIPv4 ag in
          let '(ipDst, ag) :=
            address_or (_dstIp profile) getIPv4 AddressGenerators.GenerateIPv4 ag in
          let layerStack :=
            AddLayer layerStack
              (Layer.IPv4 ipSrc ipDst
                 (GetFragmentationProbability (GetIPv4 config))
                 (GetMinPacketSizeToFragment (GetIPv4 config))) in
          (add_l4 profile layerStack, ag, g)
      | Ipv6 =>
          let '(ipSrc, ag) :=
            address_or (_srcIp profile) getIPv6 AddressGenerators.GenerateIPv6 ag in
          let '(ipDst, ag) :=
            address_or (_dstIp profile) getIPv6 AddressGenerators.GenerateIPv6 ag in
          let layerStack :=
            AddLayer layerStack
              (Layer.IPv6 ipSrc ipDst
                 (GetFragmentationProbability (GetIPv6 config))
                 (GetMinPacketSizeToFragment (GetIPv6 config))) in
          (add_l4 profile layerStack, ag, g)
      end
  end.

(** [Flow::Plan] (lines 422-442) resizes the plan vector and runs the
    planning hooks of the layers ([PlanFlow], [PostPlanFlow], [PlanExtra])
    around [PlanPacketsDirections], [PlanPacketsSizes] and
    [PlanPacketsTimestamps].  The layer classes and [PacketFlowSpan] are not
    part of the sources at hand, so the call is taken as a whole: it works on
    the members and the layer stack, draws from the shared random generator
    and from the local engine of [PlanPacketsTimestamps], and may throw.  It
    has no access to the address generators, which are an argument of the
    constructor only. *)
Class Planner {RG : RandomGenerator} {LE : LocalEngine} : Type :=
  { planned : Type;
    Plan : Flow.t -> list Layer.t -> engine -> Rand (exn + planned) }.

(** The constructor of [Flow] (lines 239-353): the member initialisers, the
    layer stack, then [Plan()].  The result is the planned flow or the
    exception, with the address generators and the random generator as the
    constructor leaves them. *)
Definition construct {RG : RandomGenerator} {HS : HeaderSizes}
  {LE : LocalEngine} {PL : Planner}
  (profile : FlowProfile) (config : Config)
  (ag : AddressGenerators.t) (gen : engine) (g : rng)
  : (exn + planned) * AddressGenerators.t * rng :=
  let '(built, ag, g) := build_layers profile config ag g in
  match built with
  | inl e => (inl e, ag, g)
  | inr layerStack =>
      let '(result, g) := Plan (members profile) layerStack gen g in
      (result, ag, g)
  end.

(** A planner that leaves the members and the stack as they are. *)
Definition NoPlan {RG : RandomGenerator} {LE : LocalEngine} : Planner :=
  {| planned := Flow.t * list Layer.t;
     Plan := fun f layerStack _ => ret (inr (f, layerStack)) |}.

(** What the layers of a plan write into a packet (lines 457-472): the
    [Build] hooks, [computeCalculateFields], the [PostBuild] hooks and
    [computeCalculateFields] again.  The hooks belong to the layer classes,
    which are not part of the sources at hand. *)
Class PacketBuilder : Type :=
  { PcppPacket : Type;
    build : Packet -> PcppPacket }.

(** [PacketExtraInfo] *)
Record PacketExtraInfo : Type := mkExtra
  { extra_direction : Direction;   (* _direction *)
    extra_time : Timeval }.        (* _time *)

(** [Flow::GenerateNextPacket]: the packet, the extra information and the
    flow without the plan just used, or the exception. *)
Definition GenerateNextPacket {PB : PacketBuilder} (f : Flow.t)
  : exn + (PcppPacket * PacketExtraInfo * Flow.t) :=
  match Flow._packets f with
  | [] => inl runtime_error
  | packetPlan :: rest =>
      inr (build packetPlan,
           mkExtra (_direction packetPlan) (_timestamp packetPlan),
           Flow.set_packets f rest)
  end.

(** [Flow::IsFinished] *)
Definition IsFinished (f : Flow.t) : bool :=
  match Flow._packets f with
  | [] => true
  | _ :: _ => false
  end.

(** [Flow::GetNextPacketTime]; [front()] of an empty vector is undefined,
    which is [None] here. *)
Definition GetNextPacketTime (f : Flow.t) : option Timeval :=
  match Flow._packets f with
  | [] => None
  | packetPlan :: _ => Some (_timestamp packetPlan)
  end.

(** The driver's loop: [n] calls of [GenerateNextPacket], stopping at the
    first exception. *)
Fixpoint generate {PB : PacketBuilder} (n : nat) (f : Flow.t)
  : exn + (list (PcppPacket * PacketExtraInfo) * Flow.t) :=
  match n with
  | O => inr ([], f)
  | S n =>
      match GenerateNextPacket f with
      | inl e => inl e
      | inr (packet, extra, f) =>
          match generate n f with
          | inl e => inl e
          | inr (rest, f) => inr ((packet, extra) :: rest, f)
          end
      end
  end.

(** What one plan yields when it is generated. *)
Definition emitted {PB : PacketBuilder} (packetPlan : Packet)
  : PcppPacket * PacketExtraInfo :=
  (build packetPlan, mkExtra (_direction packetPlan) (_timestamp packetPlan)).

Definition set_size (p : Packet) (size : Z) : Packet :=
  {| _direction := _direction p; _timestamp := _timestamp p; _size := size;
     _isFinished := _isFinished p |}.

Section WithGenerator.
Context {RG : RandomGenerator} {SH : DefaultShuffle}.

(** The first loop of [PlanPacketsSizes] (lines 559-564). *)
Fixpoint reserve_finished (packets : list Packet)
  (fwdGen revGen : PacketSizeGeneratorSlow.t)
  : Rand (PacketSizeGeneratorSlow.t * PacketSizeGeneratorSlow.t) :=
  match packets with
  | [] => ret (fwdGen, revGen)
  | packet :: rest =>
      if _isFinished packet then
        match _direction packet with
        | Forward =>
            fwdGen <- PacketSizeGeneratorSlow.GetValueExact (_size packet) fwdGen ;;
            reserve_finished rest fwdGen revGen
        | _ =>
            revGen <- PacketSizeGeneratorSlow.GetValueExact (_size packet) revGen ;;
            reserve_finished rest fwdGen revGen
        end
      else reserve_finished rest fwdGen revGen
  end.

(** The second loop of [PlanPacketsSizes] (lines 569-576). *)
Fixpoint assign_sizes (packets : list Packet)
  (fwdGen revGen : PacketSizeGeneratorSlow.t)
  : Rand (list Packet * (PacketSizeGeneratorSlow.t * PacketSizeGeneratorSlow.t)) :=
  match packets with
  | [] => ret ([], (fwdGen, revGen))
  | packet :: rest =>
      if negb (_isFinished packet) then
        match _direction packet with
        | Forward =>
            r <- PacketSizeGeneratorSlow.GetValue fwdGen ;;
            rs <- assign_sizes rest (snd r) revGen ;;
            ret (set_size packet (Z.max (_size packet) (fst r)) :: fst rs, snd rs)
        | _ =>
            r <- PacketSizeGeneratorSlow.GetValue revGen ;;
            rs <- assign_sizes rest fwdGen (snd r) ;;
            ret (set_size packet (Z.max (_size packet) (fst r)) :: fst rs, snd rs)
        end
      else
        rs <- assign_sizes rest fwdGen revGen ;;
        ret (packet :: fst rs, snd rs)
  end.

(** Modelled from the spec: [PacketSizeGenerator::Construct]
    (packetsizegenerator.h is not part of the sources at hand) builds the
    packet-size distributor of section 4.4 of the spec, that is a
    [PacketSizeGeneratorSlow], from the intervals and the counts.
    [PlanPacketsSizes] (lines 554-580) is given the value of
    [PACKET_SIZE_PROBABILITIES]; the two generators are returned beside the
    flow, as [PrintReport] is the only use made of them afterwards. *)
Definition PlanPacketsSizes (intervals : list IntervalInfo) (f : Flow.t)
  : Rand (Flow.t * (PacketSizeGeneratorSlow.t * PacketSizeGeneratorSlow.t)) :=
  let fwdGen :=
    PacketSizeGeneratorSlow.make intervals (Flow._fwdPackets f) (Flow._fwdBytes f) in
  let revGen :=
    PacketSizeGeneratorSlow.make intervals (Flow._revPackets f) (Flow._revBytes f) in
  gens <- reserve_finished (Flow._packets f) fwdGen revGen ;;
  fwdGen <- PacketSizeGeneratorSlow.PlanRemaining (fst gens) ;;
  revGen <- PacketSizeGeneratorSlow.PlanRemaining (snd gens) ;;
  r <- assign_sizes (Flow._packets f) fwdGen revGen ;;
  ret (Flow.set_packets f (fst r), snd r).

End WithGenerator.

(** The plans [PlanPacketsSizes] serves from [fwdGen]; every other plan,
    also one whose direction is still unknown, is served from [revGen]. *)
Definition is_forward (p : Packet) : bool :=
  match _direction p with Forward => true | _ => false end.

(** How many plans of a list are served from [fwdGen], and from [revGen]. *)
Definition count_forward (packets : list Packet) : nat :=
  length (filter is_forward packets).

Definition count_reverse (packets : list Packet) : nat :=
  length (filter (fun p => negb (is_forward p)) packets).

(** [q] is the plan [p] after the sizes were planned: only the size may
    differ, it may only grow, and not at all if the plan was finished. *)
Definition sized_from (p q : Packet) : Prop :=
  _direction q = _direction p /\ _timestamp q = _timestamp p /\
  _isFinished q = _isFinished p /\ _size p <= _size q /\
  (_isFinished p = true -> _size q = _size p).

(** A packet builder that keeps the planned size only. *)
Definition SizeOnly : PacketBuilder := {| PcppPacket := Z; build := _size |}.

(** The kinds of a stack, bottom first. *)
Definition kinds (layerStack : list Layer.t) : list Layer.kind :=
  map Layer._kind layerStack.

(** Every layer of the stack knows its flow and its own position. *)
Definition numbered (layerStack : list Layer.t) : Prop :=
  forall i layer,
    nth_error layerStack i = Some layer ->
    Layer._flow layer = true /\ Layer._layerNumber layer = Z.of_nat i.

(** The layer an encapsulation entry of the configuration turns into. *)
Definition encapsulation_kind (layer : EncapsulationLayer) : Layer.kind :=
  match layer with
  | EncapsulationLayerVlan id => Layer.Vlan id
  | EncapsulationLayerMpls label => Layer.Mpls label
  end.

(** The profiles the constructor refuses. *)
Definition unsupported (profile : FlowProfile) : Prop :=
  _l3Proto profile = L3Unknown \/
  _l4Proto profile = L4Protocol.Unknown \/
  (_l4Proto profile = L4Protocol.Icmp /\ _l3Proto profile <> Ipv4) \/
  (_l4Proto profile = L4Protocol.Icmpv6 /\ _l3Proto profile <> Ipv6).

(** The layers above the IP layer, by L4 protocol. *)
Definition l4_kinds {HS : HeaderSizes} (profile : FlowProfile) : list Layer.kind :=
  match _l4Proto profile with
  | L4Protocol.Unknown => []
  | L4Protocol.Tcp => [Layer.Tcp (_srcPort profile) (_dstPort profile); Layer.Payload]
  | L4Protocol.Udp => [Layer.Udp (_srcPort profile) (_dstPort profile); Layer.Payload]
  | L4Protocol.Icmp | L4Protocol.Icmpv6 =>
      [Layer.Icmp (Flow.MakeIcmpLayer (members profile) (_l3Proto profile))]
  end.

(** How many addresses the profile leaves to the generator. *)
Definition missing_addresses (profile : FlowProfile) : nat :=
  (match _srcIp profile with Some _ => 0 | None => 1 end
   + match _dstIp profile with Some _ => 0 | None => 1 end)%nat.

(** How many Lehmer values the constructor takes: four for the two MAC
    addresses, then one per missing IPv4 address or four per missing IPv6
    address. *)
Definition values_taken (profile : FlowProfile) : nat :=
  match _l3Proto profile with
  | L3Unknown => 4
  | Ipv4 => 4 + missing_addresses profile
  | Ipv6 => 4 + 4 * missing_addresses profile
  end.

End FlowBuild.

(** ** The traffic meter (trafficmeter.cpp) *)

Module TrafficMeter.

Definition INT64_MAX : Z := 2 ^ 63 - 1.
Definition INT64_MIN : Z := - 2 ^ 63.

(** The value a signed 64-bit operation leaves on two's complement hardware;
    it is the mathematical result exactly when that fits. *)
Definition wrap_i64 (z : Z) : Z := (z + 2 ^ 63) mod 2 ^ 64 - 2 ^ 63.

(** [TimevalToMicroseconds] (lines 284-301); [tv_sec] and [tv_usec] are
    64-bit [long]s, the division of the limits truncates towards zero. *)
Definition TimevalToMicroseconds (tv : Timeval) : exn + Z :=
  let microseconds := 0 in
  if (tv_sec tv >? INT64_MAX ÷ 1000000) || (tv_sec tv <? INT64_MIN ÷ 1000000)
  then inl runtime_error
  else
    let microseconds := wrap_i64 (microseconds + wrap_i64 (tv_sec tv * 1000000)) in
    if ((microseconds >? 0) && (wrap_i64 (INT64_MAX - microseconds) <? tv_usec tv))
       || ((microseconds <? 0) && (tv_usec tv <? wrap_i64 (INT64_MIN - microseconds)))
    then inl runtime_error
    else inr (wrap_i64 (microseconds + tv_usec tv)).

(** The [START_TIME] and [END_TIME] columns of [WriteReportCsv] (lines
    325-334): the microseconds converted to [uint64_t], then the milliseconds
    and the three digits printed after the point. *)
Definition csv_time (tv : Timeval) : exn + (Z * Z) :=
  match TimevalToMicroseconds tv with
  | inl e => inl e
  | inr microseconds =>
      let usec := wrap64 microseconds in
      inr (usec / 1000, usec mod 1000)
  end.

(** A value of type [int64_t]. *)
Definition is_int64 (z : Z) : Prop := INT64_MIN <= z <= INT64_MAX.

End TrafficMeter.

(** ** The pool of the older value generator (valuegenerator.cpp) *)

Module ValueGeneratorPool.

(** [ValueGenerator::GetValue] (lines 92-97) on the vector [_values]: the
    value and the vector left.  [back()] of an empty vector is undefined,
    which is [None] here. *)
Definition GetValue (_values : list Z) : option (Z * list Z) :=
  match rev _values with
  | [] => None
  | value :: front => Some (value, rev front)
  end.

(** [ValueGenerator::GetValueExact] (lines 99-117): the loop runs over the
    whole vector; after the swap [_values.back()] is the old
    [_values[closest]].  Undefined on an empty vector. *)
Definition GetValueExact (value : Z) (_values : list Z) : option (Z * list Z) :=
  match _values with
  | [] => None
  | _ :: _ =>
      let closest :=
        PacketSizeGeneratorSlow.find_closest _values value
          (seq 0 (length _values)) 0%nat value in
      Some (nth closest _values 0,
            PacketSizeGeneratorSlow.swap_remove closest _values)
  end.

End ValueGeneratorPool.

(** ** Packets of the replay tool (ft-replay: packet.hpp, packet.cpp) *)

Module ReplayPacket.

Inductive L3Type : Type := IPv4 | IPv6.

Record PacketInfo : Type := mkInfo
  { l3Type : L3Type;
    l3Offset : Z }.   (* uint16_t *)

Record Packet : Type := mkPacket
  { data : list Z;    (* std::byte[] *)
    dataLen : Z;      (* uint16_t *)
    timestamp : Z;    (* uint64_t *)
    info : PacketInfo }.

(** [XXH32(input, length, seed)] of the xxHash library, on the bytes read. *)
Class Hash32 : Type :=
  { XXH32 : list Z -> Z -> Z }.

(** The [len] bytes at [offset]. *)
Definition bytes_at (data : list Z) (offset : Z) (len : nat) : list Z :=
  firstn len (skipn (Z.to_nat offset) data).

(** [&ipHeader->saddr] and [&ipHeader->daddr] with their sizes: bytes 12-15
    and 16-19 of [struct iphdr]. *)
Definition saddr (p : Packet) : list Z := bytes_at (data p) (l3Offset (info p) + 12) 4.
Definition daddr (p : Packet) : list Z := bytes_at (data p) (l3Offset (info p) + 16) 4.

(** [&ipHeader->ip6_src] and [&ipHeader->ip6_dst]: bytes 8-23 and 24-39 of
    [struct ip6_hdr]. *)
Definition ip6_src (p : Packet) : list Z := bytes_at (data p) (l3Offset (info p) + 8) 16.
Definition ip6_dst (p : Packet) : list Z := bytes_at (data p) (l3Offset (info p) + 24) 16.

Definition CalculateIpv4Hash {H : Hash32} (p : Packet) : Z :=
  let hashSrcIp := XXH32 (saddr p) 0 in
  let hashDstIp := XXH32 (daddr p) 0 in
  Z.lxor hashSrcIp hashDstIp.

Definition CalculateIpv6Hash {H : Hash32} (p : Packet) : Z :=
  let hashSrcIp := XXH32 (ip6_src p) 0 in
  let hashDstIp := XXH32 (ip6_dst p) 0 in
  Z.lxor hashSrcIp hashDstIp.

Definition GetHash {H : Hash32} (p : Packet) : Z :=
  match l3Type (info p) with
  | IPv4 => CalculateIpv4Hash p
  | IPv6 => CalculateIpv6Hash p
  end.

(** The source and the destination address the hash reads. *)
Definition source (p : Packet) : list Z :=
  match l3Type (info p) with IPv4 => saddr p | IPv6 => ip6_src p end.

Definition destination (p : Packet) : list Z :=
  match l3Type (info p) with IPv4 => daddr p | IPv6 => ip6_dst p end.

(** A hash for examples: the sum of the bytes and the seed, on 32 bits. *)
Definition ByteSum : Hash32 :=
  {| XXH32 := fun input seed => wrap32 (fold_right Z.add seed input) |}.

(** An IPv4 header after a 14-byte Ethernet header, from [src] to [dst]. *)
Definition ipv4_frame (src dst : list Z) (payload : list Z) : Packet :=
  {| data := repeat 0 14 ++ [69; 0; 0; 40; 0; 0; 0; 0; 64; 6; 0; 0] ++ src ++ dst
             ++ payload;
     dataLen := Z.of_nat (26 + length src + length dst + length payload);
     timestamp := 0;
     info := mkInfo IPv4 14 |}.

End ReplayPacket.

(** * Address generators *)

Lemma byte_at_div (v k : Z) :
  0 <= k -> byte_at v k = v / 2 ^ k mod 256.
Proof.
  intros Hk. unfold byte_at.
  rewrite Z.shiftr_div_pow2 by assumption.
  change 255 with (Z.ones 8).
  rewrite Z.land_ones by lia. reflexivity.
Qed.

Lemma lehmer_range (x : Z) :
  0 <= AddressGenerators.lehmer x < AddressGenerators.LEHMER_M.
Proof.
  unfold AddressGenerators.lehmer, wrap32, AddressGenerators.LEHMER_M.
  assert (H : 0 <= (x * AddressGenerators.LEHMER_A) mod 2147483647 < 2147483647)
    by (apply Z.mod_pos_bound; lia).
  rewrite Z.mod_small; lia.
Qed.

(** For every accepted seed the first address is two Lehmer steps away from
    the seed: one taken by the constructor, one by [NextValue]. *)
Lemma first_ipv4_two_steps (seed : Z) :
  1 <= seed < AddressGenerators.LEHMER_M ->
  AddressGenerators.first_ipv4 seed
  = inr (AddressGenerators.be32
           (AddressGenerators.lehmer (AddressGenerators.lehmer seed))).
Proof.
  intros Hseed.
  unfold AddressGenerators.first_ipv4, AddressGenerators.make.
  replace (seed <=? 0) with false by (symmetry; apply Z.leb_gt; lia).
  replace (seed >=? AddressGenerators.LEHMER_M) with false
    by (symmetry; rewrite Z.geb_leb; apply Z.leb_gt; lia).
  cbn [orb].
  unfold AddressGenerators.GenerateIPv4, AddressGenerators.NextValue,
    AddressGenerators.NextSeed.
  cbn [AddressGenerators._capacity AddressGenerators._state
       AddressGenerators._seedState fst].
  change (AddressGenerators.LEHMER_M - 1 =? 0) with false. cbn iota.
  cbn [AddressGenerators._state fst].
  unfold AddressGenerators.be32.
  rewrite !byte_at_div by lia.
  rewrite Z.pow_0_r, Z.div_1_r. reflexivity.
Qed.

(** C2, as the spec states it, fails: with seed 1 the first IPv4 address is
    not 0.0.188.143. *)
Lemma first_ipv4_seed_1_is_not_one_step :
  ~ (AddressGenerators.make 0 = inl invalid_argument /\
     AddressGenerators.first_ipv4 1
     = inr (AddressGenerators.be32 ((1 * 48271) mod (2 ^ 31 - 1))) /\
     AddressGenerators.be32 ((1 * 48271) mod (2 ^ 31 - 1)) = [0; 0; 188; 143]).
Proof.
  intros (_ & H & _). vm_compute in H. discriminate H.
Qed.

(** C2 (amended): the constructor rejects seed 0 with [invalid_argument]; with
    seed 1 the constructor already takes one Lehmer step (state 48271) and the
    first [GenerateIPv4] call takes a second one, so it returns the big-endian
    bytes of 48271 * 48271 mod (2^31 - 1) = 182605794, i.e. 10.226.87.226. *)
Theorem first_ipv4_seed_0_and_1 :
  AddressGenerators.make 0 = inl invalid_argument /\
  (exists g, AddressGenerators.make 1 = inr g /\
             AddressGenerators._state g = (1 * 48271) mod (2 ^ 31 - 1)) /\
  AddressGenerators.first_ipv4 1
  = inr (AddressGenerators.be32 ((48271 * 48271) mod (2 ^ 31 - 1))) /\
  (48271 * 48271) mod (2 ^ 31 - 1) = 182605794 /\
  AddressGenerators.be32 182605794 = [10; 226; 87; 226].
Proof.
  split; [reflexivity|].
  split; [eexists; split; reflexivity|].
  split; [|split; reflexivity].
  rewrite first_ipv4_two_steps by (unfold AddressGenerators.LEHMER_M; lia).
  reflexivity.
Qed.

(** * Packet size generator *)

Module PacketSizeGeneratorSlowFacts.
Import PacketSizeGeneratorSlow.

Lemma resize_length (n : nat) (l : list Z) : length (resize n l) = n.
Proof.
  unfold resize. rewrite length_app, length_firstn, repeat_length. lia.
Qed.

Lemma resize_0 (l : list Z) : resize 0 l = [].
Proof. reflexivity. Qed.

Lemma resize_nil (n : nat) : resize n [] = repeat 0 n.
Proof.
  unfold resize. rewrite firstn_nil. cbn [app length]. now rewrite Nat.sub_0_r.
Qed.

Lemma map_const_repeat {A : Type} (x : Z) (l : list A) :
  map (fun _ => x) l = repeat x (length l).
Proof. induction l as [|a l IH]; cbn; [reflexivity | now rewrite IH]. Qed.

Section WithGenerator.
Context {RG : RandomGenerator} {SH : DefaultShuffle}.

(** ** Lengths are preserved by the loops of [Generate] *)

Lemma fill_length intervals probSum todo : forall done sum g,
  length (fst (fst (fill intervals probSum done todo sum g)))
  = (length done + length todo)%nat.
Proof.
  induction todo as [|v todo IH]; intros done sum g; cbn [fill].
  - cbn. lia.
  - unfold bind. destruct (GenerateRandomValue intervals probSum g) as [value g'].
    rewrite IH, length_app. cbn. lia.
Qed.

Lemma sweep_length intervals probSum B tmin tmax todo :
  forall done sum best bestv g,
  length (values (fst (sweep intervals probSum B tmin tmax done todo sum best bestv g)))
  = (length done + length todo)%nat.
Proof.
  induction todo as [|v todo IH]; intros done sum best bestv g; cbn [sweep].
  - cbn. lia.
  - unfold bind. destruct (GenerateRandomValue intervals probSum g) as [newValue g'].
    destruct (_ && _).
    + cbn. rewrite length_app. cbn. lia.
    + destruct (_ <? best); rewrite IH, length_app; cbn; lia.
Qed.

Lemma attempts_length n intervals N B tmin tmax : forall st g,
  length (values (fst (attempts n intervals N B tmin tmax st g)))
  = length (values st).
Proof.
  induction n as [|n IH]; intros st g; cbn [attempts].
  - reflexivity.
  - destruct (_ || _); [|reflexivity].
    unfold bind.
    destruct (sweep _ _ _ _ _ _ _ _ _ _ g) as [st' g'] eqn:Hsweep.
    rewrite IH.
    assert (Hlen : length (values st') = length (values st)).
    { change st' with (fst (st', g')). rewrite <- Hsweep, sweep_length.
      reflexivity. }
    destruct (_ <? _); cbn [values]; exact Hlen.
Qed.

Lemma GenerateBest_length N B s g :
  length (values (fst (GenerateBest N B s g))) = Z.to_nat N.
Proof.
  unfold GenerateBest, bind.
  destruct (fill _ _ _ _ _ g) as [[vs sum] g'] eqn:Hfill.
  rewrite attempts_length. cbn [values].
  change vs with (fst (fst (vs, sum, g'))). rewrite <- Hfill, fill_length.
  cbn [length]. now rewrite resize_length.
Qed.

(** ** The early returns of [Generate] *)

Lemma Generate_no_budget N B s g :
  N = 0 \/ B = 0 ->
  Generate N B s g = (set_values s (resize (Z.to_nat N) (_values s)), g).
Proof.
  intros H. unfold Generate.
  replace ((N =? 0) || (B =? 0)) with true; [reflexivity|].
  symmetry. apply orb_true_iff. rewrite !Z.eqb_eq. exact H.
Qed.

Lemma Generate_single B s g :
  B <> 0 -> Generate 1 B s g = (set_values s [B], g).
Proof.
  intros HB. unfold Generate.
  apply Z.eqb_neq in HB. rewrite HB. cbn [Z.eqb orb].
  change (Z.to_nat 1) with 1%nat.
  unfold resize. destruct (_values s); reflexivity.
Qed.

End WithGenerator.

(** C4, as the spec states it, fails: with [B = 0] and [N = 3] the pool of a
    fresh generator ends up with three entries. *)
Lemma Generate_zero_bytes_pool_not_empty :
  _values (fst (@Generate Stub.Scripted Stub.Reversing 3 0
                          (make Stub.one_interval 3 0) ([], [])))
  = [0; 0; 0] /\
  _values (fst (@Generate Stub.Scripted Stub.Reversing 3 0
                          (make Stub.one_interval 3 0) ([], [])))
  <> [].
Proof. split; [reflexivity | discriminate]. Qed.

(** C4 (amended): a call of [Generate] with [N = 0] or [B = 0] draws nothing
    and only resizes the pool to [N] entries.  For [N = 0] the pool is empty;
    for [B = 0] and [N > 0] it holds the first [N] entries of the previous
    pool, padded with zeros (all zeros on a fresh generator), so it is not
    empty.  [PlanRemaining] does the same with the remaining counts. *)
Theorem Generate_no_budget_resizes {RG : RandomGenerator} {SH : DefaultShuffle}
  (N B : Z) (s : t) (g : rng) :
  N = 0 \/ B = 0 ->
  Generate N B s g = (set_values s (resize (Z.to_nat N) (_values s)), g) /\
  length (_values (fst (Generate N B s g))) = Z.to_nat N /\
  (N = 0 -> _values (fst (Generate N B s g)) = []) /\
  (_values s = [] -> _values (fst (Generate N B s g)) = repeat 0 (Z.to_nat N)) /\
  (_numPkts s <= _assignedPkts s \/ _numBytes s <= _assignedBytes s ->
   PlanRemaining s g
   = (set_values s (resize (Z.to_nat (_numPkts s - _assignedPkts s)) (_values s)), g)).
Proof.
  intros H. rewrite (Generate_no_budget N B s g H). cbn [fst _values set_values].
  split; [reflexivity|]. split; [apply resize_length|].
  split; [intros ->; reflexivity|].
  split; [intros ->; apply resize_nil|].
  intros Hrem. unfold PlanRemaining.
  destruct (_numPkts s >=? _assignedPkts s) eqn:Hp;
    destruct (_numBytes s >=? _assignedBytes s) eqn:Hb;
    rewrite ?Z.geb_leb, ?Z.leb_le, ?Z.leb_gt in Hp, Hb.
  - rewrite Generate_no_budget by lia. reflexivity.
  - rewrite Generate_no_budget by lia. reflexivity.
  - rewrite Generate_no_budget by lia.
    replace (Z.to_nat (_numPkts s - _assignedPkts s)) with (Z.to_nat 0) by lia.
    reflexivity.
  - rewrite Generate_no_budget by lia.
    replace (Z.to_nat (_numPkts s - _assignedPkts s)) with (Z.to_nat 0) by lia.
    reflexivity.
Qed.

Lemma Generate_no_budget_resizes_witness :
  _values (fst (@Generate Stub.Scripted Stub.Reversing 0 100
                          (set_values (make Stub.one_interval 0 100) [7; 8])
                          ([], [])))
  = [].
Proof.
  destruct (@Generate_no_budget_resizes Stub.Scripted Stub.Reversing 0 100
              (set_values (make Stub.one_interval 0 100) [7; 8]) ([], [])
              (or_introl eq_refl)) as (_ & _ & Hempty & _).
  apply Hempty. reflexivity.
Defined.

(** ** [GetValueExact] *)

Lemma GetValueExact_assignedBytes {RG : RandomGenerator} value s g :
  _assignedBytes (fst (GetValueExact value s g))
  = wrap64 (_assignedBytes s + value) /\
  _assignedPkts (fst (GetValueExact value s g))
  = wrap64 (_assignedPkts s + 1).
Proof.
  unfold GetValueExact.
  destruct (Z.of_nat (length (_values s)) =? 0); [split; reflexivity|].
  unfold bind.
  destruct (Z.of_nat (length (_values s)) <=? GET_EXACT_MAX_DISTANCE).
  - split; reflexivity.
  - destruct (RandomUInt _ _ g) as [start g']. split; reflexivity.
Qed.

(** C10: on an empty pool [GetValueExact(v)] leaves the pool empty, draws
    nothing from the random generator, has no failing path, and advances the
    counters: [_assignedPkts] by one and [_assignedBytes] by [v] (in 64-bit
    unsigned arithmetic, hence exactly as long as the counters do not
    overflow).  In every call, whatever the pool, it is the caller's [v] that
    is added to [_assignedBytes]. *)
Theorem GetValueExact_empty_pool {RG : RandomGenerator}
  (value : Z) (s : t) (g : rng) :
  _values s = [] ->
  GetValueExact value s g = (assign s value, g) /\
  _values (fst (GetValueExact value s g)) = [] /\
  _assignedPkts (fst (GetValueExact value s g)) = wrap64 (_assignedPkts s + 1) /\
  _assignedBytes (fst (GetValueExact value s g)) = wrap64 (_assignedBytes s + value) /\
  (0 <= _assignedPkts s -> _assignedPkts s + 1 < 2 ^ 64 ->
   _assignedPkts (fst (GetValueExact value s g)) = _assignedPkts s + 1) /\
  (0 <= _assignedBytes s -> 0 <= value -> _assignedBytes s + value < 2 ^ 64 ->
   _assignedBytes (fst (GetValueExact value s g)) = _assignedBytes s + value) /\
  (forall (s0 : t) (g0 : rng),
     _assignedBytes (fst (GetValueExact value s0 g0))
     = wrap64 (_assignedBytes s0 + value)).
Proof.
  intros Hempty.
  assert (Heq : GetValueExact value s g = (assign s value, g)).
  { unfold GetValueExact. rewrite Hempty. reflexivity. }
  rewrite Heq. cbn [fst assign _values _assignedPkts _assignedBytes].
  repeat split; try assumption; try reflexivity.
  - intros. unfold wrap64. apply Z.mod_small. lia.
  - intros. unfold wrap64. apply Z.mod_small. lia.
  - intros s0 g0. apply GetValueExact_assignedBytes.
Qed.

Lemma GetValueExact_empty_pool_witness :
  @GetValueExact Stub.Scripted 36 (make Stub.one_interval 3 200) ([], [5])
  = (mk Stub.one_interval 3 200 [] 1 36, ([], [5])).
Proof.
  exact (proj1 (@GetValueExact_empty_pool Stub.Scripted 36
                  (make Stub.one_interval 3 200) ([], [5]) eq_refl)).
Defined.

(** ** The biasing step *)

Lemma BiasIntervals_below S tmin tmax avg intervals :
  S < tmin ->
  Forall2 (biased_from (fun inter => interAvg inter < avg))
          intervals (BiasIntervals S tmin tmax avg intervals).
Proof.
  intros HS. unfold BiasIntervals.
  replace (S <? tmin) with true by (symmetry; apply Z.ltb_lt; exact HS).
  induction intervals as [|inter intervals IH]; cbn [map]; constructor; try exact IH.
  unfold biased_from.
  destruct (interAvg inter <? avg) eqn:Havg;
    [apply Z.ltb_lt in Havg | apply Z.ltb_ge in Havg]; cbn;
    repeat split; try reflexivity; intros; lia.
Qed.

Lemma BiasIntervals_above S tmin tmax avg intervals :
  tmin <= S -> S > tmax ->
  Forall2 (biased_from (fun inter => interAvg inter > avg))
          intervals (BiasIntervals S tmin tmax avg intervals).
Proof.
  intros Hband HS. unfold BiasIntervals.
  replace (S <? tmin) with false by (symmetry; apply Z.ltb_ge; lia).
  replace (S >? tmax) with true by (symmetry; rewrite Z.gtb_ltb; apply Z.ltb_lt; lia).
  induction intervals as [|inter intervals IH]; cbn [map]; constructor; try exact IH.
  unfold biased_from.
  destruct (interAvg inter >? avg) eqn:Havg; rewrite Z.gtb_ltb in Havg;
    [apply Z.ltb_lt in Havg | apply Z.ltb_ge in Havg]; cbn;
    repeat split; try reflexivity; intros; lia.
Qed.

(** An attempt of the refinement loop that is entered sweeps the vector with
    the intervals biased by [BiasIntervals] at the current sum and average. *)
Lemma attempts_enter {RG : RandomGenerator} n intervals N B tmin tmax st g :
  valuesSum st < tmin \/ valuesSum st > tmax ->
  attempts (S n) intervals N B tmin tmax st g
  = attempt_with (BiasIntervals (valuesSum st) tmin tmax (valuesSum st / N) intervals)
                 n intervals N B tmin tmax st g.
Proof.
  intros Hout. cbn [attempts]. unfold attempt_with.
  replace ((valuesSum st <? tmin) || (valuesSum st >? tmax)) with true.
  - reflexivity.
  - symmetry. apply orb_true_iff. rewrite Z.ltb_lt, Z.gtb_ltb, Z.ltb_lt. lia.
Qed.

(** Inside the band the loop stops: no attempt is made and nothing is drawn. *)
Lemma attempts_in_band {RG : RandomGenerator} n intervals N B tmin tmax st g :
  tmin <= valuesSum st <= tmax ->
  attempts n intervals N B tmin tmax st g = (st, g).
Proof.
  intros Hin. destruct n as [|n]; [reflexivity|]. cbn [attempts].
  replace ((valuesSum st <? tmin) || (valuesSum st >? tmax)) with false.
  - reflexivity.
  - symmetry. apply orb_false_iff. rewrite Z.ltb_ge, Z.gtb_ltb, Z.ltb_ge. lia.
Qed.

(** For bounds of the [uint64_t] range the midpoint the code computes is
    [from / 2 + to / 2], both quotients rounded down. *)
Lemma interAvg_halves (inter : IntervalInfo) :
  0 <= _from inter < 2 ^ 64 -> 0 <= _to inter < 2 ^ 64 ->
  interAvg inter = _from inter / 2 + _to inter / 2.
Proof.
  intros Hf Ht. unfold interAvg, wrap64. apply Z.mod_small.
  pose proof (Z.div_pos (_from inter) 2 ltac:(lia) ltac:(lia)).
  pose proof (Z.div_pos (_to inter) 2 ltac:(lia) ltac:(lia)).
  assert (_from inter / 2 < 2 ^ 63) by (apply Z.div_lt_upper_bound; lia).
  assert (_to inter / 2 < 2 ^ 63) by (apply Z.div_lt_upper_bound; lia).
  lia.
Qed.

(** The two branches give different intervals on the same input. *)
Lemma BiasIntervals_branches_differ :
  map (fun inter => Prim2SF (_probability inter))
      (BiasIntervals 100 200 300 150 Stub.three_intervals)
  = [S754_zero false; Prim2SF 0.25; Prim2SF 0.25] /\
  map (fun inter => Prim2SF (_probability inter))
      (BiasIntervals 400 200 300 150 Stub.three_intervals)
  = [Prim2SF 0.5; Prim2SF 0.25; S754_zero false].
Proof. split; vm_compute; reflexivity. Qed.

(** The older [ValueGenerator] clears the same intervals in both branches. *)
Lemma ValueGenerator_branches_identical S S' tmin avg intervals :
  ValueGenerator.BiasIntervals S tmin avg intervals
  = ValueGenerator.BiasIntervals S' tmin avg intervals.
Proof.
  unfold ValueGenerator.BiasIntervals.
  destruct (S <? tmin), (S' <? tmin); reflexivity.
Qed.

(** C5, as the spec states it, fails: the code compares the rounded
    midpoint [from / 2 + to / 2] with the rounded average [S / N].  In
    [Generate] for three packets and 1000 bytes, after a fill that drew 57, 58
    and 58, the sum 173 is below [targetMin] = 950 and the interval [50, 65]
    has its midpoint 57.5 below the average 57.67; yet 57 < 57 fails, the
    attempt clears no interval, and its first draw, 60, comes from [50, 65].
    The attempt is not the one made with [50, 65] cleared. *)
Lemma attempt_keeps_interval_below_exact_average :
  @fill Stub.Scripted Stub.two_intervals (SumProbabilities Stub.two_intervals)
        [] (resize 3 []) 0 ([0.25; 0.25; 0.25]%float, [7; 8; 8])
  = (([57; 58; 58], 173), ([], [])) /\
  targetMin 1000 = 950 /\ targetMax 1000 = 1050 /\
  AsSpecified.midpoint_below_avg (mkInterval 50 65 0.5) 173 3 = true /\
  AsSpecified.BiasIntervals 173 (targetMin 1000) (targetMax 1000) 3
    Stub.two_intervals
  = [mkInterval 50 65 0; mkInterval 700 2000 0.5] /\
  BiasIntervals 173 (targetMin 1000) (targetMax 1000) (173 / 3) Stub.two_intervals
  = Stub.two_intervals /\
  values (fst (@attempts Stub.Scripted 1 Stub.two_intervals 3 1000
                 (targetMin 1000) (targetMax 1000) Stub.after_fill
                 ([0.25; 0.75]%float, [10; 200])))
  = [60; 900; 58] /\
  ~ (@attempts Stub.Scripted 1 Stub.two_intervals 3 1000
       (targetMin 1000) (targetMax 1000) Stub.after_fill
       ([0.25; 0.75]%float, [10; 200])
     = @attempt_with Stub.Scripted
         (AsSpecified.BiasIntervals 173 (targetMin 1000) (targetMax 1000) 3
            Stub.two_intervals)
         0 Stub.two_intervals 3 1000 (targetMin 1000) (targetMax 1000)
         Stub.after_fill ([0.25; 0.75]%float, [10; 200])).
Proof.
  split; [vm_compute; reflexivity|]. split; [vm_compute; reflexivity|].
  split; [vm_compute; reflexivity|]. split; [reflexivity|].
  split; [vm_compute; reflexivity|]. split; [vm_compute; reflexivity|].
  split; [vm_compute; reflexivity|].
  intros H. vm_compute in H. discriminate H.
Qed.

(** C5 (amended): every attempt of the refinement loop of [Generate] is
    entered with the sum [S] outside the band and is made with the intervals
    biased for that attempt only.  When [S < targetMin], exactly the
    intervals whose rounded midpoint [from / 2 + to / 2] is below the rounded
    average [S / N] get probability zero; otherwise, [S] being above
    [targetMax] and not below [targetMin], exactly those whose rounded
    midpoint is above the rounded average do.  The other intervals keep their
    probability, all bounds are unchanged, the sweep of the attempt draws
    from the biased list, and the following attempts start again from the
    original list.  The two branches are mirrored. *)
Theorem attempts_bias_mirrored {RG : RandomGenerator} (n : nat)
  (intervals : list IntervalInfo) (N B tmin tmax : Z) (st : refine) (g : rng) :
  valuesSum st < tmin \/ valuesSum st > tmax ->
  exists biased,
    attempts (S n) intervals N B tmin tmax st g
    = attempt_with biased n intervals N B tmin tmax st g /\
    (valuesSum st < tmin ->
     Forall2 (biased_from (fun inter => interAvg inter < valuesSum st / N))
             intervals biased) /\
    (tmin <= valuesSum st ->
     Forall2 (biased_from (fun inter => interAvg inter > valuesSum st / N))
             intervals biased) /\
    Forall (fun inter =>
              0 <= _from inter < 2 ^ 64 -> 0 <= _to inter < 2 ^ 64 ->
              interAvg inter = _from inter / 2 + _to inter / 2) intervals.
Proof.
  intros Hout.
  exists (BiasIntervals (valuesSum st) tmin tmax (valuesSum st / N) intervals).
  split; [apply attempts_enter; exact Hout|].
  split; [apply BiasIntervals_below|]. split.
  - intros Hmin. apply BiasIntervals_above; lia.
  - apply Forall_forall. intros inter _. apply interAvg_halves.
Qed.

Lemma attempts_bias_mirrored_witness :
  exists biased,
    @attempts Stub.Scripted 1 Stub.two_intervals 2 1000 900 1100
      (mkRefine [800; 900] 1700 700 [800; 900]) ([0.25]%float, [10])
    = @attempt_with Stub.Scripted biased 0 Stub.two_intervals 2 1000 900 1100
        (mkRefine [800; 900] 1700 700 [800; 900]) ([0.25]%float, [10]) /\
    Forall2 (biased_from (fun inter => interAvg inter > 1700 / 2))
            Stub.two_intervals biased.
Proof.
  destruct (@attempts_bias_mirrored Stub.Scripted 0 Stub.two_intervals 2 1000 900 1100
              (mkRefine [800; 900] 1700 700 [800; 900]) ([0.25]%float, [10]))
    as (biased & Hrun & _ & Habove & _).
  - right. cbn. lia.
  - exists biased. split; [exact Hrun|]. apply Habove. cbn. lia.
Defined.

(** ** The uniform fallback *)

(** C8: a run of [Generate] with [N >= 2] and [B >= 1] whose best observed
    difference, divided by [B] as doubles, exceeds 0.2 leaves the value 1 in
    every one of the [N] positions of the pool; the quotient
    [desiredBytes / desiredBytes] computed there has a nonzero divisor. *)
Theorem Generate_fallback_uniform {RG : RandomGenerator} {SH : DefaultShuffle}
  (N B : Z) (s : t) (g : rng) :
  2 <= N -> 1 <= B ->
  fallback_to_uniform (bestDiff (fst (GenerateBest N B s g))) B = true ->
  B <> 0 /\ B / B = 1 /\
  _values (fst (Generate N B s g)) = repeat 1 (Z.to_nat N) /\
  Forall (fun v => v = 1) (_values (fst (Generate N B s g))).
Proof.
  intros HN HB Hfall.
  assert (Hdiv : B / B = 1) by (apply Z.div_same; lia).
  assert (Hvalues : _values (fst (Generate N B s g)) = repeat 1 (Z.to_nat N)).
  { unfold Generate.
    replace (N =? 0) with false by (symmetry; apply Z.eqb_neq; lia).
    replace (B =? 0) with false by (symmetry; apply Z.eqb_neq; lia).
    replace (N =? 1) with false by (symmetry; apply Z.eqb_neq; lia).
    cbn [orb]. unfold bind.
    pose proof (GenerateBest_length N B s g) as Hlen.
    destruct (GenerateBest N B s g) as [st g']. cbn [fst] in Hfall, Hlen.
    rewrite Hfall. cbn [fst set_values _values].
    rewrite map_const_repeat, Hlen, Hdiv. reflexivity. }
  split; [lia|]. split; [exact Hdiv|]. split; [exact Hvalues|].
  rewrite Hvalues. apply Forall_forall. intros v Hv.
  apply repeat_spec in Hv. exact Hv.
Qed.

Lemma Generate_fallback_uniform_witness :
  _values (fst (@Generate Stub.Scripted Stub.Reversing 2 2
                          (make Stub.one_interval 2 2) ([], [])))
  = repeat 1 (Z.to_nat 2).
Proof.
  refine (proj1 (proj2 (proj2
            (@Generate_fallback_uniform Stub.Scripted Stub.Reversing 2 2
               (make Stub.one_interval 2 2) ([], []) _ _ _)))).
  - lia.
  - lia.
  - vm_compute. reflexivity.
Defined.

End PacketSizeGeneratorSlowFacts.

(** * Doubles *)

Lemma iter_pos_preserves {A : Type} (P : A -> Prop) (f : A -> A) :
  (forall x, P x -> P (f x)) ->
  forall n x, P x -> P (iter_pos f n x).
Proof.
  intros Hf. induction n as [n IH|n IH|]; intros x Hx; cbn [iter_pos]; auto.
Qed.

Lemma shr_1_nonneg mrs : 0 <= shr_m mrs -> 0 <= shr_m (shr_1 mrs).
Proof.
  destruct mrs as [m r s]. cbn [shr_m].
  destruct m as [|[p|p|]|p]; cbn; lia.
Qed.

Lemma shr_nonneg mrs e n : 0 <= shr_m mrs -> 0 <= shr_m (fst (shr mrs e n)).
Proof.
  intros H. destruct n as [|p|p]; cbn [shr fst]; try exact H.
  apply (iter_pos_preserves (fun x => 0 <= shr_m x)); [exact shr_1_nonneg | exact H].
Qed.

Lemma shr_record_of_loc_m m l : shr_m (shr_record_of_loc m l) = m.
Proof. destruct l as [|[]]; reflexivity. Qed.

Lemma shr_fexp_nonneg p e m x l :
  0 <= m -> 0 <= shr_m (fst (shr_fexp p e m x l)).
Proof.
  intros H. unfold shr_fexp. apply shr_nonneg. now rewrite shr_record_of_loc_m.
Qed.

Lemma round_nearest_even_nonneg m l : 0 <= m -> 0 <= round_nearest_even m l.
Proof.
  intros H. destruct l as [|[]]; cbn; try destruct (Z.even m); lia.
Qed.

Lemma binary_round_aux_signed sx mx ex lx :
  0 <= mx -> signed sx (binary_round_aux prec emax sx mx ex lx).
Proof.
  intros Hmx. unfold binary_round_aux.
  pose proof (shr_fexp_nonneg prec emax mx ex lx Hmx) as H1.
  destruct (shr_fexp prec emax mx ex lx) as [mrs' e']. cbn [fst] in H1.
  pose proof (shr_fexp_nonneg prec emax
                (round_nearest_even (shr_m mrs') (loc_of_shr_record mrs')) e' loc_Exact
                (round_nearest_even_nonneg _ _ H1)) as H2.
  destruct (shr_fexp prec emax _ e' loc_Exact) as [mrs'' e'']. cbn [fst] in H2.
  destruct (shr_m mrs'') as [|m|m]; cbn.
  - reflexivity.
  - destruct (_ <=? _); cbn; reflexivity.
  - lia.
Qed.

Lemma binary_round_signed sx mx ex :
  signed sx (binary_round prec emax sx mx ex).
Proof.
  unfold binary_round. destruct (shl_align _ _ _) as [mz ez].
  apply binary_round_aux_signed. lia.
Qed.

Lemma leb_zero (f : float) :
  (0 <=? f)%float = true <-> nonneg (Prim2SF f).
Proof.
  rewrite leb_spec. change (Prim2SF 0) with (S754_zero false).
  destruct (Prim2SF f) as [s|[]| |[] m e]; cbn; intuition congruence.
Qed.

Lemma signed_false_nonneg x : signed false x -> nonneg x.
Proof. destruct x as [s|s| |s m e]; cbn; intros H; subst; auto. Qed.

Lemma add_nonneg (a b : float) :
  (0 <=? a)%float = true -> (0 <=? b)%float = true -> (0 <=? a + b)%float = true.
Proof.
  rewrite !leb_zero, add_spec. unfold SF64add.
  destruct (Prim2SF a) as [sa|[]| |[] ma ea]; cbn [nonneg]; try tauto;
    destruct (Prim2SF b) as [sb|[]| |[] mb eb]; cbn [nonneg]; try tauto; intros _ _.
  - destruct sa, sb; exact I.
  - cbn [SFadd cond_Zopp]. apply signed_false_nonneg.
    cbn [Z.add binary_normalize]. apply binary_round_signed.
Qed.

Lemma SFcompare_refl (x : spec_float) :
  x <> S754_nan -> SFcompare x x = Some Eq.
Proof.
  destruct x as [s|s| |s m e]; intros Hx; cbn.
  - reflexivity.
  - destruct s; reflexivity.
  - congruence.
  - rewrite Z.compare_refl, Pos.compare_cont_refl. destruct s; reflexivity.
Qed.

Lemma leb_refl_of_leb (lo hi : float) :
  (lo <=? hi)%float = true -> (lo <=? lo)%float = true.
Proof.
  rewrite !leb_spec. unfold SFleb. intros H.
  rewrite SFcompare_refl; [reflexivity|].
  intros Hnan. rewrite Hnan in H. cbn in H. discriminate H.
Qed.

Lemma digits2_pos_bounds (p : positive) :
  2 ^ (Zpos (digits2_pos p) - 1) <= Zpos p < 2 ^ Zpos (digits2_pos p).
Proof.
  induction p as [p IH|p IH|]; cbn [digits2_pos].
  - rewrite Pos2Z.inj_succ.
    replace (Z.succ (Zpos (digits2_pos p)) - 1) with (Zpos (digits2_pos p) - 1 + 1) by lia.
    rewrite Z.pow_succ_r by lia. rewrite Z.pow_add_r by lia. lia.
  - rewrite Pos2Z.inj_succ.
    replace (Z.succ (Zpos (digits2_pos p)) - 1) with (Zpos (digits2_pos p) - 1 + 1) by lia.
    rewrite Z.pow_succ_r by lia. rewrite Z.pow_add_r by lia. lia.
  - cbn. lia.
Qed.

Lemma digits2_pos_unique (p : positive) (k : Z) :
  2 ^ (k - 1) <= Zpos p < 2 ^ k -> Zpos (digits2_pos p) = k.
Proof.
  intros [Hlo Hhi]. pose proof (digits2_pos_bounds p) as [Dlo Dhi].
  assert (Hk : 0 < k).
  { destruct (Z.lt_trichotomy k 0) as [Hn | [-> | Hp]]; [|cbn in Hhi; lia|exact Hp].
    rewrite Z.pow_neg_r in Hhi by assumption. lia. }
  destruct (Z.lt_trichotomy (Zpos (digits2_pos p)) k) as [Hlt | [Heq | Hgt]]; [|exact Heq|].
  - assert (2 ^ Zpos (digits2_pos p) <= 2 ^ (k - 1)) by (apply Z.pow_le_mono_r; lia). lia.
  - assert (2 ^ k <= 2 ^ (Zpos (digits2_pos p) - 1)) by (apply Z.pow_le_mono_r; lia). lia.
Qed.

Lemma shr_1_m mrs : 0 <= shr_m mrs -> shr_m (shr_1 mrs) = shr_m mrs / 2.
Proof.
  destruct mrs as [m r s]. cbn [shr_m]. intros Hm.
  destruct m as [|[p|p|]|p]; cbn [shr_1 shr_m]; try lia.
  - reflexivity.
  - rewrite Pos2Z.inj_xI. apply Z.div_unique with 1; lia.
  - rewrite Pos2Z.inj_xO. apply Z.div_unique with 0; lia.
  - reflexivity.
Qed.

Lemma iter_shr_1_m n : forall mrs,
  0 <= shr_m mrs ->
  shr_m (iter_pos shr_1 n mrs) = shr_m mrs / 2 ^ Zpos n.
Proof.
  induction n as [n IH|n IH|]; intros mrs Hm; cbn [iter_pos].
  - pose proof (shr_1_nonneg mrs Hm) as H1.
    pose proof (iter_pos_preserves (fun x => 0 <= shr_m x) shr_1 shr_1_nonneg n _ H1) as H2.
    rewrite IH, IH, shr_1_m by assumption.
    rewrite !Z.div_div by lia. f_equal.
    replace (Zpos n~1) with (1 + Zpos n + Zpos n) by lia.
    rewrite !Z.pow_add_r by lia. change (2 ^ 1) with 2. ring.
  - pose proof (iter_pos_preserves (fun x => 0 <= shr_m x) shr_1 shr_1_nonneg n _ Hm) as H2.
    rewrite IH, IH by assumption.
    rewrite !Z.div_div by lia. f_equal.
    replace (Zpos n~0) with (Zpos n + Zpos n) by lia.
    rewrite !Z.pow_add_r by lia. ring.
  - rewrite shr_1_m by assumption. reflexivity.
Qed.

Lemma shr_m_spec mrs e n :
  0 <= shr_m mrs ->
  shr_m (fst (shr mrs e n)) = shr_m mrs / 2 ^ Z.max 0 n /\
  snd (shr mrs e n) = e + Z.max 0 n.
Proof.
  intros Hm. destruct n as [|p|p]; cbn [shr fst snd].
  - cbn. rewrite Z.div_1_r. lia.
  - rewrite iter_shr_1_m by assumption. rewrite Z.max_r by lia. lia.
  - cbn. rewrite Z.div_1_r. lia.
Qed.

(** Shifting a mantissa of at least 53 digits to exactly 53 digits. *)
Lemma shr_fexp_normal (p : positive) (e : Z) (l : location) :
  53 <= Zpos (digits2_pos p) ->
  -1074 <= Zpos (digits2_pos p) + e - 53 ->
  2 ^ 52 <= shr_m (fst (shr_fexp prec emax (Zpos p) e l)) < 2 ^ 53 /\
  snd (shr_fexp prec emax (Zpos p) e l) = Zpos (digits2_pos p) + e - 53.
Proof.
  intros Hd He. unfold shr_fexp. cbn [Zdigits2].
  set (d := Zpos (digits2_pos p)) in *.
  assert (Hfexp : fexp prec emax (d + e) - e = d - 53).
  { unfold fexp, emin, prec, emax. lia. }
  rewrite Hfexp.
  destruct (shr_m_spec (shr_record_of_loc (Zpos p) l) e (d - 53)) as [Hm Hs].
  { rewrite shr_record_of_loc_m. lia. }
  rewrite Hm, Hs, shr_record_of_loc_m, Z.max_r by lia.
  split; [|lia].
  pose proof (digits2_pos_bounds p) as [Dlo Dhi]. fold d in Dlo, Dhi.
  assert (Hpow : 2 ^ d = 2 ^ (d - 53) * 2 ^ 53).
  { rewrite <- Z.pow_add_r by lia. f_equal. lia. }
  assert (Hpow' : 2 ^ (d - 1) = 2 ^ (d - 53) * 2 ^ 52).
  { rewrite <- Z.pow_add_r by lia. f_equal. lia. }
  assert (Hpos : 0 < 2 ^ (d - 53)) by (apply Z.pow_pos_nonneg; lia).
  split.
  - apply Z.div_le_lower_bound; lia.
  - apply Z.div_lt_upper_bound; lia.
Qed.

Lemma round_nearest_even_bounds m l :
  m <= round_nearest_even m l <= m + 1.
Proof. destruct l as [|[]]; cbn; try destruct (Z.even m); lia. Qed.

Lemma binary_round_aux_normal (sx : bool) (p : positive) (e : Z) (l : location) :
  53 <= Zpos (digits2_pos p) ->
  -1074 <= Zpos (digits2_pos p) + e - 53 ->
  Zpos (digits2_pos p) + e <= 1023 ->
  normal sx (binary_round_aux prec emax sx (Zpos p) e l).
Proof.
  intros Hd Hlo Hhi. unfold binary_round_aux.
  destruct (shr_fexp_normal p e l Hd Hlo) as [Hm1 He1].
  destruct (shr_fexp prec emax (Zpos p) e l) as [mrs' e']. cbn [fst snd] in Hm1, He1.
  pose proof (round_nearest_even_bounds (shr_m mrs') (loc_of_shr_record mrs')) as Hr.
  destruct (round_nearest_even (shr_m mrs') (loc_of_shr_record mrs')) as [|q|q];
    try lia.
  pose proof (digits2_pos_bounds q) as [Dlo Dhi].
  assert (Hq53 : 53 <= Zpos (digits2_pos q)).
  { destruct (Z.lt_ge_cases (Zpos (digits2_pos q)) 53) as [Hlt|]; [|assumption].
    assert (2 ^ Zpos (digits2_pos q) <= 2 ^ 52) by (apply Z.pow_le_mono_r; lia). lia. }
  assert (Hq54 : Zpos (digits2_pos q) <= 54).
  { destruct (Z.lt_ge_cases 54 (Zpos (digits2_pos q))) as [Hlt|]; [|lia].
    assert (2 ^ 54 <= 2 ^ (Zpos (digits2_pos q) - 1)) by (apply Z.pow_le_mono_r; lia).
    lia. }
  destruct (shr_fexp_normal q e' loc_Exact Hq53 ltac:(lia)) as [Hm2 He2].
  destruct (shr_fexp prec emax (Zpos q) e' loc_Exact) as [mrs'' e''].
  cbn [fst snd] in Hm2, He2.
  destruct (shr_m mrs'') as [|m|m]; try lia.
  replace (e'' <=? emax - prec) with true
    by (symmetry; apply Z.leb_le; unfold emax, prec; lia).
  exists m, e''. split; [reflexivity|].
  cbn [valid_binary]. unfold bounded, canonical_mantissa.
  rewrite (digits2_pos_unique m 53) by (cbn; lia).
  apply andb_true_iff. split.
  - apply Z.eqb_eq. unfold fexp, emin, prec, emax. lia.
  - apply Z.leb_le. unfold emax, prec. lia.
Qed.

Lemma digits2_pos_iter_xO (p : positive) (k : positive) :
  Zpos (digits2_pos (Pos.iter xO p k)) = Zpos (digits2_pos p) + Zpos k.
Proof.
  revert p. induction k as [|k IH] using Pos.peano_ind; intros p.
  - cbn [Pos.iter digits2_pos]. lia.
  - rewrite Pos.iter_succ. cbn [digits2_pos]. rewrite Pos2Z.inj_succ, IH. lia.
Qed.

Lemma binary_round_normal (sx : bool) (p : positive) (e : Z) :
  -1074 <= Zpos (digits2_pos p) + e - 53 ->
  Zpos (digits2_pos p) + e <= 1023 ->
  normal sx (binary_round prec emax sx p e).
Proof.
  intros Hlo Hhi. unfold binary_round, shl_align.
  assert (Hfexp : fexp prec emax (Zpos (digits2_pos p) + e)
                  = Zpos (digits2_pos p) + e - 53).
  { unfold fexp, emin, prec, emax. lia. }
  rewrite Hfexp.
  destruct (Zpos (digits2_pos p) + e - 53 - e) as [|k|k] eqn:Hk.
  - apply binary_round_aux_normal; lia.
  - apply binary_round_aux_normal; lia.
  - apply binary_round_aux_normal; rewrite digits2_pos_iter_xO; lia.
Qed.

(** Integers of the [uint64_t] range convert to zero or to a positive finite
    double. *)
Lemma double_of_int_pos (z : Z) :
  1 <= z < 2 ^ 64 -> normal false (Prim2SF (double_of_int z)).
Proof.
  intros Hz. unfold double_of_int.
  destruct z as [|p|p]; try lia. cbn [binary_normalize].
  pose proof (digits2_pos_bounds p) as [Dlo Dhi].
  assert (Hd : Zpos (digits2_pos p) <= 64).
  { destruct (Z.lt_ge_cases 64 (Zpos (digits2_pos p))) as [Hlt|]; [|lia].
    assert (2 ^ 64 <= 2 ^ (Zpos (digits2_pos p) - 1)) by (apply Z.pow_le_mono_r; lia).
    lia. }
  destruct (binary_round_normal false p 0 ltac:(lia) ltac:(lia)) as (m & e & Heq & Hv).
  rewrite Prim2SF_SF2Prim by exact Hv.
  exists m, e. split; assumption.
Qed.

Lemma double_of_int_nonneg (z : Z) :
  0 <= z < 2 ^ 64 -> signed false (Prim2SF (double_of_int z)).
Proof.
  intros Hz. destruct (Z.eq_dec z 0) as [-> | Hnz].
  - reflexivity.
  - destruct (double_of_int_pos z ltac:(lia)) as (m & e & -> & _). reflexivity.
Qed.

Lemma signed_not_nan s x : signed s x -> not_nan x.
Proof. destruct x; cbn; auto. Qed.

Lemma normal_not_nan s x : normal s x -> not_nan x.
Proof. intros (m & e & -> & _). exact I. Qed.

Lemma div_not_nan (a b : float) :
  signed false (Prim2SF a) -> normal false (Prim2SF b) ->
  not_nan (Prim2SF (a / b)).
Proof.
  intros Ha (mb & eb & Hb & _). rewrite div_spec, Hb. unfold SF64div.
  destruct (Prim2SF a) as [sa|sa| |sa ma ea]; cbn [signed] in Ha; try exact I;
    try contradiction.
  cbn [SFdiv]. unfold SFdiv_core_binary.
  set (m' := match _ - _ with Z0 => Zpos ma | Zpos _ => Z.shiftl (Zpos ma) _ | Zneg _ => 0 end).
  assert (Hm' : 0 <= m').
  { subst m'. destruct (_ - _); [lia | apply Z.shiftl_nonneg; lia | lia]. }
  pose proof (Z.div_pos m' (Zpos mb) Hm' ltac:(lia)) as Hq.
  unfold Z.div in Hq. destruct (Z.div_eucl m' (Zpos mb)) as [q r].
  eapply signed_not_nan. apply binary_round_aux_signed. exact Hq.
Qed.

Lemma sub_not_nan (a b : float) :
  (exists s m e, Prim2SF a = S754_finite s m e) -> not_nan (Prim2SF b) ->
  not_nan (Prim2SF (a - b)).
Proof.
  intros (sa & ma & ea & Ha) Hb. rewrite sub_spec, Ha. unfold SF64sub.
  destruct (Prim2SF b) as [sb|sb| |sb mb eb]; cbn [not_nan] in Hb; try exact I;
    try contradiction.
  cbn [SFsub].
  destruct (_ - _)%Z as [|p|p]; cbn [binary_normalize].
  - exact I.
  - eapply signed_not_nan. apply binary_round_signed.
  - eapply signed_not_nan. apply binary_round_signed.
Qed.

Lemma SFcompare_antisym (x y : spec_float) :
  SFcompare y x = option_map CompOpp (SFcompare x y).
Proof.
  destruct x as [sx|sx| |sx mx ex], y as [sy|sy| |sy my ey]; cbn;
    try reflexivity; try (destruct sx; reflexivity); try (destruct sy; reflexivity);
    try (destruct sx, sy; reflexivity).
  assert (Hm : Pos.compare_cont Eq mx my = CompOpp (Pos.compare_cont Eq my mx))
    by (rewrite (Pos.compare_cont_antisym my mx Eq); reflexivity).
  rewrite Hm, (Z.compare_antisym ey ex).
  destruct sx, sy, (ey ?= ex)%Z; cbn; try reflexivity;
    now rewrite CompOpp_involutive.
Qed.

Lemma SFcompare_not_nan (x y : spec_float) :
  not_nan x -> not_nan y -> exists c, SFcompare x y = Some c.
Proof.
  destruct x as [sx|sx| |sx mx ex], y as [sy|sy| |sy my ey]; cbn;
    intros Hx Hy; try contradiction; eexists; reflexivity.
Qed.

(** On doubles that are not NaN, [y < x] is the negation of [x <= y]. *)
Lemma ltb_negb_leb (x y : float) :
  not_nan (Prim2SF x) -> not_nan (Prim2SF y) ->
  (y <? x)%float = negb (x <=? y)%float.
Proof.
  intros Hx Hy. rewrite ltb_spec, leb_spec. unfold SFltb, SFleb.
  rewrite (SFcompare_antisym (Prim2SF x) (Prim2SF y)).
  destruct (SFcompare_not_nan _ _ Hx Hy) as [c ->]. destruct c; reflexivity.
Qed.

(** ** The stand-ins meet their contracts *)

Lemma Scripted_spec : RandomGeneratorSpec Stub.Scripted.
Proof.
  split.
  - intros lo hi [ds us] Hle. cbn. unfold Stub.scripted_double. cbn [fst snd].
    destruct ds as [|d ds]; cbn [fst].
    + split; [eapply leb_refl_of_leb|]; eassumption.
    + destruct (lo <=? d)%float eqn:H1; cbn [andb].
      * destruct (d <=? hi)%float eqn:H2.
        -- split; assumption.
        -- split; [eapply leb_refl_of_leb|]; eassumption.
      * split; [eapply leb_refl_of_leb|]; eassumption.
  - intros lo hi [ds us] Hle. cbn. unfold Stub.scripted_uint. cbn [fst snd].
    destruct us as [|u us]; cbn [fst]; [lia|].
    pose proof (Z.mod_pos_bound u (hi - lo + 1)). lia.
Qed.

Lemma Reversing_spec : DefaultShuffleSpec Stub.Reversing.
Proof. split. intros l. cbn. symmetry. apply Permutation_rev. Qed.

Lemma Replay_spec : LocalEngineSpec Stub.Replay.
Proof.
  split. intros a b gen Hab. cbn. unfold Stub.replay_int.
  destruct gen as [|r gen]; cbn [fst]; [lia|].
  pose proof (Z.mod_pos_bound r (b - a + 1)). lia.
Qed.

(** * Generated values lie in the intervals *)

Module ValuesInIntervals.
Import PacketSizeGeneratorSlow.

Lemma weights_cleared_refl intervals : weights_cleared intervals intervals.
Proof. induction intervals; constructor; auto. Qed.

Lemma weights_cleared_map (f : IntervalInfo -> bool) intervals :
  weights_cleared intervals
    (map (fun inter => if f inter then zero_probability inter else inter) intervals).
Proof.
  induction intervals as [|inter intervals IH]; cbn [map]; constructor; auto.
  destruct (f inter); auto.
Qed.

Lemma BiasIntervals_cleared S tmin tmax avg intervals :
  weights_cleared intervals (BiasIntervals S tmin tmax avg intervals).
Proof.
  unfold BiasIntervals.
  destruct (S <? tmin); [apply weights_cleared_map|].
  destruct (S >? tmax); [apply weights_cleared_map | apply weights_cleared_refl].
Qed.

Lemma weights_cleared_well_formed intervals biased :
  weights_cleared intervals biased -> well_formed intervals -> well_formed biased.
Proof.
  unfold well_formed.
  induction 1 as [|inter inter' intervals biased Hi _ IH]; intros Hwf.
  - constructor.
  - inversion Hwf as [|? ? [Hb Hp] Hwf']; subst. constructor; [|auto].
    destruct Hi as [-> | ->]; [auto|]. cbn. split; [exact Hb | reflexivity].
Qed.

Lemma weights_cleared_in intervals biased v :
  weights_cleared intervals biased ->
  in_intervals biased v -> in_intervals intervals v.
Proof.
  induction 1 as [|inter inter' intervals biased Hi _ IH];
    intros (i & Hin & Hv).
  - destruct Hin.
  - destruct Hin as [<- | Hin].
    + exists inter. split; [left; reflexivity|].
      destruct Hi as [-> | ->]; exact Hv.
    + destruct IH as (j & Hj & Hvj); [exists i; auto|].
      exists j. split; [right; exact Hj | exact Hvj].
Qed.

Lemma weights_cleared_nonempty intervals biased :
  weights_cleared intervals biased -> intervals <> [] -> biased <> [].
Proof. destruct 1; congruence. Qed.

Lemma sum_from_nonneg intervals : forall acc,
  well_formed intervals -> (0 <=? acc)%float = true ->
  (0 <=? fold_left (fun sum inter => sum + _probability inter) intervals acc)%float
  = true.
Proof.
  induction intervals as [|inter intervals IH]; intros acc Hwf Hacc; cbn [fold_left].
  - exact Hacc.
  - inversion Hwf as [|? ? [_ Hp] Hwf']; subst.
    apply IH; [exact Hwf'|]. apply add_nonneg; assumption.
Qed.

Lemma SumProbabilities_nonneg intervals :
  well_formed intervals -> (0 <=? SumProbabilities intervals)%float = true.
Proof. intros Hwf. apply sum_from_nonneg; [exact Hwf | reflexivity]. Qed.

Section WithGenerator.
Context {RG : RandomGenerator} {SH : DefaultShuffle}.
Context {RGS : RandomGeneratorSpec RG} {SHS : DefaultShuffleSpec SH}.

(** A draw that does not exceed the total weight selects some interval. *)
Lemma pick_interval_in genVal rest : forall inter acc g,
  well_formed (inter :: rest) ->
  (genVal <=? fold_left (fun sum i => sum + _probability i) (inter :: rest) acc)%float
  = true ->
  in_intervals (inter :: rest) (fst (pick_interval (inter :: rest) genVal acc g)).
Proof.
  induction rest as [|next rest IH]; intros inter acc g Hwf Hle;
    inversion Hwf as [|? ? [Hb _] Hwf']; subst.
  - cbn [fold_left] in Hle. cbn [pick_interval]. rewrite Hle.
    exists inter. split; [left; reflexivity | apply RandomUInt_range; exact Hb].
  - cbn [pick_interval].
    destruct (genVal <=? acc + _probability inter)%float.
    + exists inter. split; [left; reflexivity | apply RandomUInt_range; exact Hb].
    + destruct (IH next (acc + _probability inter)%float g Hwf' Hle)
        as (i & Hin & Hv).
      exists i. split; [right; exact Hin | exact Hv].
Qed.

Lemma GenerateRandomValue_in intervals g :
  intervals <> [] -> well_formed intervals ->
  in_intervals intervals
    (fst (GenerateRandomValue intervals (SumProbabilities intervals) g)).
Proof.
  intros Hne Hwf. unfold GenerateRandomValue, bind.
  pose proof (RandomDouble_range 0 (SumProbabilities intervals) g
                (SumProbabilities_nonneg intervals Hwf)) as [_ Hle].
  destruct (RandomDouble 0 (SumProbabilities intervals) g) as [genVal g'].
  cbn [fst] in Hle.
  destruct intervals as [|inter rest]; [congruence|].
  apply pick_interval_in; assumption.
Qed.

Lemma fill_in intervals todo : forall done sum g,
  intervals <> [] -> well_formed intervals ->
  Forall (in_intervals intervals) done ->
  Forall (in_intervals intervals)
         (fst (fst (fill intervals (SumProbabilities intervals) done todo sum g))).
Proof.
  induction todo as [|v todo IH]; intros done sum g Hne Hwf Hdone; cbn [fill].
  - exact Hdone.
  - unfold bind.
    pose proof (GenerateRandomValue_in intervals g Hne Hwf) as Hv.
    destruct (GenerateRandomValue intervals (SumProbabilities intervals) g)
      as [value g'].
    apply IH; try assumption.
    apply Forall_app. split; [exact Hdone | constructor; [exact Hv | constructor]].
Qed.

Lemma sweep_in intervals biased B tmin tmax todo :
  forall done sum best bestv g,
  weights_cleared intervals biased -> intervals <> [] -> well_formed intervals ->
  Forall (in_intervals intervals) done ->
  Forall (in_intervals intervals) todo ->
  Forall (in_intervals intervals) bestv ->
  all_in intervals
    (fst (sweep biased (SumProbabilities biased) B tmin tmax done todo sum best bestv g)).
Proof.
  intros done sum best bestv g Hc Hne Hwf. revert done sum best bestv g.
  induction todo as [|v todo IH]; intros done sum best bestv g Hdone Htodo Hbest;
    cbn [sweep].
  - split; assumption.
  - unfold bind.
    assert (Hv : in_intervals intervals
                   (fst (GenerateRandomValue biased (SumProbabilities biased) g))).
    { apply (weights_cleared_in intervals biased); [exact Hc|].
      apply GenerateRandomValue_in.
      - eapply weights_cleared_nonempty; eassumption.
      - eapply weights_cleared_well_formed; eassumption. }
    destruct (GenerateRandomValue biased (SumProbabilities biased) g)
      as [newValue g']. cbn [fst] in Hv.
    inversion Htodo as [|? ? _ Htodo']; subst.
    assert (Hnew : Forall (in_intervals intervals) (done ++ newValue :: todo)).
    { apply Forall_app. split; [exact Hdone | constructor; assumption]. }
    assert (Hdone' : Forall (in_intervals intervals) (done ++ [newValue])).
    { apply Forall_app. split; [exact Hdone | constructor; [exact Hv | constructor]]. }
    destruct (_ && _).
    + split; assumption.
    + destruct (_ <? best); apply IH; assumption.
Qed.

Lemma attempts_in n intervals N B tmin tmax : forall st g,
  intervals <> [] -> well_formed intervals ->
  all_in intervals st ->
  all_in intervals (fst (attempts n intervals N B tmin tmax st g)).
Proof.
  induction n as [|n IH]; intros st g Hne Hwf [Hvalues Hbest]; cbn [attempts].
  - split; assumption.
  - destruct (_ || _); [|split; assumption].
    unfold bind.
    pose proof (sweep_in intervals
                  (BiasIntervals (valuesSum st) tmin tmax (valuesSum st / N) intervals)
                  B tmin tmax (values st) [] (valuesSum st) (bestDiff st)
                  (bestValues st) g (BiasIntervals_cleared _ _ _ _ _) Hne Hwf
                  (Forall_nil _) Hvalues Hbest) as Hsweep.
    destruct (sweep _ _ _ _ _ _ _ _ _ _ g) as [st' g']. cbn [fst] in Hsweep.
    apply IH; try assumption.
    destruct (_ <? _); [|exact Hsweep].
    destruct Hsweep as [Hv' _]. split; exact Hv'.
Qed.

Lemma GenerateBest_in N B s g :
  _intervals s <> [] -> well_formed (_intervals s) ->
  all_in (_intervals s) (fst (GenerateBest N B s g)).
Proof.
  intros Hne Hwf. unfold GenerateBest, bind.
  pose proof (fill_in (_intervals s) (resize (Z.to_nat N) (_values s)) [] 0 g
                Hne Hwf (Forall_nil _)) as Hfill.
  destruct (fill _ _ _ _ _ g) as [[vs sum] g']. cbn [fst] in Hfill.
  apply attempts_in; try assumption. split; exact Hfill.
Qed.

End WithGenerator.

(** C3, as the spec states it, fails for [N = 1]: the single value is [B]
    itself, whatever the intervals are.  With the interval [50, 65] and
    [B = 1000] the output sum equals [B] and 1000 is in no interval. *)
Lemma Generate_single_value_outside_intervals :
  _values (fst (@Generate Stub.Scripted Stub.Reversing 1 1000
                          (make Stub.one_interval 1 1000) ([], [])))
  = [1000] /\
  PrimFloat.leb (finalDiffRatio (absdiff 1000 (fold_right Z.add 0 [1000])) 1000)
                DIFF_RATIO_FALLBACK_TO_UNIFORM
  = true /\
  ~ Forall (in_intervals Stub.one_interval)
           (_values (fst (@Generate Stub.Scripted Stub.Reversing 1 1000
                                    (make Stub.one_interval 1 1000) ([], [])))).
Proof.
  split; [reflexivity|]. split; [reflexivity|].
  intros H. apply Forall_inv in H. destruct H as (inter & Hin & Hv).
  destruct Hin as [<- | []]. cbn in Hv. lia.
Qed.

(** The uniform fallback is a second way out of the intervals: with the
    interval [50, 65], [N = 2] and [B = 2] the pool becomes [1; 1], whose sum
    is [B]. *)
Lemma Generate_fallback_outside_intervals :
  _values (fst (@Generate Stub.Scripted Stub.Reversing 2 2
                          (make Stub.one_interval 2 2) ([], [])))
  = [1; 1] /\
  ~ in_intervals Stub.one_interval 1.
Proof.
  split; [vm_compute; reflexivity|].
  intros (inter & Hin & Hv). destruct Hin as [<- | []]. cbn in Hv. lia.
Qed.

(** C3 (amended): for a generator built from a non-empty list of intervals
    with ordered bounds and non-negative weights, and a byte count [B >= 1]:
    with [N = 1] the pool is [B] itself, inside the intervals or not; with
    [N >= 2], when the run does not end in the uniform fallback (the best
    observed difference divided by [B] does not exceed 0.2), every value of
    the pool lies inside the union of the intervals. *)
Theorem Generate_values_in_intervals
  {RG : RandomGenerator} {SH : DefaultShuffle}
  (RGS : RandomGeneratorSpec RG) (SHS : DefaultShuffleSpec SH)
  (N B : Z) (s : t) (g : rng) :
  _intervals s <> [] -> well_formed (_intervals s) -> 1 <= B ->
  (N = 1 -> _values (fst (Generate N B s g)) = [B]) /\
  (2 <= N ->
   fallback_to_uniform (bestDiff (fst (GenerateBest N B s g))) B = false ->
   Forall (in_intervals (_intervals s)) (_values (fst (Generate N B s g)))).
Proof.
  intros Hne Hwf HB. split.
  - intros ->. rewrite PacketSizeGeneratorSlowFacts.Generate_single by lia.
    reflexivity.
  - intros HN Hfall. unfold Generate.
    replace (N =? 0) with false by (symmetry; apply Z.eqb_neq; lia).
    replace (B =? 0) with false by (symmetry; apply Z.eqb_neq; lia).
    replace (N =? 1) with false by (symmetry; apply Z.eqb_neq; lia).
    cbn [orb]. unfold bind.
    pose proof (GenerateBest_in N B s g Hne Hwf) as [_ Hbest].
    destruct (GenerateBest N B s g) as [st g']. cbn [fst] in Hfall, Hbest.
    rewrite Hfall. cbn [fst set_values _values].
    rewrite Forall_forall in Hbest |- *. intros v Hv. apply Hbest.
    eapply Permutation_in; [apply shuffle_perm | exact Hv].
Qed.

Lemma one_interval_well_formed : well_formed Stub.one_interval.
Proof. repeat constructor. cbn. lia. Qed.

Lemma Generate_values_in_intervals_witness :
  Forall (in_intervals Stub.one_interval)
         (_values (fst (@Generate Stub.Scripted Stub.Reversing 2 100
                                  (make Stub.one_interval 2 100) ([], [3; 11])))).
Proof.
  refine (proj2 (@Generate_values_in_intervals Stub.Scripted Stub.Reversing
                   Scripted_spec Reversing_spec 2 100
                   (make Stub.one_interval 2 100) ([], [3; 11])
                   _ one_interval_well_formed _) _ _).
  - discriminate.
  - lia.
  - lia.
  - vm_compute. reflexivity.
Defined.

End ValuesInIntervals.

(** * Flows *)

Module FlowFacts.
Import Flow.

(** ** Encapsulation choice *)

Lemma choose_variant_first_cover (rand : float) :
  forall variants accum n variant,
  nth_error variants n = Some variant ->
  (forall k, (k < n)%nat ->
     (rand <=? fold_left (fun a v => a + GetProbability v)
                         (firstn (S k) variants) accum)%float = false) ->
  (rand <=? fold_left (fun a v => a + GetProbability v)
                      (firstn (S n) variants) accum)%float = true ->
  choose_variant variants rand accum = GetLayers variant.
Proof.
  induction variants as [|v variants IH]; intros accum n variant Hnth Hbefore Hcover.
  - destruct n; discriminate Hnth.
  - cbn [choose_variant]. destruct n as [|n].
    + cbn in Hnth. injection Hnth as ->. cbn in Hcover. now rewrite Hcover.
    + pose proof (Hbefore 0%nat ltac:(lia)) as H0. cbn in H0. rewrite H0.
      apply (IH _ n); [exact Hnth | | exact Hcover].
      intros k Hk. apply (Hbefore (S k)). lia.
Qed.

Lemma choose_variant_no_cover (rand : float) :
  forall variants accum,
  (forall k, (k < length variants)%nat ->
     (rand <=? fold_left (fun a v => a + GetProbability v)
                         (firstn (S k) variants) accum)%float = false) ->
  choose_variant variants rand accum = [].
Proof.
  induction variants as [|v variants IH]; intros accum Hnone.
  - reflexivity.
  - cbn [choose_variant].
    pose proof (Hnone 0%nat ltac:(cbn; lia)) as H0. cbn in H0. rewrite H0.
    apply IH. intros k Hk. apply (Hnone (S k)). cbn. lia.
Qed.

(** C9, as the spec states it, fails: the draw is made in [0, 1), whatever
    the weights add up to.  With weights 0.3 and 0.2 a draw of 0.9 is in range
    for the generator, is not below the sum 0.5, and selects no variant at
    all although the list is not empty. *)
Lemma ChooseEncaps_draw_not_scaled :
  fst (@RandomDouble_default Stub.Scripted ([0.9%float], [])) = 0.9%float /\
  (0.9 <? cumulative [mkVariant 0.3 [EncapsulationLayerVlan 10];
                      mkVariant 0.2 [EncapsulationLayerMpls 20]])%float = false /\
  fst (@ChooseEncaps Stub.Scripted
         [mkVariant 0.3 [EncapsulationLayerVlan 10];
          mkVariant 0.2 [EncapsulationLayerMpls 20]] ([0.9%float], []))
  = [] /\
  ~ In (fst (@ChooseEncaps Stub.Scripted
               [mkVariant 0.3 [EncapsulationLayerVlan 10];
                mkVariant 0.2 [EncapsulationLayerMpls 20]] ([0.9%float], [])))
       (map GetLayers [mkVariant 0.3 [EncapsulationLayerVlan 10];
                       mkVariant 0.2 [EncapsulationLayerMpls 20]]).
Proof.
  split; [reflexivity|]. split; [reflexivity|]. split; [reflexivity|].
  cbn. intros [H | [H | []]]; discriminate H.
Qed.

(** C9 (amended): for an empty list [ChooseEncaps] draws nothing and adds no
    layers.  Otherwise it makes one draw with [RandomDouble()], i.e. in
    [0, 1) and not in [0, sum of the weights), and returns the layers of the
    first variant whose cumulative weight is at least the draw; when no
    cumulative weight reaches the draw it adds no layers.  With weights 0.3
    and 0.7 and a draw of 0.5 the second variant is chosen. *)
Theorem ChooseEncaps_first_cover {RG : RandomGenerator}
  (variants : list EncapsulationVariant) (g : rng) :
  ChooseEncaps [] g = ([], g) /\
  (variants <> [] ->
   snd (ChooseEncaps variants g) = snd (RandomDouble 0 1 g) /\
   (forall n variant,
      nth_error variants n = Some variant ->
      (forall k, (k < n)%nat ->
         covers variants (fst (RandomDouble 0 1 g)) (S k) = false) ->
      covers variants (fst (RandomDouble 0 1 g)) (S n) = true ->
      fst (ChooseEncaps variants g) = GetLayers variant) /\
   ((forall k, (k < length variants)%nat ->
       covers variants (fst (RandomDouble 0 1 g)) (S k) = false) ->
    fst (ChooseEncaps variants g) = [])) /\
  fst (@ChooseEncaps Stub.Scripted
         [mkVariant 0.3 [EncapsulationLayerVlan 10];
          mkVariant 0.7 [EncapsulationLayerMpls 20]] ([0.5%float], []))
  = [EncapsulationLayerMpls 20].
Proof.
  split; [reflexivity|]. split; [|reflexivity].
  intros Hne. destruct variants as [|v variants]; [congruence|].
  unfold ChooseEncaps, bind, RandomDouble_default, ret.
  destruct (RandomDouble 0 1 g) as [rand g']. cbn [fst snd].
  split; [reflexivity|]. split.
  - intros n variant Hnth Hbefore Hcover.
    apply (choose_variant_first_cover rand _ _ n); assumption.
  - intros Hnone. apply choose_variant_no_cover. exact Hnone.
Qed.

(** ** Timestamps *)

Lemma Timeval_le_iff (a b : Timeval) :
  Timeval_le a b <->
  tv_sec a < tv_sec b \/ (tv_sec a = tv_sec b /\ tv_usec a <= tv_usec b).
Proof.
  unfold Timeval_le, Timeval_leb, Timeval_ltb.
  rewrite negb_true_iff, orb_false_iff, andb_false_iff.
  rewrite !Z.ltb_ge, Z.eqb_neq. lia.
Qed.

Lemma Timeval_ltb_false_le (a b : Timeval) :
  Timeval_ltb a b = false -> Timeval_le b a.
Proof. unfold Timeval_le, Timeval_leb. now intros ->. Qed.

Lemma Timeval_ltb_true_le (a b : Timeval) :
  Timeval_ltb a b = true -> Timeval_le a b.
Proof.
  intros H. apply Timeval_le_iff. unfold Timeval_ltb in H.
  rewrite orb_true_iff, andb_true_iff, !Z.ltb_lt, Z.eqb_eq in H. lia.
Qed.

Lemma Timeval_le_trans (a b c : Timeval) :
  Timeval_le a b -> Timeval_le b c -> Timeval_le a c.
Proof. rewrite !Timeval_le_iff. lia. Qed.

Lemma Timeval_le_antisym (a b : Timeval) :
  Timeval_le a b -> Timeval_le b a -> a = b.
Proof.
  rewrite !Timeval_le_iff. destruct a as [sa ua], b as [sb ub]. cbn.
  intros H1 H2. f_equal; lia.
Qed.

Lemma insert_sorted_perm x l : Permutation (insert_sorted x l) (x :: l).
Proof.
  induction l as [|y l IH]; cbn [insert_sorted]; [reflexivity|].
  destruct (Timeval_ltb y x); [|reflexivity].
  rewrite IH. apply perm_swap.
Qed.

Lemma sort_perm l : Permutation (sort l) l.
Proof.
  induction l as [|x l IH]; cbn [sort]; [reflexivity|].
  rewrite insert_sorted_perm. now constructor.
Qed.

Lemma insert_sorted_sorted x l :
  StronglySorted Timeval_le l -> StronglySorted Timeval_le (insert_sorted x l).
Proof.
  induction l as [|y l IH]; intros Hs; cbn [insert_sorted].
  - repeat constructor.
  - inversion Hs as [|? ? Hs' Hall]; subst.
    destruct (Timeval_ltb y x) eqn:Hlt.
    + constructor; [auto|].
      rewrite Forall_forall in Hall |- *. intros z Hz.
      apply (Permutation_in _ (insert_sorted_perm x l)) in Hz.
      destruct Hz as [<- | Hz]; [apply Timeval_ltb_true_le; exact Hlt | auto].
    + pose proof (Timeval_ltb_false_le y x Hlt) as Hxy.
      constructor; [exact Hs|]. constructor; [exact Hxy|].
      rewrite Forall_forall in Hall |- *. intros z Hz.
      eapply Timeval_le_trans; [exact Hxy | auto].
Qed.

Lemma sort_sorted l : StronglySorted Timeval_le (sort l).
Proof.
  induction l as [|x l IH]; cbn [sort]; [constructor|].
  apply insert_sorted_sorted. exact IH.
Qed.

Lemma assign_timestamps_exact packets : forall timestamps,
  length timestamps = length packets ->
  map _timestamp (assign_timestamps packets timestamps) = timestamps.
Proof.
  induction packets as [|p packets IH]; intros [|ts timestamps] Hlen;
    try discriminate Hlen; cbn; [reflexivity|].
  f_equal. apply IH. cbn in Hlen. lia.
Qed.

Lemma StronglySorted_adjacent (d : Timeval) l :
  StronglySorted Timeval_le l ->
  forall i, (S i < length l)%nat -> Timeval_le (nth i l d) (nth (S i) l d).
Proof.
  induction 1 as [|x l Hs IH Hall]; intros i Hi; cbn in Hi; [lia|].
  destruct i as [|i].
  - cbn [nth]. rewrite Forall_forall in Hall. apply Hall.
    destruct l; cbn in Hi |- *; [lia | left; reflexivity].
  - cbn [nth]. apply IH. lia.
Qed.

Lemma StronglySorted_last (d : Timeval) l :
  StronglySorted Timeval_le l ->
  forall x, In x l -> Timeval_le x (last l d).
Proof.
  induction 1 as [|y l Hs IH Hall]; intros x Hin; [destruct Hin|].
  destruct l as [|z l].
  - destruct Hin as [<- | []]. cbn. apply Timeval_le_iff. lia.
  - change (last (y :: z :: l) d) with (last (z :: l) d).
    destruct Hin as [<- | Hin]; [|apply IH; exact Hin].
    rewrite Forall_forall in Hall.
    eapply Timeval_le_trans; [apply (Hall z); left; reflexivity|].
    apply IH. left. reflexivity.
Qed.

Lemma last_in (d : Timeval) l : l <> [] -> In (last l d) l.
Proof.
  induction l as [|x l IH]; intros Hne; [congruence|].
  destruct l as [|y l]; [left; reflexivity|].
  right. apply IH. discriminate.
Qed.

Section WithLocalEngine.
Context {LE : LocalEngine} {LES : LocalEngineSpec LE}.

Lemma draw_timestamp_in_span f gen :
  Timeval_le (_tsFirst f) (_tsLast f) ->
  valid_usec (_tsFirst f) -> valid_usec (_tsLast f) ->
  in_span f (fst (draw_timestamp f gen)).
Proof.
  intros Hle Hfirst Hlast. unfold in_span, draw_timestamp, valid_usec in *.
  apply Timeval_le_iff in Hle. rewrite !Timeval_le_iff.
  pose proof (uniform_int_range (tv_sec (_tsFirst f)) (tv_sec (_tsLast f)) gen
                ltac:(lia)) as Hsec.
  destruct (uniform_int (tv_sec (_tsFirst f)) (tv_sec (_tsLast f)) gen)
    as [sec gen1]. cbn [fst] in Hsec.
  destruct (sec =? tv_sec (_tsFirst f)) eqn:E1;
    [apply Z.eqb_eq in E1 | apply Z.eqb_neq in E1].
  - destruct (tv_sec (_tsFirst f) =? tv_sec (_tsLast f)) eqn:E0;
      [apply Z.eqb_eq in E0 | apply Z.eqb_neq in E0]; cbn [fst snd].
    + pose proof (uniform_int_range (tv_usec (_tsFirst f)) (tv_usec (_tsLast f))
                    gen1 ltac:(lia)) as Husec.
      destruct (uniform_int _ _ gen1) as [usec gen2]. cbn in Husec |- *. lia.
    + pose proof (uniform_int_range (tv_usec (_tsFirst f)) 999999
                    gen1 ltac:(lia)) as Husec.
      destruct (uniform_int _ _ gen1) as [usec gen2]. cbn in Husec |- *. lia.
  - destruct (sec =? tv_sec (_tsLast f)) eqn:E2;
      [apply Z.eqb_eq in E2 | apply Z.eqb_neq in E2].
    + destruct (tv_sec (_tsFirst f) =? tv_sec (_tsLast f)) eqn:E0;
        [apply Z.eqb_eq in E0 | apply Z.eqb_neq in E0]; cbn [fst snd]; [lia|].
      pose proof (uniform_int_range 0 (tv_usec (_tsLast f)) gen1 ltac:(lia))
        as Husec.
      destruct (uniform_int _ _ gen1) as [usec gen2]. cbn in Husec |- *. lia.
    + destruct (uniform_int 0 999999 gen1) as [usec gen2]. cbn. lia.
Qed.

Lemma draw_timestamps_in_span f n : forall timestamps gen,
  Timeval_le (_tsFirst f) (_tsLast f) ->
  valid_usec (_tsFirst f) -> valid_usec (_tsLast f) ->
  Forall (in_span f) timestamps ->
  Forall (in_span f) (fst (draw_timestamps f n timestamps gen)) /\
  length (fst (draw_timestamps f n timestamps gen)) = (length timestamps + n)%nat /\
  firstn (length timestamps) (fst (draw_timestamps f n timestamps gen)) = timestamps.
Proof.
  induction n as [|n IH]; intros timestamps gen Hle Hfirst Hlast Hall;
    cbn [draw_timestamps].
  - cbn [fst]. split; [exact Hall|]. split; [lia | apply firstn_all].
  - pose proof (draw_timestamp_in_span f gen Hle Hfirst Hlast) as Ht.
    destruct (draw_timestamp f gen) as [time gen']. cbn [fst] in Ht.
    destruct (IH (timestamps ++ [time]) gen' Hle Hfirst Hlast) as (H1 & H2 & H3).
    { apply Forall_app. split; [exact Hall | constructor; [exact Ht | constructor]]. }
    split; [exact H1|]. rewrite length_app in H2, H3. cbn [length] in H2, H3.
    split; [lia|].
    apply (f_equal (firstn (length timestamps))) in H3.
    rewrite firstn_firstn, Nat.min_l in H3 by lia.
    rewrite H3, firstn_app, Nat.sub_diag, firstn_all. cbn. apply app_nil_r.
Qed.

End WithLocalEngine.

(** C7: a flow with at least two packet plans, [_tsFirst <= _tsLast] and
    microsecond fields within [0, 999999]: after [PlanPacketsTimestamps] every
    plan has a timestamp, the timestamps are nondecreasing along the plan
    list, each lies in [_tsFirst, _tsLast], the first one is [_tsFirst] and
    the last one is [_tsLast], whatever the local engine draws. *)
Theorem PlanPacketsTimestamps_sorted_in_span
  {LE : LocalEngine} (LES : LocalEngineSpec LE) (f : t) (gen : engine) :
  (2 <= length (_packets f))%nat ->
  Timeval_le (_tsFirst f) (_tsLast f) ->
  valid_usec (_tsFirst f) -> valid_usec (_tsLast f) ->
  length (_packets (PlanPacketsTimestamps f gen)) = length (_packets f) /\
  StronglySorted Timeval_le
    (map _timestamp (_packets (PlanPacketsTimestamps f gen))) /\
  (forall i,
     (S i < length (_packets f))%nat ->
     Timeval_le
       (nth i (map _timestamp (_packets (PlanPacketsTimestamps f gen))) (_tsFirst f))
       (nth (S i) (map _timestamp (_packets (PlanPacketsTimestamps f gen))) (_tsFirst f))) /\
  Forall (in_span f) (map _timestamp (_packets (PlanPacketsTimestamps f gen))) /\
  hd_error (map _timestamp (_packets (PlanPacketsTimestamps f gen)))
  = Some (_tsFirst f) /\
  last (map _timestamp (_packets (PlanPacketsTimestamps f gen))) (_tsFirst f)
  = _tsLast f.
Proof.
  intros HP Hle Hfirst Hlast.
  assert (Hends : Forall (in_span f) [_tsFirst f; _tsLast f]).
  { assert (Hrefl : forall x, Timeval_le x x)
      by (intros x; apply Timeval_le_iff; lia).
    repeat constructor; auto. }
  unfold PlanPacketsTimestamps.
  destruct (draw_timestamps_in_span f (length (_packets f) - 2)
              [_tsFirst f; _tsLast f] gen Hle Hfirst Hlast Hends)
    as (Hall & Hlen & Hprefix).
  destruct (draw_timestamps f _ _ gen) as [timestamps gen'].
  cbn [fst length] in Hall, Hlen, Hprefix. cbn [_packets set_packets].
  assert (Hslen : length (sort timestamps) = length (_packets f)).
  { rewrite (Permutation_length (sort_perm timestamps)). lia. }
  rewrite (assign_timestamps_exact _ _ Hslen).
  assert (Hsall : Forall (in_span f) (sort timestamps)).
  { rewrite Forall_forall in Hall |- *. intros x Hx. apply Hall.
    eapply Permutation_in; [apply sort_perm | exact Hx]. }
  pose proof (sort_sorted timestamps) as Hsorted.
  assert (Hin_first : In (_tsFirst f) (sort timestamps)).
  { eapply Permutation_in; [symmetry; apply sort_perm|].
    rewrite <- (firstn_skipn 2 timestamps), Hprefix. left. reflexivity. }
  assert (Hin_last : In (_tsLast f) (sort timestamps)).
  { eapply Permutation_in; [symmetry; apply sort_perm|].
    rewrite <- (firstn_skipn 2 timestamps), Hprefix. right. left. reflexivity. }
  split.
  { rewrite <- (length_map _timestamp), (assign_timestamps_exact _ _ Hslen).
    exact Hslen. }
  split; [exact Hsorted|].
  split.
  { intros i Hi. apply StronglySorted_adjacent; [exact Hsorted | lia]. }
  split; [exact Hsall|].
  split.
  - destruct (sort timestamps) as [|x l] eqn:Hs; [destruct Hin_first|].
    cbn. f_equal.
    apply Timeval_le_antisym.
    + inversion Hsorted as [|? ? _ Hmin]; subst.
      destruct Hin_first as [-> | Hin]; [apply Timeval_le_iff; lia|].
      rewrite Forall_forall in Hmin. apply Hmin. exact Hin.
    + apply Forall_inv in Hsall. apply Hsall.
  - apply Timeval_le_antisym.
    + assert (Hne : sort timestamps <> []).
      { intros Hnil. rewrite Hnil in Hin_first. destruct Hin_first. }
      pose proof (last_in (_tsFirst f) _ Hne) as Hl.
      rewrite Forall_forall in Hsall. apply (Hsall _ Hl).
    + apply StronglySorted_last; assumption.
Qed.

Lemma PlanPacketsTimestamps_sorted_in_span_witness :
  hd_error (map _timestamp
              (_packets (@PlanPacketsTimestamps Stub.Replay Stub.three_packets [3; 500])))
  = Some (mkTimeval 10 0) /\
  last (map _timestamp
          (_packets (@PlanPacketsTimestamps Stub.Replay Stub.three_packets [3; 500])))
       (mkTimeval 10 0)
  = mkTimeval 20 0.
Proof.
  destruct (@PlanPacketsTimestamps_sorted_in_span Stub.Replay Replay_spec
              Stub.three_packets [3; 500])
    as (_ & _ & _ & _ & Hhd & Hlast).
  - unfold Stub.three_packets. cbn. lia.
  - reflexivity.
  - unfold valid_usec, Stub.three_packets. cbn. lia.
  - unfold valid_usec, Stub.three_packets. cbn. lia.
  - split; [exact Hhd | exact Hlast].
Defined.

(** C1 fails on the code: the timestamps come from an engine seeded with
    [std::random_device], which none of profile, configuration, generator seed
    and address seed determines.  The same three-packet flow gets different
    timestamps from two states of that engine. *)
Theorem PlanPacketsTimestamps_not_reproducible :
  map _timestamp
      (_packets (@PlanPacketsTimestamps Stub.Replay Stub.three_packets [3; 500]))
  = [mkTimeval 10 0; mkTimeval 13 500; mkTimeval 20 0] /\
  map _timestamp
      (_packets (@PlanPacketsTimestamps Stub.Replay Stub.three_packets [5; 7]))
  = [mkTimeval 10 0; mkTimeval 15 7; mkTimeval 20 0] /\
  @PlanPacketsTimestamps Stub.Replay Stub.three_packets [3; 500]
  <> @PlanPacketsTimestamps Stub.Replay Stub.three_packets [5; 7].
Proof.
  split; [reflexivity|]. split; [reflexivity|].
  intros H. apply (f_equal (fun f => map _timestamp (_packets f))) in H.
  vm_compute in H. discriminate H.
Qed.

(** ** ICMP layer choice *)

Lemma fwdRevRatioDiff_not_nan (f : t) :
  0 <= _fwdPackets f < 2 ^ 64 -> 0 <= _revPackets f < 2 ^ 64 ->
  not_nan (Prim2SF (fwdRevRatioDiff f)).
Proof.
  intros Hf Hr. unfold fwdRevRatioDiff.
  destruct (wrap64 (_fwdPackets f + _revPackets f) >? 0) eqn:Hsum.
  - assert (Hmax : 1 <= Z.max (_fwdPackets f) (_revPackets f)).
    { destruct (Z.eq_dec (_fwdPackets f + _revPackets f) 0) as [H0|]; [|lia].
      rewrite H0 in Hsum. discriminate Hsum. }
    apply sub_not_nan.
    + do 3 eexists. reflexivity.
    + apply div_not_nan.
      * apply double_of_int_nonneg. lia.
      * apply double_of_int_pos. lia.
  - exact I.
Qed.

Lemma icmp_heuristic_random_iff {HS : HeaderSizes} (f : t) (l3Proto : L3Protocol)
  (random echo : IcmpLayer) :
  0 <= _fwdPackets f < 2 ^ 64 -> 0 <= _revPackets f < 2 ^ 64 ->
  icmp_heuristic f (unreach_size l3Proto) random echo
  = if (few_packets f && small_packets f l3Proto)
       || ((0.2 <? fwdRevRatioDiff f)%float && small_packets f l3Proto)
    then random else echo.
Proof.
  intros Hf Hr. unfold icmp_heuristic, few_packets, small_packets.
  rewrite (ltb_negb_leb (fwdRevRatioDiff f) 0.2
             (fwdRevRatioDiff_not_nan f Hf Hr) I).
  destruct (_ || _), (_ <=? _)%float, (fwdRevRatioDiff f <=? 0.2)%float; reflexivity.
Qed.

(** C6, as the spec states it, fails: [bytesPerPkt] is an integer quotient.
    For [Pf = 3], [Pr = 7], [Bf = 155], [Br = 200] and the header sizes of
    PcapPlusPlus, [S_unreach] is 32 and [bpp = 355 / 10 = 35.5] exceeds
    [1.10 * 32 = 35.2], so neither condition of the claim holds and it
    selects IcmpEcho; the code computes 35, which passes the same test, and
    returns IcmpRandom. *)
Lemma MakeIcmpLayer_random_where_echo_specified :
  @ICMP_UNREACH_PKT_SIZE Stub.Pcpp = 32 /\
  AsSpecified.bpp Stub.icmp_flow = 35.5%float /\
  PrimFloat.leb 35.5%float (1.10 * double_of_int 32)%float = false /\
  AsSpecified.selects_random Stub.icmp_flow (@ICMP_UNREACH_PKT_SIZE Stub.Pcpp)
  = false /\
  @bytesPerPkt Stub.icmp_flow = 35%float /\
  @MakeIcmpLayer Stub.Pcpp Stub.icmp_flow Ipv4 = IcmpRandom /\
  ~ (is_random (@MakeIcmpLayer Stub.Pcpp Stub.icmp_flow Ipv4)
     = AsSpecified.selects_random Stub.icmp_flow (@ICMP_UNREACH_PKT_SIZE Stub.Pcpp)).
Proof.
  split; [reflexivity|]. split; [vm_compute; reflexivity|].
  split; [vm_compute; reflexivity|]. split; [vm_compute; reflexivity|].
  split; [vm_compute; reflexivity|]. split; [vm_compute; reflexivity|].
  intros H. vm_compute in H. discriminate H.
Qed.

(** C6 (amended): for packet counts of the [uint64_t] range, [MakeIcmpLayer]
    returns the random layer of the family (IcmpRandom for IPv4, Icmpv6Random
    for IPv6) exactly when ([Pf <= 3] or [Pr <= 3]) and
    [bpp <= 1.10 * S_unreach], or [ratioDiff > 0.2] and
    [bpp <= 1.10 * S_unreach], and the echo layer of the family otherwise.
    Here [S_unreach] is [ICMP_HDR + IPV4_HDR + UDP_HDR] for IPv4 and
    [ICMPV6_HDR + 4 + IPV6_HDR + UDP_HDR] otherwise; [bpp] is the unsigned
    64-bit integer quotient of [Bf + Br] by [Pf + Pr], rounded down and then
    converted to a double, and 0 when [Pf + Pr] is 0 (both sums are taken
    modulo 2^64; without overflow [bpp] is the floor of
    [(Bf + Br) / (Pf + Pr)]); [ratioDiff] is [1 - min / max] on doubles, and
    1.0 when [Pf + Pr] is 0. *)
Theorem MakeIcmpLayer_random_iff {HS : HeaderSizes} (f : t) (l3Proto : L3Protocol)
  (S_unreach : Z) (bpp ratioDiff : float) :
  0 <= _fwdPackets f < 2 ^ 64 -> 0 <= _revPackets f < 2 ^ 64 ->
  S_unreach = match l3Proto with
              | Ipv4 => ICMP_HDR_SIZE + IPV4_HDR_SIZE + UDP_HDR_SIZE
              | _ => ICMPV6_HDR_SIZE + 4 + IPV6_HDR_SIZE + UDP_HDR_SIZE
              end ->
  bpp = (if wrap64 (_fwdPackets f + _revPackets f) >? 0
         then double_of_int (wrap64 (_fwdBytes f + _revBytes f)
                             / wrap64 (_fwdPackets f + _revPackets f))
         else 0%float) ->
  ratioDiff = (if wrap64 (_fwdPackets f + _revPackets f) >? 0
               then (1 - double_of_int (Z.min (_fwdPackets f) (_revPackets f))
                         / double_of_int (Z.max (_fwdPackets f) (_revPackets f)))%float
               else 1%float) ->
  (is_random (MakeIcmpLayer f l3Proto) = true <->
   ((_fwdPackets f <= 3 \/ _revPackets f <= 3) /\
    PrimFloat.leb bpp (1.10 * double_of_int S_unreach)%float = true) \/
   (PrimFloat.ltb 0.2%float ratioDiff = true /\
    PrimFloat.leb bpp (1.10 * double_of_int S_unreach)%float = true)) /\
  (l3Proto = Ipv4 ->
   MakeIcmpLayer f l3Proto
   = if is_random (MakeIcmpLayer f l3Proto) then IcmpRandom else IcmpEcho) /\
  (l3Proto = Ipv6 ->
   MakeIcmpLayer f l3Proto
   = if is_random (MakeIcmpLayer f l3Proto) then Icmpv6Random else Icmpv6Echo) /\
  (0 < _fwdPackets f + _revPackets f < 2 ^ 64 ->
   0 <= _fwdBytes f + _revBytes f < 2 ^ 64 ->
   bpp = double_of_int ((_fwdBytes f + _revBytes f) / (_fwdPackets f + _revPackets f))) /\
  (_fwdPackets f = 0 -> _revPackets f = 0 ->
   ratioDiff = 1%float /\ bpp = 0%float).
Proof.
  intros Hf Hr HS_unreach Hbpp Hratio.
  assert (Hb : bpp = bytesPerPkt f) by (rewrite Hbpp; reflexivity).
  assert (Hd : ratioDiff = fwdRevRatioDiff f) by (rewrite Hratio; reflexivity).
  assert (Hu : S_unreach = unreach_size l3Proto)
    by (rewrite HS_unreach; destruct l3Proto; reflexivity).
  assert (Hsmall : PrimFloat.leb bpp (1.10 * double_of_int S_unreach)%float
                   = small_packets f l3Proto)
    by (rewrite Hb, Hu; reflexivity).
  assert (Hsel : MakeIcmpLayer f l3Proto
                 = if (few_packets f && small_packets f l3Proto)
                      || ((0.2 <? fwdRevRatioDiff f)%float && small_packets f l3Proto)
                   then match l3Proto with Ipv4 => IcmpRandom | _ => Icmpv6Random end
                   else match l3Proto with Ipv4 => IcmpEcho | _ => Icmpv6Echo end).
  { unfold MakeIcmpLayer.
    destruct l3Proto;
      [ rewrite <- (icmp_heuristic_random_iff f L3Unknown) by assumption
      | rewrite <- (icmp_heuristic_random_iff f Ipv4) by assumption
      | rewrite <- (icmp_heuristic_random_iff f Ipv6) by assumption ];
      reflexivity. }
  split; [|split; [|split; [|split]]].
  - rewrite Hsel, Hsmall, Hd.
    assert (Hfew : few_packets f = true <-> _fwdPackets f <= 3 \/ _revPackets f <= 3).
    { unfold few_packets. rewrite orb_true_iff, !Z.leb_le. reflexivity. }
    rewrite <- Hfew.
    destruct (few_packets f), (small_packets f l3Proto),
      (0.2 <? fwdRevRatioDiff f)%float, l3Proto; cbn; intuition discriminate.
  - intros ->. rewrite Hsel. destruct (_ || _); reflexivity.
  - intros ->. rewrite Hsel. destruct (_ || _); reflexivity.
  - intros Hsum Hbytes. rewrite Hbpp. unfold wrap64.
    rewrite (Z.mod_small (_fwdPackets f + _revPackets f)) by lia.
    rewrite (Z.mod_small (_fwdBytes f + _revBytes f)) by lia.
    replace (_fwdPackets f + _revPackets f >? 0) with true
      by (symmetry; rewrite Z.gtb_ltb; apply Z.ltb_lt; lia).
    reflexivity.
  - intros H1 H2. rewrite Hratio, Hbpp, H1, H2. split; reflexivity.
Qed.

Lemma MakeIcmpLayer_random_iff_witness :
  @MakeIcmpLayer Stub.Pcpp Stub.icmp_flow Ipv4 = IcmpRandom /\
  is_random (@MakeIcmpLayer Stub.Pcpp Stub.icmp_flow Ipv4) = true.
Proof.
  destruct (@MakeIcmpLayer_random_iff Stub.Pcpp Stub.icmp_flow Ipv4
              32 35%float (1 - 3 / 7)%float)
    as (Hiff & Hv4 & _).
  - cbn. lia.
  - cbn. lia.
  - reflexivity.
  - vm_compute. reflexivity.
  - vm_compute. reflexivity.
  - assert (Hrandom : is_random (@MakeIcmpLayer Stub.Pcpp Stub.icmp_flow Ipv4) = true).
    { apply Hiff. left. split; [left; cbn; lia | vm_compute; reflexivity]. }
    split; [|exact Hrandom]. rewrite (Hv4 eq_refl), Hrandom. reflexivity.
Defined.

End FlowFacts.

(** * Address generators: the stream *)

Module AddressStreamFacts.
Import AddressGenerators AddressStream.

Lemma lehmer_mod (x : Z) :
  0 <= x -> lehmer x = (x * LEHMER_A) mod LEHMER_M.
Proof.
  intros Hx. unfold lehmer, wrap32.
  pose proof (Z.mod_pos_bound (x * LEHMER_A) LEHMER_M ltac:(reflexivity)) as H.
  unfold LEHMER_M in *. apply Z.mod_small. lia.
Qed.

(** Multiplying by the inverse of the multiplier undoes a Lehmer step. *)
Lemma lehmer_inverse (x : Z) :
  0 <= x < LEHMER_M -> (lehmer x * 1899818559) mod LEHMER_M = x.
Proof.
  intros Hx. rewrite lehmer_mod by lia.
  rewrite Z.mul_mod_idemp_l by (unfold LEHMER_M; lia).
  rewrite <- Z.mul_assoc.
  rewrite <- Z.mul_mod_idemp_r by (unfold LEHMER_M; lia).
  change ((LEHMER_A * 1899818559) mod LEHMER_M) with 1.
  rewrite Z.mul_1_r. apply Z.mod_small. exact Hx.
Qed.

Lemma lehmer_valid (x : Z) :
  1 <= x < LEHMER_M -> 1 <= lehmer x < LEHMER_M.
Proof.
  intros Hx. pose proof (lehmer_range x) as Hr.
  destruct (Z.eq_dec (lehmer x) 0) as [H0|]; [|lia].
  pose proof (lehmer_inverse x ltac:(lia)) as Hinv.
  rewrite H0 in Hinv. cbn in Hinv. lia.
Qed.

Lemma lehmer_injective (x y : Z) :
  0 <= x < LEHMER_M -> 0 <= y < LEHMER_M -> lehmer x = lehmer y -> x = y.
Proof.
  intros Hx Hy H.
  rewrite <- (lehmer_inverse x Hx), <- (lehmer_inverse y Hy), H. reflexivity.
Qed.

Lemma lehmer_no_fixed_point (x : Z) :
  1 <= x < LEHMER_M -> lehmer x <> x.
Proof.
  intros Hx Hfix. rewrite lehmer_mod in Hfix by lia.
  assert (H0 : (x * (LEHMER_A - 1)) mod LEHMER_M = 0).
  { replace (x * (LEHMER_A - 1)) with (x * LEHMER_A - x) by ring.
    rewrite Zminus_mod, Hfix, (Z.mod_small x) by lia.
    rewrite Z.sub_diag. reflexivity. }
  assert (H1 : (x * (LEHMER_A - 1) * 1968059542) mod LEHMER_M = x).
  { rewrite <- Z.mul_assoc.
    rewrite <- Z.mul_mod_idemp_r by (unfold LEHMER_M; lia).
    change (((LEHMER_A - 1) * 1968059542) mod LEHMER_M) with 1.
    rewrite Z.mul_1_r. apply Z.mod_small. lia. }
  rewrite <- Z.mul_mod_idemp_l in H1 by (unfold LEHMER_M; lia).
  rewrite H0 in H1. cbn in H1. lia.
Qed.

Lemma make_valid (seed : Z) (g : t) :
  make seed = inr g -> valid g /\ _capacity g = LEHMER_M - 1.
Proof.
  unfold make. destruct (seed <=? 0) eqn:H1; [discriminate|].
  destruct (seed >=? LEHMER_M) eqn:H2; [discriminate|].
  apply Z.leb_gt in H1. rewrite Z.geb_leb in H2. apply Z.leb_gt in H2.
  cbn [orb]. intros [= <-]. unfold valid, NextSeed.
  cbn [_state _seedState _capacity].
  pose proof (lehmer_valid seed ltac:(lia)). unfold LEHMER_M in *. lia.
Qed.

Lemma NextSeed_valid (g : t) : valid g -> valid (NextSeed g).
Proof.
  intros (Hs & Hseed & Hc). unfold valid, NextSeed. cbn [_state _seedState _capacity].
  pose proof (lehmer_valid _ Hseed). unfold LEHMER_M in *. lia.
Qed.

Lemma NextValue_valid (g : t) :
  valid g ->
  valid (snd (NextValue g)) /\ 1 <= fst (NextValue g) < LEHMER_M.
Proof.
  intros Hg. unfold NextValue.
  assert (Hg' : valid (if _capacity g =? 0 then NextSeed g else g) /\
                1 <= _capacity (if _capacity g =? 0 then NextSeed g else g)).
  { destruct (_capacity g =? 0) eqn:Hc.
    - split; [apply NextSeed_valid; exact Hg | cbn; unfold LEHMER_M; lia].
    - apply Z.eqb_neq in Hc. destruct Hg as (? & ? & ?). unfold valid. lia. }
  destruct Hg' as [(Hs & Hseed & Hc) Hpos].
  cbn [fst snd]. unfold valid. cbn [_state _seedState _capacity].
  pose proof (lehmer_valid _ Hs). lia.
Qed.

(** Every address octet is a byte, and the four octets of a 32-bit value
    spell it in network order. *)
Lemma decode_be_bytes (v : Z) :
  0 <= v < 2 ^ 32 ->
  decode_be [byte_at v 24; byte_at v 16; byte_at v 8; byte_at v 0] = v.
Proof.
  intros Hv. rewrite !byte_at_div by lia. unfold decode_be. cbn [fold_left].
  rewrite Z.pow_0_r, Z.div_1_r.
  change (2 ^ 24) with (256 * 256 * 256). change (2 ^ 16) with (256 * 256).
  change (2 ^ 8) with 256. change (2 ^ 32) with (256 * 256 * 256 * 256) in Hv.
  Z.div_mod_to_equations. lia.
Qed.

Lemma byte_at_range (v k : Z) : 0 <= k -> 0 <= byte_at v k <= 255.
Proof.
  intros Hk. rewrite byte_at_div by assumption.
  pose proof (Z.mod_pos_bound (v / 2 ^ k) 256 ltac:(lia)). lia.
Qed.

Lemma draws_length (n : nat) : forall g, length (fst (draws n g)) = n.
Proof.
  induction n as [|n IH]; intros g; cbn [draws]; [reflexivity|].
  destruct (NextValue g) as [value g1]. specialize (IH g1).
  destruct (draws n g1) as [values g2]. cbn in *. now rewrite IH.
Qed.

Lemma draws_valid (n : nat) : forall g,
  valid g ->
  valid (snd (draws n g)) /\
  Forall (fun v => 1 <= v < LEHMER_M) (fst (draws n g)).
Proof.
  induction n as [|n IH]; intros g Hg; cbn [draws].
  - split; [exact Hg | constructor].
  - destruct (NextValue_valid g Hg) as [Hg1 Hv].
    destruct (NextValue g) as [value g1]. cbn [fst snd] in Hg1, Hv.
    destruct (IH g1 Hg1) as [Hg2 Hvs].
    destruct (draws n g1) as [values g2]. cbn [fst snd] in *.
    split; [exact Hg2 | constructor; assumption].
Qed.

(** X1: a generator built from an accepted seed never leaves the Lehmer
    range: whatever the number of draws, reseeds included, every value
    returned by [NextValue] lies in [1, 2^31 - 2] (in particular it is never
    0, on which the recurrence would get stuck), and so do the state and the
    seed state. *)
Theorem NextValue_stays_in_range (seed : Z) (g : t) (n : nat) :
  make seed = inr g ->
  length (fst (draws n g)) = n /\
  Forall (fun v => 1 <= v <= 2 ^ 31 - 2) (fst (draws n g)) /\
  valid (snd (draws n g)).
Proof.
  intros Hmake. destruct (make_valid seed g Hmake) as [Hg _].
  destruct (draws_valid n g Hg) as [Hvalid Hall].
  split; [apply draws_length|]. split; [|exact Hvalid].
  eapply Forall_impl; [|exact Hall]. cbn. unfold LEHMER_M. intros v Hv. lia.
Qed.

Lemma NextValue_stays_in_range_witness :
  Forall (fun v => 1 <= v <= 2 ^ 31 - 2)
         (fst (draws 5 (NextSeed {| _state := 0; _seedState := 7; _capacity := 0 |}))).
Proof.
  exact (proj1 (proj2 (NextValue_stays_in_range 7
                         (NextSeed {| _state := 0; _seedState := 7; _capacity := 0 |})
                         5 eq_refl))).
Defined.

(** X2: reseeding changes the seed, as the comment in [NextValue] promises:
    the new seed state differs from the old one, and two different seed
    states are never reseeded to the same one. *)
Theorem NextSeed_differs (g g' : t) :
  valid g -> valid g' ->
  _seedState (NextSeed g) <> _seedState g /\
  (_seedState (NextSeed g) = _seedState (NextSeed g') ->
   _seedState g = _seedState g') /\
  _state (NextSeed g) = _seedState (NextSeed g) /\
  _capacity (NextSeed g) = 2 ^ 31 - 2.
Proof.
  intros (_ & Hs & _) (_ & Hs' & _). unfold NextSeed. cbn [_seedState _state _capacity].
  split; [apply lehmer_no_fixed_point; exact Hs|].
  split; [|split; reflexivity].
  apply lehmer_injective; lia.
Qed.

Lemma NextSeed_differs_witness :
  _seedState (NextSeed (mk 48271 1 0)) <> _seedState (mk 48271 1 0).
Proof.
  refine (proj1 (NextSeed_differs (mk 48271 1 0) (mk 48271 1 0) _ _));
    unfold valid, LEHMER_M; cbn; lia.
Defined.

Lemma NextValue_no_reseed (g : t) :
  _capacity g <> 0 ->
  NextValue g
  = (lehmer (_state g),
     mk (lehmer (_state g)) (_seedState g) (_capacity g - 1)).
Proof.
  intros Hc. unfold NextValue. apply Z.eqb_neq in Hc. rewrite Hc. reflexivity.
Qed.

Lemma draws_no_reseed (n : nat) : forall g,
  Z.of_nat n <= _capacity g ->
  snd (draws n g)
  = mk (iter_lehmer n (_state g)) (_seedState g) (_capacity g - Z.of_nat n) /\
  (forall k, (k < n)%nat ->
     nth k (fst (draws n g)) 0 = iter_lehmer (S k) (_state g)).
Proof.
  induction n as [|n IH]; intros g Hn.
  - cbn [draws snd iter_lehmer]. split; [|intros k Hk; lia].
    destruct g as [s ss c]. cbn. f_equal. lia.
  - cbn [draws]. rewrite NextValue_no_reseed by lia.
    specialize (IH (mk (lehmer (_state g)) (_seedState g) (_capacity g - 1))).
    cbn [_capacity _state _seedState] in IH.
    destruct (IH ltac:(lia)) as [Hstate Hvals].
    destruct (draws n _) as [values g2]. cbn [fst snd] in *.
    split.
    + rewrite Hstate. cbn [iter_lehmer]. f_equal. lia.
    + intros [|k] Hk; [reflexivity|]. cbn [nth]. rewrite Hvals by lia. reflexivity.
Qed.

(** X3: a fresh generator serves exactly 2^31 - 2 values before it reseeds.
    The first [n <= 2^31 - 2] draws are the iterates of the Lehmer step on
    the state the constructor left, the seed state is untouched and the
    capacity has dropped by [n]; a draw at capacity 0 first reseeds, so it
    returns two Lehmer steps of the old seed state and leaves the capacity
    at 2^31 - 3. *)
Theorem draws_until_reseed (seed : Z) (g : t) (n : nat) :
  make seed = inr g -> Z.of_nat n <= 2 ^ 31 - 2 ->
  _state g = lehmer seed /\ _seedState g = lehmer seed /\
  snd (draws n g)
  = mk (iter_lehmer n (lehmer seed)) (lehmer seed) (2 ^ 31 - 2 - Z.of_nat n) /\
  (forall k, (k < n)%nat ->
     nth k (fst (draws n g)) 0 = iter_lehmer (S (S k)) seed) /\
  (forall g0, _capacity g0 = 0 ->
     NextValue g0
     = (lehmer (lehmer (_seedState g0)),
        mk (lehmer (lehmer (_seedState g0))) (lehmer (_seedState g0)) (2 ^ 31 - 3))).
Proof.
  intros Hmake Hn.
  assert (Hg : g = mk (lehmer seed) (lehmer seed) (LEHMER_M - 1)).
  { unfold make in Hmake. destruct (_ || _); [discriminate|].
    injection Hmake as <-. reflexivity. }
  subst g. cbn [_state _seedState].
  split; [reflexivity|]. split; [reflexivity|].
  destruct (draws_no_reseed n (mk (lehmer seed) (lehmer seed) (LEHMER_M - 1)))
    as [Hstate Hvals]; [cbn; unfold LEHMER_M; lia|].
  split; [exact Hstate|]. split; [exact Hvals|].
  intros g0 Hc. unfold NextValue. rewrite Hc. reflexivity.
Qed.

Lemma draws_until_reseed_witness :
  snd (draws 3 (NextSeed {| _state := 0; _seedState := 1; _capacity := 0 |}))
  = mk (iter_lehmer 3 (lehmer 1)) (lehmer 1) (2 ^ 31 - 2 - 3).
Proof.
  refine (proj1 (proj2 (proj2 (draws_until_reseed 1 _ 3 eq_refl _)))).
  cbn. lia.
Defined.

Lemma be32_byte_at (v : Z) :
  [byte_at v 24; byte_at v 16; byte_at v 8; byte_at v 0] = be32 v.
Proof.
  unfold be32. rewrite !byte_at_div by lia.
  rewrite Z.pow_0_r, Z.div_1_r. reflexivity.
Qed.

(** X4: the four octets [GenerateIPv4] returns are bytes, spell the drawn
    value in network order (decoding them gives the value back), and the
    first octet is at most 127: the values are below 2^31, so the generator
    never produces an address in the upper half of the IPv4 space. *)
Theorem GenerateIPv4_octets (g : t) :
  valid g ->
  fst (GenerateIPv4 g) = be32 (fst (NextValue g)) /\
  snd (GenerateIPv4 g) = snd (NextValue g) /\
  length (fst (GenerateIPv4 g)) = 4%nat /\
  Forall (fun b => 0 <= b <= 255) (fst (GenerateIPv4 g)) /\
  decode_be (fst (GenerateIPv4 g)) = fst (NextValue g) /\
  0 <= nth 0 (fst (GenerateIPv4 g)) 0 <= 127.
Proof.
  intros Hg. destruct (NextValue_valid g Hg) as [_ Hv].
  unfold GenerateIPv4. destruct (NextValue g) as [value g1]. cbn [fst snd] in *.
  unfold LEHMER_M in Hv.
  split; [apply be32_byte_at|]. split; [reflexivity|]. split; [reflexivity|].
  split; [repeat constructor; apply byte_at_range; lia|].
  split; [apply decode_be_bytes; lia|].
  cbn [nth]. rewrite byte_at_div by lia.
  change (2 ^ 24) with 16777216. Z.div_mod_to_equations. lia.
Qed.

Lemma GenerateIPv4_octets_witness :
  decode_be (fst (GenerateIPv4 (mk 48271 48271 5)))
  = fst (NextValue (mk 48271 48271 5)).
Proof.
  refine (proj1 (proj2 (proj2 (proj2 (proj2
            (GenerateIPv4_octets (mk 48271 48271 5) _)))))).
  unfold valid, LEHMER_M. cbn. lia.
Defined.

(** X5: [GenerateMac] and [GenerateIPv6] take two and four successive draws:
    a MAC address is the first six of the eight octets the two values spell
    in network order (the last two octets of the second value are dropped),
    an IPv6 address is the sixteen octets of the four values; the generator
    is left as after that many calls of [NextValue]. *)
Theorem GenerateMac_IPv6_draws (g : t) :
  GenerateMac g
  = (firstn 6 (concat (map be32 (fst (draws 2 g)))), snd (draws 2 g)) /\
  GenerateIPv6 g
  = (concat (map be32 (fst (draws 4 g))), snd (draws 4 g)) /\
  GenerateIPv4 g
  = (concat (map be32 (fst (draws 1 g))), snd (draws 1 g)) /\
  length (fst (GenerateMac g)) = 6%nat /\
  length (fst (GenerateIPv6 g)) = 16%nat.
Proof.
  unfold GenerateMac, GenerateIPv6, GenerateIPv4. cbn [draws].
  destruct (NextValue g) as [v0 g0].
  destruct (NextValue g0) as [v1 g1].
  destruct (NextValue g1) as [v2 g2].
  destruct (NextValue g2) as [v3 g3].
  cbn [fst snd map concat app firstn length].
  rewrite <- !be32_byte_at. cbn [app firstn].
  repeat split; reflexivity.
Qed.

End AddressStreamFacts.

(** * Packet size generator: budget and pool *)

Module PacketSizeGeneratorSlowMoreFacts.
Import PacketSizeGeneratorSlow PacketSizeGeneratorSlowMore.

Lemma sum_values_app (l1 l2 : list Z) :
  sum_values (l1 ++ l2) = sum_values l1 + sum_values l2.
Proof.
  unfold sum_values. induction l1 as [|x l1 IH]; cbn; [reflexivity | rewrite IH; ring].
Qed.

Lemma sum_values_perm (l1 l2 : list Z) :
  Permutation l1 l2 -> sum_values l1 = sum_values l2.
Proof.
  unfold sum_values. induction 1; cbn; try lia.
Qed.

Lemma wrap64_add_l (a b : Z) : wrap64 (wrap64 a + b) = wrap64 (a + b).
Proof. unfold wrap64. apply Zplus_mod_idemp_l. Qed.

Lemma wrap64_replace (S v n : Z) :
  wrap64 (wrap64 (wrap64 S - v) + n) = wrap64 (S - v + n).
Proof.
  rewrite wrap64_add_l. unfold wrap64.
  rewrite <- (Zplus_mod_idemp_l (S mod 2 ^ 64 - v)), Zminus_mod_idemp_l.
  now rewrite Zplus_mod_idemp_l.
Qed.

Section WithGenerator.
Context {RG : RandomGenerator} {SH : DefaultShuffle}.

Lemma fill_sum intervals probSum todo : forall done sum g,
  sum = wrap64 (sum_values done) ->
  snd (fst (fill intervals probSum done todo sum g))
  = wrap64 (sum_values (fst (fst (fill intervals probSum done todo sum g)))).
Proof.
  induction todo as [|v todo IH]; intros done sum g Hsum; cbn [fill].
  - exact Hsum.
  - unfold bind. destruct (GenerateRandomValue intervals probSum g) as [value g'].
    apply IH. rewrite Hsum, wrap64_add_l, sum_values_app. cbn. f_equal. ring.
Qed.

Lemma sweep_consistent intervals probSum B tmin tmax todo :
  forall done sum best bestv g,
  sum = wrap64 (sum_values (done ++ todo)) ->
  best = absdiff (wrap64 (sum_values bestv)) B ->
  length bestv = length (done ++ todo) ->
  consistent B (fst (sweep intervals probSum B tmin tmax done todo sum best bestv g)).
Proof.
  induction todo as [|v todo IH]; intros done sum best bestv g Hsum Hbest Hlen;
    cbn [sweep].
  - rewrite app_nil_r in Hsum, Hlen. repeat split; assumption.
  - unfold bind. destruct (GenerateRandomValue intervals probSum g) as [newValue g'].
    assert (Hnew : wrap64 (wrap64 (sum - v) + newValue)
                   = wrap64 (sum_values (done ++ newValue :: todo))).
    { rewrite Hsum, wrap64_replace. f_equal.
      rewrite !sum_values_app. cbn. ring. }
    assert (Hlen' : length (done ++ newValue :: todo) = length (done ++ v :: todo))
      by (rewrite !length_app; reflexivity).
    assert (Happ : (done ++ [newValue]) ++ todo = done ++ newValue :: todo)
      by (rewrite <- app_assoc; reflexivity).
    destruct (_ && _).
    + unfold ret. cbn [fst].
      split; [|split]; cbn [valuesSum values bestDiff bestValues];
        [exact Hnew | exact Hbest | congruence].
    + destruct (_ <? best).
      * apply IH; rewrite ?Happ; [exact Hnew | now rewrite Hnew | reflexivity].
      * apply IH; rewrite ?Happ; [exact Hnew | exact Hbest | congruence].
Qed.

Lemma attempts_consistent n intervals N B tmin tmax : forall st g,
  consistent B st ->
  consistent B (fst (attempts n intervals N B tmin tmax st g)).
Proof.
  induction n as [|n IH]; intros st g Hst; cbn [attempts]; [exact Hst|].
  destruct (_ || _); [|exact Hst].
  unfold bind. destruct Hst as (Hsum & Hbest & Hlen).
  pose proof (sweep_consistent
                (BiasIntervals (valuesSum st) tmin tmax (valuesSum st / N) intervals)
                (SumProbabilities
                   (BiasIntervals (valuesSum st) tmin tmax (valuesSum st / N) intervals))
                B tmin tmax (values st) [] (valuesSum st) (bestDiff st)
                (bestValues st) g Hsum Hbest Hlen) as Hsweep.
  destruct (sweep _ _ _ _ _ _ _ _ _ _ g) as [st' g']. cbn [fst] in Hsweep.
  apply IH. destruct Hsweep as (Hsum' & Hbest' & Hlen').
  destruct (_ <? _); [|repeat split; assumption].
  split; [|split]; cbn [valuesSum values bestDiff bestValues];
    [exact Hsum' | now rewrite Hsum' | reflexivity].
Qed.

Lemma GenerateBest_consistent N B s g :
  consistent B (fst (GenerateBest N B s g)).
Proof.
  unfold GenerateBest, bind.
  pose proof (fill_sum (_intervals s) (SumProbabilities (_intervals s))
                (resize (Z.to_nat N) (_values s)) [] 0 g eq_refl) as Hfill.
  destruct (fill _ _ _ _ _ g) as [[vs sum] g']. cbn [fst snd] in Hfill.
  apply attempts_consistent.
  split; [|split]; cbn [valuesSum values bestDiff bestValues];
    [exact Hfill | now rewrite Hfill | reflexivity].
Qed.

End WithGenerator.

(** X6: whatever branch it takes, [Generate(N, B)] leaves exactly [N] values
    in the pool and touches nothing else of the object: the intervals, the
    requested counts and the assigned counters are as before. *)
Theorem Generate_pool_size {RG : RandomGenerator} {SH : DefaultShuffle}
  (SHS : DefaultShuffleSpec SH) (N B : Z) (s : t) (g : rng) :
  length (_values (fst (Generate N B s g))) = Z.to_nat N /\
  fst (Generate N B s g) = set_values s (_values (fst (Generate N B s g))).
Proof.
  unfold Generate.
  destruct ((N =? 0) || (B =? 0)) eqn:H0.
  - cbn [fst set_values _values]. split; [apply PacketSizeGeneratorSlowFacts.resize_length | reflexivity].
  - destruct (N =? 1) eqn:H1.
    + cbn [fst set_values _values]. apply Z.eqb_eq in H1. subst N.
      change (Z.to_nat 1) with 1%nat.
      split; [|reflexivity].
      pose proof (PacketSizeGeneratorSlowFacts.resize_length 1 (_values s)) as Hl.
      destruct (resize 1 (_values s)) as [|x l]; [discriminate Hl | exact Hl].
    + unfold bind.
      pose proof (PacketSizeGeneratorSlowFacts.GenerateBest_length N B s g) as Hlen.
      pose proof (GenerateBest_consistent N B s g) as (_ & _ & Hblen).
      destruct (GenerateBest N B s g) as [st g']. cbn [fst] in Hlen, Hblen.
      destruct (fallback_to_uniform (bestDiff st) B); unfold ret;
        cbn [fst set_values _values].
      * split; [now rewrite length_map | reflexivity].
      * split; [|reflexivity].
        rewrite (Permutation_length (shuffle_perm (bestValues st))). lia.
Qed.

Lemma Generate_pool_size_witness :
  length (_values (fst (@Generate Stub.Scripted Stub.Reversing 5 400
                                  (make Stub.one_interval 5 400) ([], [1; 2; 3]))))
  = Z.to_nat 5.
Proof.
  exact (proj1 (@Generate_pool_size Stub.Scripted Stub.Reversing Reversing_spec
                  5 400 (make Stub.one_interval 5 400) ([], [1; 2; 3]))).
Defined.

(** X7: when a run of [Generate] with [N >= 2] and [B >= 1] does not fall
    back to the uniform fill, the sum of the installed pool (modulo 2^64, as
    the code adds it up) differs from [B] by exactly the best difference the
    run observed, so the pool itself passes the 0.2 test of line 172. *)
Theorem Generate_pool_sum {RG : RandomGenerator} {SH : DefaultShuffle}
  (SHS : DefaultShuffleSpec SH) (N B : Z) (s : t) (g : rng) :
  2 <= N -> 1 <= B ->
  fallback_to_uniform (bestDiff (fst (GenerateBest N B s g))) B = false ->
  absdiff (wrap64 (sum_values (_values (fst (Generate N B s g))))) B
  = bestDiff (fst (GenerateBest N B s g)) /\
  fallback_to_uniform
    (absdiff (wrap64 (sum_values (_values (fst (Generate N B s g))))) B) B
  = false.
Proof.
  intros HN HB Hfall.
  assert (Hsum : absdiff (wrap64 (sum_values (_values (fst (Generate N B s g))))) B
                 = bestDiff (fst (GenerateBest N B s g))).
  { unfold Generate.
    replace (N =? 0) with false by (symmetry; apply Z.eqb_neq; lia).
    replace (B =? 0) with false by (symmetry; apply Z.eqb_neq; lia).
    replace (N =? 1) with false by (symmetry; apply Z.eqb_neq; lia).
    cbn [orb]. unfold bind.
    pose proof (GenerateBest_consistent N B s g) as (_ & Hbest & _).
    destruct (GenerateBest N B s g) as [st g']. cbn [fst] in Hfall, Hbest |- *.
    rewrite Hfall. unfold ret. cbn [fst set_values _values].
    rewrite (sum_values_perm _ _ (shuffle_perm (bestValues st))).
    symmetry. exact Hbest. }
  split; [exact Hsum | rewrite Hsum; exact Hfall].
Qed.

Lemma Generate_pool_sum_witness :
  absdiff (wrap64 (sum_values
             (_values (fst (@Generate Stub.Scripted Stub.Reversing 2 100
                                      (make Stub.one_interval 2 100) ([], [3; 11]))))))
          100
  = bestDiff (fst (@GenerateBest Stub.Scripted 2 100
                                 (make Stub.one_interval 2 100) ([], [3; 11]))).
Proof.
  refine (proj1 (@Generate_pool_sum Stub.Scripted Stub.Reversing Reversing_spec
                   2 100 (make Stub.one_interval 2 100) ([], [3; 11]) _ _ _)).
  - lia.
  - lia.
  - vm_compute. reflexivity.
Defined.

(** ** [GetValue] *)

Lemma GetValue_back {RG : RandomGenerator} (s : t) (g : rng) front v :
  _values s = front ++ [v] ->
  GetValue s g = ((v, assign (set_values s front) v), g).
Proof.
  intros Hpool. unfold GetValue. rewrite Hpool, rev_app_distr. cbn [rev app].
  rewrite rev_involutive. reflexivity.
Qed.

(** X8: [GetValue] on a pool that is not empty returns the last value of the
    pool and removes it, without drawing; on an empty pool it draws a fresh
    value, which lies inside the intervals of the generator, and the pool
    stays empty.  Either way the call counts one packet and the returned
    value. *)
Theorem GetValue_back_or_draw {RG : RandomGenerator}
  (RGS : RandomGeneratorSpec RG) (s : t) (g : rng) :
  _intervals s <> [] -> well_formed (_intervals s) ->
  (forall front v, _values s = front ++ [v] ->
     GetValue s g = ((v, assign (set_values s front) v), g)) /\
  (_values s = [] ->
     in_intervals (_intervals s) (fst (fst (GetValue s g))) /\
     _values (snd (fst (GetValue s g))) = []) /\
  _assignedPkts (snd (fst (GetValue s g))) = wrap64 (_assignedPkts s + 1) /\
  _assignedBytes (snd (fst (GetValue s g)))
  = wrap64 (_assignedBytes s + fst (fst (GetValue s g))).
Proof.
  intros Hne Hwf. split; [intros front v; apply GetValue_back|].
  split.
  - intros Hempty. unfold GetValue. rewrite Hempty. cbn [rev]. unfold bind.
    pose proof (ValuesInIntervals.GenerateRandomValue_in (_intervals s) g Hne Hwf)
      as Hin.
    destruct (GenerateRandomValue _ _ g) as [value g']. cbn [fst] in Hin.
    unfold ret. cbn [fst snd assign _values]. split; assumption.
  - unfold GetValue. destruct (rev (_values s)) as [|value front].
    + unfold bind. destruct (GenerateRandomValue _ _ g) as [value g'].
      split; reflexivity.
    + split; reflexivity.
Qed.

Lemma GetValue_back_or_draw_witness :
  in_intervals Stub.one_interval
    (fst (fst (@GetValue Stub.Scripted (make Stub.one_interval 1 60) ([], [4])))).
Proof.
  refine (proj1 (proj1 (proj2
            (@GetValue_back_or_draw Stub.Scripted Scripted_spec
               (make Stub.one_interval 1 60) ([], [4]) _
               ValuesInIntervals.one_interval_well_formed)) eq_refl)).
  discriminate.
Defined.

Lemma wrap64_range (z : Z) : 0 <= wrap64 z < 2 ^ 64.
Proof. unfold wrap64. apply Z.mod_pos_bound. lia. Qed.

(** X9: asking a pool of at least [n] values for [n] values in a row draws
    nothing from the random generator: the calls return the last [n] values
    of the pool, last one first, leave the first [length - n] values in
    place, and count [n] packets and the sum of the returned values. *)
Theorem GetValues_drain {RG : RandomGenerator} (n : nat) (s : t) (g : rng) :
  (n <= length (_values s))%nat ->
  0 <= _assignedPkts s < 2 ^ 64 -> 0 <= _assignedBytes s < 2 ^ 64 ->
  GetValues n s g
  = ((rev (skipn (length (_values s) - n) (_values s)),
      mk (_intervals s) (_numPkts s) (_numBytes s)
         (firstn (length (_values s) - n) (_values s))
         (wrap64 (_assignedPkts s + Z.of_nat n))
         (wrap64 (_assignedBytes s
                  + sum_values (skipn (length (_values s) - n) (_values s))))),
     g).
Proof.
  revert s g. induction n as [|n IH]; intros s g Hn Hp Hb.
  - cbn [GetValues]. unfold ret. rewrite Nat.sub_0_r, skipn_all, firstn_all.
    cbn [rev sum_values fold_right]. rewrite !Z.add_0_r.
    unfold wrap64. rewrite !Z.mod_small by assumption.
    destruct s; reflexivity.
  - destruct (exists_last (l := _values s)) as (front & v & Hpool).
    { intros Hnil. rewrite Hnil in Hn. cbn in Hn. lia. }
    cbn [GetValues]. unfold bind at 1. rewrite (GetValue_back s g front v Hpool).
    cbn [fst snd]. unfold bind at 1.
    assert (Hlen : length (_values s) = S (length front)).
    { rewrite Hpool, length_app. cbn. lia. }
    rewrite (IH (assign (set_values s front) v) g);
      cbn [assign set_values _values _assignedPkts _assignedBytes
           _intervals _numPkts _numBytes];
      [| lia | apply wrap64_range | apply wrap64_range].
    unfold ret. cbn [fst snd].
    replace (length (_values s) - S n)%nat with (length front - n)%nat by lia.
    rewrite Hpool, skipn_app, firstn_app.
    replace (length front - n - length front)%nat with 0%nat by lia.
    cbn [skipn firstn]. rewrite app_nil_r, rev_app_distr. cbn [rev app].
    rewrite !wrap64_add_l, sum_values_app. cbn [sum_values fold_right].
    f_equal. f_equal. f_equal; f_equal; lia.
Qed.

Lemma GetValues_drain_witness :
  fst (fst (@GetValues Stub.Scripted 2
              (set_values (make Stub.one_interval 3 180) [51; 52; 53]) ([], [])))
  = [53; 52].
Proof.
  rewrite (@GetValues_drain Stub.Scripted 2
             (set_values (make Stub.one_interval 3 180) [51; 52; 53]) ([], []));
    cbn; try lia.
  reflexivity.
Defined.

(** ** [GetValueExact] on a pool that is not empty *)

Lemma find_closest_spec (pool : list Z) (value : Z) (idx : list nat) :
  forall closest closestDiff,
  exists d,
    d <= closestDiff /\
    (forall i, In i idx -> d <= absdiff (nth i pool 0) value) /\
    ((find_closest pool value idx closest closestDiff = closest /\ d = closestDiff) \/
     (In (find_closest pool value idx closest closestDiff) idx /\
      d = absdiff (nth (find_closest pool value idx closest closestDiff) pool 0) value /\
      d < closestDiff)).
Proof.
  induction idx as [|i idx IH]; intros closest closestDiff; cbn [find_closest].
  - exists closestDiff. split; [lia|]. split; [intros i []|]. left. split; reflexivity.
  - destruct (absdiff (nth i pool 0) value <? closestDiff) eqn:Hlt.
    + apply Z.ltb_lt in Hlt.
      destruct (IH i (absdiff (nth i pool 0) value)) as (d & Hle & Hall & Hcase).
      exists d. split; [lia|]. split.
      * intros j [<- | Hj]; [exact Hle | apply Hall; exact Hj].
      * right. destruct Hcase as [[-> ->] | (Hin & Hd & Hdlt)].
        -- split; [left; reflexivity|]. split; [reflexivity | exact Hlt].
        -- split; [right; exact Hin|]. split; [exact Hd | lia].
    + apply Z.ltb_ge in Hlt.
      destruct (IH closest closestDiff) as (d & Hle & Hall & Hcase).
      exists d. split; [exact Hle|]. split.
      * intros j [<- | Hj]; [lia | apply Hall; exact Hj].
      * destruct Hcase as [[Hc Hd] | (Hin & Hd & Hdlt)].
        -- left. split; assumption.
        -- right. split; [right; exact Hin|]. split; assumption.
Qed.

Lemma split_at_nth (i : nat) : forall (l : list Z),
  (i < length l)%nat -> l = firstn i l ++ nth i l 0 :: skipn (S i) l.
Proof.
  induction i as [|i IH]; intros [|x l] Hi; cbn in Hi; try lia; cbn.
  - reflexivity.
  - f_equal. apply IH. lia.
Qed.

Lemma swap_remove_perm (i : nat) (v : list Z) :
  (i < length v)%nat ->
  Permutation v (nth i v 0 :: swap_remove i v) /\
  length v = S (length (swap_remove i v)).
Proof.
  intros Hi. destruct (exists_last (l := v)) as (front & lastv & ->).
  { intros ->. cbn in Hi. lia. }
  unfold swap_remove. rewrite rev_app_distr. cbn [rev app].
  rewrite removelast_last. rewrite length_app in Hi |- *. cbn [length] in Hi |- *.
  destruct (i <? length front)%nat eqn:Hlt.
  - apply Nat.ltb_lt in Hlt. rewrite app_nth1 by exact Hlt.
    pose proof (split_at_nth i front Hlt) as Hsplit.
    set (A := firstn i front) in *. set (B := skipn (S i) front) in *.
    set (x := nth i front 0) in *. split.
    + rewrite Hsplit, <- app_assoc. cbn [app].
      rewrite <- Permutation_middle. constructor.
      apply Permutation_app_head. symmetry. apply Permutation_cons_append.
    + rewrite Hsplit at 1. rewrite !length_app. cbn [length]. lia.
  - apply Nat.ltb_ge in Hlt. assert (i = length front) as -> by lia.
    rewrite nth_middle. split; [|lia].
    symmetry. apply Permutation_cons_append.
Qed.

(** X10: [GetValueExact(v)] on a pool that is not empty removes exactly one
    value and keeps the others (in some order).  For a pool of at most 1000
    values nothing is drawn and the value removed is one closest to [v],
    unless no value of the pool is closer to [v] than [v] is to 0: then the
    value at index 0 is removed. *)
Theorem GetValueExact_removes_closest {RG : RandomGenerator}
  (RGS : RandomGeneratorSpec RG) (value : Z) (s : t) (g : rng) :
  _values s <> [] ->
  exists closest,
    (closest < length (_values s))%nat /\
    Permutation (_values s)
      (nth closest (_values s) 0 :: _values (fst (GetValueExact value s g))) /\
    length (_values s) = S (length (_values (fst (GetValueExact value s g)))) /\
    (Z.of_nat (length (_values s)) <= 1000 ->
     snd (GetValueExact value s g) = g /\
     ((forall i, (i < length (_values s))%nat ->
         value <= absdiff (nth i (_values s) 0) value) ->
      closest = 0%nat) /\
     (forall i, (i < length (_values s))%nat ->
        absdiff (nth i (_values s) 0) value < value ->
        forall j, (j < length (_values s))%nat ->
          absdiff (nth closest (_values s) 0) value
          <= absdiff (nth j (_values s) 0) value)).
Proof.
  intros Hne.
  assert (Hlen : (0 < length (_values s))%nat)
    by (destruct (_values s); [congruence | cbn; lia]).
  unfold GetValueExact.
  replace (Z.of_nat (length (_values s)) =? 0) with false
    by (symmetry; apply Z.eqb_neq; lia).
  unfold bind, GET_EXACT_MAX_DISTANCE.
  destruct (Z.of_nat (length (_values s)) <=? 1000) eqn:Hsmall.
  - apply Z.leb_le in Hsmall. unfold ret. cbn [fst snd set_values assign _values].
    change (Z.to_nat 0) with 0%nat. rewrite Z.sub_0_r, Nat2Z.id.
    destruct (find_closest_spec (_values s) value (seq 0 (length (_values s)))
                0%nat value) as (d & Hd & Hall & Hcase).
    set (closest := find_closest (_values s) value (seq 0 (length (_values s)))
                                 0%nat value) in *.
    assert (Hc : (closest < length (_values s))%nat).
    { destruct Hcase as [[-> _] | (Hin & _)]; [exact Hlen|].
      apply in_seq in Hin. lia. }
    exists closest. split; [exact Hc|].
    destruct (swap_remove_perm closest (_values s) Hc) as [Hperm Hl].
    split; [exact Hperm|]. split; [exact Hl|].
    intros _. split; [reflexivity|]. split.
    + intros Hfar. destruct Hcase as [[-> _] | (Hin & -> & Hlt)]; [reflexivity|].
      specialize (Hfar closest Hc). lia.
    + intros i Hi Hnear j Hj.
      assert (Hdi : d <= absdiff (nth i (_values s) 0) value)
        by (apply Hall, in_seq; lia).
      destruct Hcase as [[_ ->] | (_ & -> & _)]; [lia|].
      apply Hall, in_seq. lia.
  - apply Z.leb_gt in Hsmall.
    pose proof (RandomUInt_range 0 (Z.of_nat (length (_values s)) - 1000) g
                  ltac:(lia)) as Hstart.
    destruct (RandomUInt 0 (Z.of_nat (length (_values s)) - 1000) g) as [start g'].
    cbn [fst] in Hstart. unfold ret. cbn [fst snd set_values assign _values].
    replace (start + 1000 - start) with 1000 by lia.
    destruct (find_closest_spec (_values s) value
                (seq (Z.to_nat start) (Z.to_nat 1000)) 0%nat value)
      as (d & _ & _ & Hcase).
    set (closest := find_closest (_values s) value
                      (seq (Z.to_nat start) (Z.to_nat 1000)) 0%nat value) in *.
    assert (Hc : (closest < length (_values s))%nat).
    { destruct Hcase as [[-> _] | (Hin & _)]; [exact Hlen|].
      apply in_seq in Hin. lia. }
    exists closest. split; [exact Hc|].
    destruct (swap_remove_perm closest (_values s) Hc) as [Hperm Hl].
    split; [exact Hperm|]. split; [exact Hl|]. intros Hle. lia.
Qed.

Lemma GetValueExact_removes_closest_witness :
  exists closest,
    (closest < 3)%nat /\
    Permutation [70; 40; 55]
      (nth closest [70; 40; 55] 0
       :: _values (fst (@GetValueExact Stub.Scripted 52
                          (set_values (make Stub.one_interval 3 180) [70; 40; 55])
                          ([], [])))).
Proof.
  destruct (@GetValueExact_removes_closest Stub.Scripted Scripted_spec 52
              (set_values (make Stub.one_interval 3 180) [70; 40; 55]) ([], []))
    as (closest & Hc & Hperm & _).
  - discriminate.
  - exists closest. split; [exact Hc | exact Hperm].
Defined.

End PacketSizeGeneratorSlowMoreFacts.

(** * Flows: construction, sizes and draining *)

Module FlowBuildFacts.
Import Flow FlowBuild.

(** ** [AdjustPacketSizesToL3] *)

Lemma AdjustPacketSizesToL3_error {HS : HeaderSizes} (intervals : list IntervalInfo) :
  forall e, AdjustPacketSizesToL3 intervals = inl e -> e = invalid_argument.
Proof.
  induction intervals as [|interval rest IH]; intros e; cbn [AdjustPacketSizesToL3].
  - discriminate.
  - destruct (_ || _); [intros [= <-]; reflexivity|].
    destruct (AdjustPacketSizesToL3 rest) as [e'|out]; [|discriminate].
    intros [= <-]. apply IH. reflexivity.
Qed.

(** X11: [AdjustPacketSizesToL3] throws [invalid_argument], and nothing
    else, exactly when some bound of some interval is smaller than the L2
    header; otherwise it returns as many intervals, each with both bounds
    lowered by the header size and its weight untouched, so that ordered
    bounds stay ordered.  With the PcapPlusPlus header size (14) the table of
    the file is accepted, and the adjusted table is not empty and well
    formed. *)
Theorem AdjustPacketSizesToL3_shifts {HS : HeaderSizes}
  (intervals : list IntervalInfo) :
  0 <= ETHER_HDR_SIZE < 2 ^ 31 ->
  Forall (fun i => 0 <= _from i < 2 ^ 64 /\ 0 <= _to i < 2 ^ 64) intervals ->
  (AdjustPacketSizesToL3 intervals = inl invalid_argument <->
   Exists (fun i => _from i < ETHER_HDR_SIZE \/ _to i < ETHER_HDR_SIZE) intervals) /\
  (forall e, AdjustPacketSizesToL3 intervals = inl e -> e = invalid_argument) /\
  (forall out,
     AdjustPacketSizesToL3 intervals = inr out ->
     Forall2 (fun i o => _from o = _from i - ETHER_HDR_SIZE /\
                         _to o = _to i - ETHER_HDR_SIZE /\
                         _probability o = _probability i) intervals out /\
     (well_formed intervals -> well_formed out)) /\
  (exists table,
     @PACKET_SIZE_PROBABILITIES Stub.Pcpp = inr table /\ table <> [] /\
     well_formed table /\
     map (fun i => (_from i, _to i)) table
     = [(50, 65); (66, 145); (146, 305); (306, 625); (626, 1265); (1266, 1486)]).
Proof.
  intros Hhdr Hrange.
  assert (Hw : wrap64 ETHER_HDR_SIZE = ETHER_HDR_SIZE)
    by (unfold wrap64; apply Z.mod_small; lia).
  split; [|split; [apply AdjustPacketSizesToL3_error|split]].
  - induction Hrange as [|interval rest Hi _ IH]; cbn [AdjustPacketSizesToL3].
    + split; [discriminate | intros H; inversion H].
    + rewrite Hw. destruct ((_from interval <? ETHER_HDR_SIZE)
                            || (_to interval <? ETHER_HDR_SIZE)) eqn:Hbad.
      * split; [intros _|reflexivity]. left.
        apply orb_true_iff in Hbad. rewrite !Z.ltb_lt in Hbad. exact Hbad.
      * apply orb_false_iff in Hbad. rewrite !Z.ltb_ge in Hbad.
        destruct (AdjustPacketSizesToL3 rest) as [e|out] eqn:Hrest.
        -- rewrite (AdjustPacketSizesToL3_error rest e Hrest) in *.
           split; [intros _; right; apply IH; reflexivity | reflexivity].
        -- split; [discriminate|]. intros Hex.
           inversion Hex as [? ? Hhere | ? ? Hthere]; subst; [lia|].
           apply IH in Hthere. discriminate Hthere.
  - induction Hrange as [|interval rest Hi _ IH]; intros out;
      cbn [AdjustPacketSizesToL3].
    + intros [= <-]. split; [constructor | intros _; constructor].
    + rewrite Hw. destruct (_ || _) eqn:Hbad; [discriminate|].
      apply orb_false_iff in Hbad. rewrite !Z.ltb_ge in Hbad.
      destruct (AdjustPacketSizesToL3 rest) as [e|out'] eqn:Hrest; [discriminate|].
      intros [= <-]. destruct (IH out' eq_refl) as [Hshift Hwf].
      assert (Hf : wrap64 (_from interval - ETHER_HDR_SIZE)
                   = _from interval - ETHER_HDR_SIZE)
        by (unfold wrap64; apply Z.mod_small; lia).
      assert (Ht : wrap64 (_to interval - ETHER_HDR_SIZE)
                   = _to interval - ETHER_HDR_SIZE)
        by (unfold wrap64; apply Z.mod_small; lia).
      rewrite Hf, Ht. split.
      * constructor; [cbn; auto | exact Hshift].
      * intros Hwfi. inversion Hwfi as [|? ? [Hord Hp] Hwfr]; subst.
        constructor; [cbn; split; [lia | exact Hp] | apply Hwf; exact Hwfr].
  - eexists. split; [vm_compute; reflexivity|]. split; [discriminate|].
    split; [|reflexivity].
    repeat constructor; cbn; lia.
Qed.

Lemma AdjustPacketSizesToL3_shifts_witness :
  @AdjustPacketSizesToL3 Stub.Pcpp [mkInterval 64 79 1; mkInterval 10 20 1]
  = inl invalid_argument.
Proof.
  refine (proj2 (proj1 (@AdjustPacketSizesToL3_shifts Stub.Pcpp
                          [mkInterval 64 79 1; mkInterval 10 20 1] _ _)) _).
  - cbn. lia.
  - repeat constructor; cbn; lia.
  - right. left. cbn. lia.
Defined.

(** ** Layer stacks *)

Lemma AddLayer_numbered (layerStack : list Layer.t) (k : Layer.kind) :
  Z.of_nat (length layerStack) < 2 ^ 64 ->
  numbered layerStack -> numbered (AddLayer layerStack k).
Proof.
  intros Hlen Hnum i layer Hnth. unfold AddLayer in Hnth.
  destruct (Nat.lt_ge_cases i (length layerStack)) as [Hlt | Hge].
  - rewrite nth_error_app1 in Hnth by exact Hlt. apply Hnum. exact Hnth.
  - rewrite nth_error_app2 in Hnth by exact Hge.
    destruct (i - length layerStack)%nat as [|j] eqn:Hj.
    + cbn in Hnth. injection Hnth as <-. cbn [Layer._flow Layer._layerNumber Layer.AddedToFlow].
      split; [reflexivity|]. unfold wrap64. rewrite Z.mod_small by lia. lia.
    + cbn in Hnth. destruct j; discriminate Hnth.
Qed.

Lemma AddLayer_kinds (layerStack : list Layer.t) (k : Layer.kind) :
  kinds (AddLayer layerStack k) = kinds layerStack ++ [k] /\
  length (AddLayer layerStack k) = S (length layerStack).
Proof.
  unfold kinds, AddLayer. rewrite map_app, length_app. cbn. split; [reflexivity | lia].
Qed.

(** The loop over the chosen encapsulation never throws: an entry is a VLAN
    entry or an MPLS entry, and each adds its layer on top. *)
Lemma add_encapsulation_ok (encapsLayers : list EncapsulationLayer) :
  forall layerStack,
  exists stack,
    add_encapsulation layerStack encapsLayers = inr stack /\
    kinds stack = kinds layerStack ++ map encapsulation_kind encapsLayers /\
    length stack = (length layerStack + length encapsLayers)%nat /\
    (Z.of_nat (length layerStack + length encapsLayers) < 2 ^ 64 ->
     numbered layerStack -> numbered stack).
Proof.
  induction encapsLayers as [|layer rest IH]; intros layerStack;
    cbn [add_encapsulation map length].
  - exists layerStack. rewrite app_nil_r, Nat.add_0_r.
    split; [reflexivity|]. split; [reflexivity|]. split; [reflexivity|].
    intros _ Hnum. exact Hnum.
  - assert (Hstep : match get_if_vlan layer with
                    | Some id => add_encapsulation (AddLayer layerStack (Layer.Vlan id)) rest
                    | None =>
                        match get_if_mpls layer with
                        | Some label =>
                            add_encapsulation (AddLayer layerStack (Layer.Mpls label)) rest
                        | None => inl runtime_error
                        end
                    end
                    = add_encapsulation (AddLayer layerStack (encapsulation_kind layer)) rest)
      by (destruct layer; reflexivity).
    rewrite Hstep.
    destruct (IH (AddLayer layerStack (encapsulation_kind layer)))
      as (stack & Heq & Hk & Hl & Hnum).
    exists stack. split; [exact Heq|].
    rewrite (proj1 (AddLayer_kinds _ _)), <- app_assoc in Hk.
    rewrite (proj2 (AddLayer_kinds _ _)) in Hl, Hnum.
    split; [exact Hk|]. split; [lia|].
    intros Hlen Hn. apply Hnum; [lia|]. apply AddLayer_numbered; [lia | exact Hn].
Qed.

(** X12: in a stack whose layers were all added with [AddLayer], every layer
    carries its own position, and [GetNextLayer] of the layer at position [i]
    is the layer at position [i + 1]: the next layer up, or nothing for the
    top of the stack. *)
Theorem GetNextLayer_is_next (kinds_added : list Layer.kind) (i : nat) (layer : Layer.t) :
  Z.of_nat (length kinds_added) < 2 ^ 64 ->
  nth_error (fold_left AddLayer kinds_added []) i = Some layer ->
  Layer._layerNumber layer = Z.of_nat i /\
  Layer._kind layer = nth i kinds_added Layer.Payload /\
  Layer.GetNextLayer (fold_left AddLayer kinds_added []) layer
  = nth_error (fold_left AddLayer kinds_added []) (S i) /\
  (S i = length kinds_added ->
   Layer.GetNextLayer (fold_left AddLayer kinds_added []) layer = None).
Proof.
  intros Hlen Hnth.
  assert (Hgen : forall ks stack,
            Z.of_nat (length stack + length ks) < 2 ^ 64 ->
            numbered stack ->
            numbered (fold_left AddLayer ks stack) /\
            kinds (fold_left AddLayer ks stack) = kinds stack ++ ks).
  { induction ks as [|k ks IH]; intros stack Hl Hn; cbn [fold_left].
    - rewrite app_nil_r. split; [exact Hn | reflexivity].
    - cbn [length] in Hl.
      destruct (IH (AddLayer stack k)) as [Hn' Hk'].
      + rewrite (proj2 (AddLayer_kinds _ _)). lia.
      + apply AddLayer_numbered; [lia | exact Hn].
      + split; [exact Hn'|]. rewrite Hk', (proj1 (AddLayer_kinds _ _)), <- app_assoc.
        reflexivity. }
  destruct (Hgen kinds_added []) as [Hnum Hkinds].
  { cbn. lia. }
  { intros j l Hj. destruct j; discriminate Hj. }
  cbn [kinds map app] in Hkinds.
  set (stack := fold_left AddLayer kinds_added []) in *.
  assert (Hslen : length stack = length kinds_added).
  { rewrite <- Hkinds. unfold kinds. now rewrite length_map. }
  destruct (Hnum i layer Hnth) as [Hflow Hnumber].
  assert (Hi : (i < length stack)%nat) by (apply nth_error_Some; congruence).
  split; [exact Hnumber|]. split.
  { rewrite <- Hkinds. unfold kinds.
    rewrite (nth_indep _ Layer.Payload (Layer._kind layer)) by (rewrite length_map; lia).
    rewrite map_nth. f_equal. symmetry. apply nth_error_nth. exact Hnth. }
  assert (Hnext : Layer.GetNextLayer stack layer = nth_error stack (S i)).
  { unfold Layer.GetNextLayer. rewrite Hflow, Hnumber. cbn [negb orb].
    unfold wrap64. rewrite Z.mod_small by lia.
    destruct (Z.of_nat i >=? Z.of_nat (length stack) - 1) eqn:Hlast;
      rewrite Z.geb_leb in Hlast.
    - apply Z.leb_le in Hlast. symmetry. apply nth_error_None. lia.
    - f_equal. lia. }
  split; [exact Hnext|].
  intros Hlast. rewrite Hnext. apply nth_error_None. lia.
Qed.

Lemma GetNextLayer_is_next_witness :
  Layer.GetNextLayer
    (fold_left AddLayer [Layer.Ethernet [] []; Layer.Vlan 7; Layer.Payload] [])
    (Layer.mk (Layer.Vlan 7) true 1)
  = Some (Layer.mk Layer.Payload true 2).
Proof.
  destruct (GetNextLayer_is_next [Layer.Ethernet [] []; Layer.Vlan 7; Layer.Payload]
              1 (Layer.mk (Layer.Vlan 7) true 1)) as (_ & _ & Hnext & _).
  - cbn. lia.
  - reflexivity.
  - rewrite Hnext. reflexivity.
Defined.

(** ** The constructor *)

Lemma draws_snd_add (a b : nat) : forall ag,
  snd (AddressStream.draws (a + b) ag)
  = snd (AddressStream.draws b (snd (AddressStream.draws a ag))).
Proof.
  induction a as [|a IH]; intros ag; cbn [Nat.add AddressStream.draws]; [reflexivity|].
  destruct (AddressGenerators.NextValue ag) as [v ag1]. specialize (IH ag1).
  destruct (AddressStream.draws (a + b) ag1) as [vs ag2].
  destruct (AddressStream.draws a ag1) as [vs' ag3]. cbn [snd] in *. exact IH.
Qed.

Lemma Generate_states (ag : AddressGenerators.t) :
  snd (AddressGenerators.GenerateMac ag) = snd (AddressStream.draws 2 ag) /\
  snd (AddressGenerators.GenerateIPv4 ag) = snd (AddressStream.draws 1 ag) /\
  snd (AddressGenerators.GenerateIPv6 ag) = snd (AddressStream.draws 4 ag).
Proof.
  unfold AddressGenerators.GenerateMac, AddressGenerators.GenerateIPv4,
    AddressGenerators.GenerateIPv6. cbn [AddressStream.draws].
  destruct (AddressGenerators.NextValue ag) as [v0 g0].
  destruct (AddressGenerators.NextValue g0) as [v1 g1].
  destruct (AddressGenerators.NextValue g1) as [v2 g2].
  destruct (AddressGenerators.NextValue g2) as [v3 g3].
  repeat split; reflexivity.
Qed.

Lemma address_or_state given get generate n ag :
  (forall ag0, snd (generate ag0) = snd (AddressStream.draws n ag0)) ->
  snd (address_or given get generate ag)
  = snd (AddressStream.draws
           (match given with Some _ => 0 | None => n end) ag).
Proof.
  intros Hgen. unfold address_or. destruct given; [reflexivity | apply Hgen].
Qed.

Lemma build_layers_consumes {RG : RandomGenerator} {HS : HeaderSizes}
  (profile : FlowProfile) (config : Config) (ag : AddressGenerators.t) (g : rng) :
  snd (build_layers profile config ag g) = snd (ChooseEncaps (GetVariants config) g) /\
  snd (fst (build_layers profile config ag g))
  = snd (AddressStream.draws (values_taken profile) ag).
Proof.
  unfold build_layers, values_taken, missing_addresses.
  destruct (Generate_states ag) as [Hmac1 _].
  destruct (AddressGenerators.GenerateMac ag) as [macSrc ag1]. cbn [snd] in Hmac1.
  destruct (Generate_states ag1) as [Hmac2 _].
  destruct (AddressGenerators.GenerateMac ag1) as [macDst ag2]. cbn [snd] in Hmac2.
  assert (H4 : ag2 = snd (AddressStream.draws 4 ag)).
  { change 4%nat with (2 + 2)%nat.
    rewrite (draws_snd_add 2 2 ag), <- Hmac1, <- Hmac2. reflexivity. }
  destruct (ChooseEncaps (GetVariants config) g) as [encaps g']. cbn [snd].
  destruct (add_encapsulation_ok encaps (AddLayer [] (Layer.Ethernet macSrc macDst)))
    as (lower & -> & _).
  destruct (_l3Proto profile).
  - cbn [fst snd]. split; [reflexivity | exact H4].
  - pose proof (address_or_state (_srcIp profile) getIPv4
                  AddressGenerators.GenerateIPv4 1 ag2
                  (fun a => proj1 (proj2 (Generate_states a)))) as Hsrc.
    destruct (address_or (_srcIp profile) getIPv4 _ ag2) as [ipSrc ag3].
    pose proof (address_or_state (_dstIp profile) getIPv4
                  AddressGenerators.GenerateIPv4 1 ag3
                  (fun a => proj1 (proj2 (Generate_states a)))) as Hdst.
    destruct (address_or (_dstIp profile) getIPv4 _ ag3) as [ipDst ag4].
    cbn [fst snd] in *. split; [reflexivity|].
    rewrite Hdst, Hsrc, H4, <- !draws_snd_add.
    destruct (_srcIp profile), (_dstIp profile); reflexivity.
  - pose proof (address_or_state (_srcIp profile) getIPv6
                  AddressGenerators.GenerateIPv6 4 ag2
                  (fun a => proj2 (proj2 (Generate_states a)))) as Hsrc.
    destruct (address_or (_srcIp profile) getIPv6 _ ag2) as [ipSrc ag3].
    pose proof (address_or_state (_dstIp profile) getIPv6
                  AddressGenerators.GenerateIPv6 4 ag3
                  (fun a => proj2 (proj2 (Generate_states a)))) as Hdst.
    destruct (address_or (_dstIp profile) getIPv6 _ ag3) as [ipDst ag4].
    cbn [fst snd] in *. split; [reflexivity|].
    rewrite Hdst, Hsrc, H4, <- !draws_snd_add.
    destruct (_srcIp profile), (_dstIp profile); reflexivity.
Qed.

Lemma choose_variant_in (variants : list EncapsulationVariant) (rand : float) :
  forall accum,
  choose_variant variants rand accum = [] \/
  exists variant, In variant variants /\
                  choose_variant variants rand accum = GetLayers variant.
Proof.
  induction variants as [|v variants IH]; intros accum; cbn [choose_variant].
  - left. reflexivity.
  - destruct (_ <=? _)%float.
    + right. exists v. split; [left; reflexivity | reflexivity].
    + destruct (IH (accum + GetProbability v)%float) as [H | (w & Hin & H)].
      * left. exact H.
      * right. exists w. split; [right; exact Hin | exact H].
Qed.

Lemma ChooseEncaps_bound {RG : RandomGenerator}
  (variants : list EncapsulationVariant) (g : rng) :
  Forall (fun v => Z.of_nat (length (GetLayers v)) < 2 ^ 32) variants ->
  Z.of_nat (length (fst (ChooseEncaps variants g))) < 2 ^ 32.
Proof.
  intros Hall. unfold ChooseEncaps. destruct variants as [|v variants]; [cbn; lia|].
  unfold bind, ret. destruct (RandomDouble_default g) as [rand g']. cbn [fst].
  destruct (choose_variant_in (v :: variants) rand 0%float) as [-> | (w & Hin & ->)].
  - cbn. lia.
  - rewrite Forall_forall in Hall. apply Hall. exact Hin.
Qed.

Lemma add_l4_spec {HS : HeaderSizes} (profile : FlowProfile)
  (layerStack : list Layer.t) :
  Z.of_nat (length layerStack) < 2 ^ 64 - 2 -> numbered layerStack ->
  match add_l4 profile layerStack with
  | inl e =>
      e = runtime_error /\
      (_l4Proto profile = L4Protocol.Unknown \/
       (_l4Proto profile = L4Protocol.Icmp /\ _l3Proto profile <> Ipv4) \/
       (_l4Proto profile = L4Protocol.Icmpv6 /\ _l3Proto profile <> Ipv6))
  | inr stack =>
      numbered stack /\
      kinds stack = kinds layerStack ++ l4_kinds profile /\
      _l4Proto profile <> L4Protocol.Unknown /\
      (_l4Proto profile = L4Protocol.Icmp -> _l3Proto profile = Ipv4) /\
      (_l4Proto profile = L4Protocol.Icmpv6 -> _l3Proto profile = Ipv6)
  end.
Proof.
  intros Hlen Hnum. unfold add_l4, l4_kinds.
  assert (Hone : forall k, numbered (AddLayer layerStack k))
    by (intros k; apply AddLayer_numbered; [lia | exact Hnum]).
  assert (Htwo : forall k k', numbered (AddLayer (AddLayer layerStack k) k')).
  { intros k k'. apply AddLayer_numbered; [|apply Hone].
    rewrite (proj2 (AddLayer_kinds _ _)). lia. }
  destruct (_l4Proto profile) eqn:Hl4.
  - split; [reflexivity | left; reflexivity].
  - split; [apply Htwo|]. rewrite !(proj1 (AddLayer_kinds _ _)), <- app_assoc.
    repeat split; try reflexivity; discriminate.
  - split; [apply Htwo|]. rewrite !(proj1 (AddLayer_kinds _ _)), <- app_assoc.
    repeat split; try reflexivity; discriminate.
  - destruct (_l3Proto profile) eqn:Hl3.
    + split; [reflexivity|]. right. left. split; [reflexivity | discriminate].
    + split; [apply Hone|]. rewrite (proj1 (AddLayer_kinds _ _)).
      repeat split; try reflexivity; discriminate.
    + split; [reflexivity|]. right. left. split; [reflexivity | discriminate].
  - destruct (_l3Proto profile) eqn:Hl3.
    + split; [reflexivity|]. right. right. split; [reflexivity | discriminate].
    + split; [reflexivity|]. right. right. split; [reflexivity | discriminate].
    + split; [apply Hone|]. rewrite (proj1 (AddLayer_kinds _ _)).
      repeat split; try reflexivity; discriminate.
Qed.

(** The stack below the IP layer: Ethernet, then the chosen encapsulation. *)
Lemma lower_stack (macSrc macDst : list Z) (encaps : list EncapsulationLayer) :
  Z.of_nat (length encaps) < 2 ^ 32 ->
  exists lower,
    add_encapsulation (AddLayer [] (Layer.Ethernet macSrc macDst)) encaps = inr lower /\
    numbered lower /\
    kinds lower = Layer.Ethernet macSrc macDst :: map encapsulation_kind encaps /\
    length lower = S (length encaps).
Proof.
  intros Hlen.
  destruct (add_encapsulation_ok encaps (AddLayer [] (Layer.Ethernet macSrc macDst)))
    as (lower & Heq & Hk & Hl & Hnum).
  exists lower. split; [exact Heq|]. split; [|split; [exact Hk | exact Hl]].
  apply Hnum; [cbn; lia|].
  apply AddLayer_numbered; [cbn; lia|].
  intros i l Hi. destruct i; discriminate Hi.
Qed.

(** The statements that build the stack throw [runtime_error], and nothing
    else, exactly for the unsupported profiles; otherwise they leave the
    stack of the supported profile. *)
Lemma build_layers_stack {RG : RandomGenerator} {HS : HeaderSizes}
  (profile : FlowProfile) (config : Config) (ag : AddressGenerators.t) (g : rng) :
  Forall (fun v => Z.of_nat (length (GetLayers v)) < 2 ^ 32) (GetVariants config) ->
  (fst (fst (build_layers profile config ag g)) = inl runtime_error <->
   unsupported profile) /\
  (forall e, fst (fst (build_layers profile config ag g)) = inl e -> e = runtime_error) /\
  (forall layerStack,
     fst (fst (build_layers profile config ag g)) = inr layerStack ->
     numbered layerStack /\
     exists ipSrc ipDst,
       kinds layerStack
       = Layer.Ethernet
           (fst (AddressGenerators.GenerateMac ag))
           (fst (AddressGenerators.GenerateMac
                   (snd (AddressGenerators.GenerateMac ag))))
         :: map encapsulation_kind (fst (ChooseEncaps (GetVariants config) g))
         ++ match _l3Proto profile with
            | Ipv6 =>
                Layer.IPv6 ipSrc ipDst
                  (GetFragmentationProbability (GetIPv6 config))
                  (GetMinPacketSizeToFragment (GetIPv6 config))
            | _ =>
                Layer.IPv4 ipSrc ipDst
                  (GetFragmentationProbability (GetIPv4 config))
                  (GetMinPacketSizeToFragment (GetIPv4 config))
            end
         :: l4_kinds profile /\
       (forall ip, _srcIp profile = Some ip ->
          ipSrc = match _l3Proto profile with
                  | Ipv6 => getIPv6 ip
                  | _ => getIPv4 ip
                  end) /\
       (forall ip, _dstIp profile = Some ip ->
          ipDst = match _l3Proto profile with
                  | Ipv6 => getIPv6 ip
                  | _ => getIPv4 ip
                  end)).
Proof.
  intros Hvariants.
  pose proof (ChooseEncaps_bound (GetVariants config) g Hvariants) as Hbound.
  unfold build_layers, unsupported.
  destruct (AddressGenerators.GenerateMac ag) as [macSrc ag1]. cbn [fst snd].
  destruct (AddressGenerators.GenerateMac ag1) as [macDst ag2]. cbn [fst snd].
  destruct (ChooseEncaps (GetVariants config) g) as [encaps g']. cbn [fst] in Hbound |- *.
  destruct (lower_stack macSrc macDst encaps Hbound)
    as (lower & -> & Hnum & Hkinds & Hlen).
  destruct (_l3Proto profile) eqn:Hl3.
  - cbn [fst]. split; [split; [intros _; left; reflexivity | reflexivity]|].
    split; [intros e [= <-]; reflexivity | discriminate].
  - destruct (address_or (_srcIp profile) getIPv4 _ ag2) as [ipSrc ag3] eqn:Hsrc.
    destruct (address_or (_dstIp profile) getIPv4 _ ag3) as [ipDst ag4] eqn:Hdst.
    cbn [fst].
    set (ip := Layer.IPv4 ipSrc ipDst _ _).
    pose proof (add_l4_spec profile (AddLayer lower ip)) as Hl4.
    rewrite (proj2 (AddLayer_kinds _ _)), (proj1 (AddLayer_kinds _ _)), Hl3 in Hl4.
    specialize (Hl4 ltac:(lia) (AddLayer_numbered lower ip ltac:(lia) Hnum)).
    destruct (add_l4 profile (AddLayer lower ip)) as [e|stack].
    + destruct Hl4 as [-> Hwhy]. split; [|split; [intros e [= <-]; reflexivity | discriminate]].
      split; [intros _; right | reflexivity].
      destruct Hwhy as [H | [H | H]]; auto.
    + destruct Hl4 as (Hn & Hk & Hnot & Hicmp & Hicmp6).
      split; [|split; [discriminate|]].
      * split; [discriminate|]. intros [H | [H | [[H H'] | [H H']]]];
          try discriminate H; try contradiction;
          try (apply Hicmp in H; discriminate H);
          try (apply Hicmp6 in H; discriminate H).
      * intros layerStack [= <-]. split; [exact Hn|].
        exists ipSrc, ipDst. rewrite Hk, Hkinds, <- app_assoc. cbn [app].
        split; [reflexivity|]. unfold address_or in Hsrc, Hdst. split.
        -- intros a Ha. rewrite Ha in Hsrc. injection Hsrc as <- _. reflexivity.
        -- intros a Ha. rewrite Ha in Hdst. injection Hdst as <- _. reflexivity.
  - destruct (address_or (_srcIp profile) getIPv6 _ ag2) as [ipSrc ag3] eqn:Hsrc.
    destruct (address_or (_dstIp profile) getIPv6 _ ag3) as [ipDst ag4] eqn:Hdst.
    cbn [fst].
    set (ip := Layer.IPv6 ipSrc ipDst _ _).
    pose proof (add_l4_spec profile (AddLayer lower ip)) as Hl4.
    rewrite (proj2 (AddLayer_kinds _ _)), (proj1 (AddLayer_kinds _ _)), Hl3 in Hl4.
    specialize (Hl4 ltac:(lia) (AddLayer_numbered lower ip ltac:(lia) Hnum)).
    destruct (add_l4 profile (AddLayer lower ip)) as [e|stack].
    + destruct Hl4 as [-> Hwhy]. split; [|split; [intros e [= <-]; reflexivity | discriminate]].
      split; [intros _; right | reflexivity].
      destruct Hwhy as [H | [H | H]]; auto.
    + destruct Hl4 as (Hn & Hk & Hnot & Hicmp & Hicmp6).
      split; [|split; [discriminate|]].
      * split; [discriminate|]. intros [H | [H | [[H H'] | [H H']]]];
          try discriminate H; try contradiction;
          try (apply Hicmp in H; discriminate H);
          try (apply Hicmp6 in H; discriminate H).
      * intros layerStack [= <-]. split; [exact Hn|].
        exists ipSrc, ipDst. rewrite Hk, Hkinds, <- app_assoc. cbn [app].
        split; [reflexivity|]. unfold address_or in Hsrc, Hdst. split.
        -- intros a Ha. rewrite Ha in Hsrc. injection Hsrc as <- _. reflexivity.
        -- intros a Ha. rewrite Ha in Hdst. injection Hdst as <- _. reflexivity.
Qed.

(** X13: the constructor of [Flow] calls [Plan()] exactly for the profiles
    it supports.  For an unsupported profile (unknown L3 or L4 protocol, ICMP
    over anything but IPv4, ICMPv6 over anything but IPv6) it throws
    [runtime_error] before any planning, having used the shared random
    generator in [ChooseEncaps] only; the throw for an invalid encapsulation
    entry is never taken, every entry being a VLAN or an MPLS entry.
    Otherwise [Plan()] runs on the members taken from the profile and on this
    layer stack, bottom up: Ethernet with the two generated MAC addresses,
    the layers of the encapsulation variant that was chosen, the IP layer of
    the profile's family with the fragmentation settings of that family, the
    L4 layer, and a payload layer for TCP and UDP only.  An address given in
    the profile is used as it is, every layer knows its position in the
    stack, and the constructor ends as [Plan()] ends. *)
Theorem construct_stack {RG : RandomGenerator} {HS : HeaderSizes}
  {LE : LocalEngine} {PL : Planner}
  (profile : FlowProfile) (config : Config) (ag : AddressGenerators.t)
  (gen : engine) (g : rng) :
  Forall (fun v => Z.of_nat (length (GetLayers v)) < 2 ^ 32) (GetVariants config) ->
  (unsupported profile ->
   fst (fst (construct profile config ag gen g)) = inl runtime_error /\
   snd (construct profile config ag gen g)
   = snd (ChooseEncaps (GetVariants config) g)) /\
  (~ unsupported profile ->
   exists layerStack ipSrc ipDst,
     numbered layerStack /\
     kinds layerStack
     = Layer.Ethernet
         (fst (AddressGenerators.GenerateMac ag))
         (fst (AddressGenerators.GenerateMac
                 (snd (AddressGenerators.GenerateMac ag))))
       :: map encapsulation_kind (fst (ChooseEncaps (GetVariants config) g))
       ++ match _l3Proto profile with
          | Ipv6 =>
              Layer.IPv6 ipSrc ipDst
                (GetFragmentationProbability (GetIPv6 config))
                (GetMinPacketSizeToFragment (GetIPv6 config))
          | _ =>
              Layer.IPv4 ipSrc ipDst
                (GetFragmentationProbability (GetIPv4 config))
                (GetMinPacketSizeToFragment (GetIPv4 config))
          end
       :: l4_kinds profile /\
     (forall ip, _srcIp profile = Some ip ->
        ipSrc = match _l3Proto profile with
                | Ipv6 => getIPv6 ip
                | _ => getIPv4 ip
                end) /\
     (forall ip, _dstIp profile = Some ip ->
        ipDst = match _l3Proto profile with
                | Ipv6 => getIPv6 ip
                | _ => getIPv4 ip
                end) /\
     fst (fst (construct profile config ag gen g))
     = fst (Plan (members profile) layerStack gen
              (snd (ChooseEncaps (GetVariants config) g))) /\
     snd (construct profile config ag gen g)
     = snd (Plan (members profile) layerStack gen
              (snd (ChooseEncaps (GetVariants config) g)))).
Proof.
  intros Hvariants.
  destruct (build_layers_stack profile config ag g Hvariants)
    as (Hthrows & Honly & Hstack).
  destruct (build_layers_consumes profile config ag g) as [Hrng _].
  unfold construct.
  destruct (build_layers profile config ag g) as [[built ag'] g'].
  cbn [fst snd] in Hthrows, Honly, Hstack, Hrng. subst g'.
  split.
  - intros Hun. apply Hthrows in Hun. subst built. split; reflexivity.
  - intros Hsup. destruct built as [e | layerStack].
    + exfalso. apply Hsup, Hthrows. f_equal. apply Honly. reflexivity.
    + destruct (Hstack layerStack eq_refl)
        as (Hnum & ipSrc & ipDst & Hkinds & Hsrc & Hdst).
      exists layerStack, ipSrc, ipDst.
      split; [exact Hnum|]. split; [exact Hkinds|].
      split; [exact Hsrc|]. split; [exact Hdst|].
      destruct (Plan (members profile) layerStack gen
                  (snd (ChooseEncaps (GetVariants config) g))) as [result g''].
      split; reflexivity.
Qed.

Lemma construct_stack_witness :
  fst (fst (@construct Stub.Scripted Stub.Pcpp Stub.Replay NoPlan
              (mkFlowProfile 3 3 200 200 (mkTimeval 1 0) (mkTimeval 2 0)
                             Ipv4 L4Protocol.Icmpv6 None None 0 0)
              (mkConfig [] (mkIpConfig 0 512) (mkIpConfig 0 512))
              (AddressGenerators.mk 48271 48271 100) [] ([], [])))
  = inl runtime_error.
Proof.
  refine (proj1 (proj1 (@construct_stack Stub.Scripted Stub.Pcpp Stub.Replay NoPlan
                          (mkFlowProfile 3 3 200 200 (mkTimeval 1 0) (mkTimeval 2 0)
                                         Ipv4 L4Protocol.Icmpv6 None None 0 0)
                          (mkConfig [] (mkIpConfig 0 512) (mkIpConfig 0 512))
                          (AddressGenerators.mk 48271 48271 100) [] ([], []) _) _)).
  - constructor.
  - right. right. right. split; [reflexivity | discriminate].
Defined.

(** X14: whether it ends normally or throws, at whatever point, the
    constructor of [Flow] has taken from the address generator the four
    values of the two MAC addresses and, unless the L3 protocol is unknown,
    one value per IPv4 address (four per IPv6 address) that the profile does
    not supply; an address given in the profile costs nothing, and [Plan()],
    which is not given the address generators, takes none. *)
Theorem construct_consumes {RG : RandomGenerator} {HS : HeaderSizes}
  {LE : LocalEngine} {PL : Planner}
  (profile : FlowProfile) (config : Config) (ag : AddressGenerators.t)
  (gen : engine) (g : rng) :
  snd (fst (construct profile config ag gen g))
  = snd (AddressStream.draws (values_taken profile) ag) /\
  (_l3Proto profile = Ipv4 -> _srcIp profile = None -> _dstIp profile = None ->
   snd (fst (construct profile config ag gen g)) = snd (AddressStream.draws 6 ag)) /\
  (_l3Proto profile = Ipv6 -> _srcIp profile = None -> _dstIp profile = None ->
   snd (fst (construct profile config ag gen g)) = snd (AddressStream.draws 12 ag)) /\
  (forall src dst, _srcIp profile = Some src -> _dstIp profile = Some dst ->
   snd (fst (construct profile config ag gen g)) = snd (AddressStream.draws 4 ag)).
Proof.
  assert (Hall : snd (fst (construct profile config ag gen g))
                 = snd (AddressStream.draws (values_taken profile) ag)).
  { destruct (build_layers_consumes profile config ag g) as [_ Hag].
    unfold construct.
    destruct (build_layers profile config ag g) as [[built ag'] g'].
    cbn [fst snd] in Hag. subst ag'.
    destruct built as [e | layerStack]; [reflexivity|].
    destruct (Plan (members profile) layerStack gen g') as [result g''].
    reflexivity. }
  split; [exact Hall|]. rewrite Hall. unfold values_taken, missing_addresses.
  split; [|split].
  - intros -> -> ->. reflexivity.
  - intros -> -> ->. reflexivity.
  - intros src dst -> ->. destruct (_l3Proto profile); reflexivity.
Qed.

(** ** Draining a flow *)

Section WithPacketBuilder.
Context {PB : PacketBuilder}.

Lemma generate_prefix (n : nat) : forall f,
  (n <= length (_packets f))%nat ->
  generate n f
  = inr (map emitted (firstn n (_packets f)), set_packets f (skipn n (_packets f))).
Proof.
  induction n as [|n IH]; intros f Hn; cbn [generate].
  - cbn [firstn skipn map]. destruct f; reflexivity.
  - unfold GenerateNextPacket. destruct (_packets f) as [|p rest] eqn:Hp;
      [cbn in Hn; lia|].
    rewrite IH by (cbn in Hn |- *; lia). cbn [_packets set_packets firstn skipn map].
    reflexivity.
Qed.

Lemma generate_too_many (n : nat) : forall f,
  (length (_packets f) < n)%nat -> generate n f = inl runtime_error.
Proof.
  induction n as [|n IH]; intros f Hn; [lia|]. cbn [generate].
  unfold GenerateNextPacket. destruct (_packets f) as [|p rest] eqn:Hp;
    [reflexivity|].
  rewrite IH by (cbn in Hn |- *; lia). reflexivity.
Qed.

(** X15: [GenerateNextPacket] hands out the plans front first: called as
    many times as there are plans it never throws and yields, in plan order,
    the packet built from each plan together with that plan's direction and
    timestamp; the flow is then finished, and any further call throws
    [runtime_error].  [IsFinished] is true exactly when the next call would
    throw, and [GetNextPacketTime] is the timestamp of the plan that the next
    call will use. *)
Theorem generate_drains (f : t) :
  generate (length (_packets f)) f
  = inr (map emitted (_packets f), set_packets f []) /\
  IsFinished (set_packets f []) = true /\
  (forall n, (length (_packets f) < n)%nat -> generate n f = inl runtime_error) /\
  (IsFinished f = true <-> GenerateNextPacket f = inl runtime_error) /\
  (forall packet extra f',
     GenerateNextPacket f = inr (packet, extra, f') ->
     GetNextPacketTime f = Some (extra_time extra) /\
     length (_packets f) = S (length (_packets f'))).
Proof.
  split.
  { rewrite generate_prefix by lia. rewrite firstn_all, skipn_all. reflexivity. }
  split; [reflexivity|]. split; [intros n; apply generate_too_many|].
  unfold IsFinished, GenerateNextPacket, GetNextPacketTime.
  destruct (_packets f) as [|p rest].
  - split; [split; reflexivity | discriminate].
  - split; [split; discriminate|].
    intros packet extra f' [= <- <- <-]. split; reflexivity.
Qed.

Lemma draw_timestamps_length {LE : LocalEngine} (f : t) (n : nat) :
  forall timestamps gen,
  length (fst (draw_timestamps f n timestamps gen)) = (length timestamps + n)%nat.
Proof.
  induction n as [|n IH]; intros timestamps gen; cbn [draw_timestamps].
  - cbn. lia.
  - destruct (draw_timestamp f gen) as [time gen'].
    rewrite IH, length_app. cbn. lia.
Qed.

Lemma assign_timestamps_prefix packets : forall timestamps,
  (length packets <= length timestamps)%nat ->
  map _timestamp (assign_timestamps packets timestamps)
  = firstn (length packets) timestamps.
Proof.
  induction packets as [|p packets IH]; intros [|ts timestamps] Hlen;
    cbn in Hlen |- *; try lia; try reflexivity.
  f_equal. apply IH. lia.
Qed.

Lemma StronglySorted_firstn (n : nat) : forall l,
  StronglySorted Timeval_le l -> StronglySorted Timeval_le (firstn n l).
Proof.
  induction n as [|n IH]; intros l Hs; [constructor|].
  destruct l as [|x l]; [constructor|]. cbn [firstn].
  inversion Hs as [|? ? Hs' Hall]; subst. constructor; [apply IH; exact Hs'|].
  rewrite Forall_forall in Hall |- *. intros y Hy. apply Hall.
  rewrite <- (firstn_skipn n l). apply in_or_app. left. exact Hy.
Qed.

Lemma planned_timestamps_sorted {LE : LocalEngine} (f : t) (gen : engine) :
  StronglySorted Timeval_le
    (map _timestamp (_packets (PlanPacketsTimestamps f gen))).
Proof.
  unfold PlanPacketsTimestamps.
  pose proof (draw_timestamps_length f (length (_packets f) - 2)
                [_tsFirst f; _tsLast f] gen) as Hlen.
  destruct (draw_timestamps f _ _ gen) as [timestamps gen']. cbn [fst length] in Hlen.
  cbn [_packets set_packets].
  rewrite assign_timestamps_prefix
    by (rewrite (Permutation_length (FlowFacts.sort_perm timestamps)); lia).
  apply StronglySorted_firstn. apply FlowFacts.sort_sorted.
Qed.

(** X16: packets come out of a planned flow in time order.  Whatever the
    flow (any number of plans, any first and last timestamp) and whatever the
    local engine draws, the timestamps handed out by successive calls of
    [GenerateNextPacket] after [PlanPacketsTimestamps] never decrease. *)
Theorem planned_flow_generates_in_time_order {LE : LocalEngine}
  (f : t) (gen : engine) (n : nat)
  (out : list (PcppPacket * PacketExtraInfo)) (f' : t) :
  generate n (PlanPacketsTimestamps f gen) = inr (out, f') ->
  length out = n /\
  StronglySorted Timeval_le (map (fun x => extra_time (snd x)) out).
Proof.
  intros Hgen.
  destruct (Nat.le_gt_cases n (length (_packets (PlanPacketsTimestamps f gen))))
    as [Hn | Hn].
  - rewrite generate_prefix in Hgen by exact Hn. injection Hgen as <- _.
    split; [rewrite length_map, length_firstn; lia|].
    rewrite map_map.
    rewrite (map_ext _ _timestamp) by reflexivity.
    rewrite <- firstn_map. apply StronglySorted_firstn, planned_timestamps_sorted.
  - rewrite generate_too_many in Hgen by exact Hn. discriminate Hgen.
Qed.

End WithPacketBuilder.

Lemma planned_flow_generates_in_time_order_witness :
  exists out f',
    @generate SizeOnly 3
      (@PlanPacketsTimestamps Stub.Replay Stub.three_packets [3; 500000])
    = inr (out, f') /\
    map (fun x => extra_time (snd x)) out
    = [mkTimeval 10 0; mkTimeval 13 500000; mkTimeval 20 0] /\
    StronglySorted Timeval_le (map (fun x => extra_time (snd x)) out).
Proof.
  eexists. eexists. split; [vm_compute; reflexivity|].
  split; [reflexivity|].
  refine (proj2 (@planned_flow_generates_in_time_order SizeOnly Stub.Replay
                   Stub.three_packets [3; 500000] 3 _ _ _)).
  vm_compute. reflexivity.
Defined.

Section WithSizeGenerators.
Context {RG : RandomGenerator} {SH : DefaultShuffle}.

Import PacketSizeGeneratorSlow.

Lemma Generate_counters (desiredPkts desiredBytes : Z) (s : PacketSizeGeneratorSlow.t)
  (g : rng) :
  _assignedPkts (fst (Generate desiredPkts desiredBytes s g)) = _assignedPkts s.
Proof.
  unfold Generate.
  destruct ((desiredPkts =? 0) || (desiredBytes =? 0)); [reflexivity|].
  destruct (desiredPkts =? 1); [reflexivity|].
  unfold bind. destruct (GenerateBest _ _ _ g) as [st g'].
  destruct (fallback_to_uniform _ _); reflexivity.
Qed.

Lemma GetValue_counters (s : PacketSizeGeneratorSlow.t) (g : rng) :
  _assignedPkts (snd (fst (GetValue s g))) = wrap64 (_assignedPkts s + 1).
Proof.
  unfold GetValue. destruct (rev (_values s)) as [|value front]; [|reflexivity].
  unfold bind. destruct (GenerateRandomValue _ _ g) as [value g']. reflexivity.
Qed.

Lemma counted_step (s s' : PacketSizeGeneratorSlow.t) (n : nat) :
  _assignedPkts s = wrap64 (Z.of_nat n) ->
  _assignedPkts s' = wrap64 (_assignedPkts s + 1) ->
  _assignedPkts s' = wrap64 (Z.of_nat (S n)).
Proof.
  intros Hs Hs'. rewrite Hs', Hs, PacketSizeGeneratorSlowMoreFacts.wrap64_add_l.
  f_equal. lia.
Qed.

Lemma GetValueExact_counters (value : Z) (s : PacketSizeGeneratorSlow.t) (g : rng) :
  _assignedPkts (fst (GetValueExact value s g)) = wrap64 (_assignedPkts s + 1).
Proof. exact (proj2 (PacketSizeGeneratorSlowFacts.GetValueExact_assignedBytes value s g)). Qed.

Lemma reserve_finished_counters (packets : list Packet) :
  forall fwdGen revGen g a b,
  _assignedPkts fwdGen = wrap64 (Z.of_nat a) ->
  _assignedPkts revGen = wrap64 (Z.of_nat b) ->
  _assignedPkts (fst (fst (reserve_finished packets fwdGen revGen g)))
  = wrap64 (Z.of_nat
      (a + length (filter (fun p => is_forward p && _isFinished p) packets))) /\
  _assignedPkts (snd (fst (reserve_finished packets fwdGen revGen g)))
  = wrap64 (Z.of_nat
      (b + length (filter (fun p => negb (is_forward p) && _isFinished p) packets))).
Proof.
  induction packets as [|p packets IH]; intros fwdGen revGen g a b Ha Hb;
    cbn [reserve_finished filter].
  - cbn. rewrite !Nat.add_0_r. split; assumption.
  - destruct (_isFinished p) eqn:Hfin; rewrite ?andb_false_r, ?andb_true_r;
      [|apply IH; assumption].
    unfold is_forward.
    destruct (_direction p); unfold bind; cbn [negb length].
    + pose proof (GetValueExact_counters (_size p) revGen g) as Hstep.
      destruct (GetValueExact _ revGen g) as [gen' g']. cbn [fst] in Hstep.
      rewrite Nat.add_succ_r, <- Nat.add_succ_l. apply IH; [assumption|].
      eapply counted_step; eassumption.
    + pose proof (GetValueExact_counters (_size p) fwdGen g) as Hstep.
      destruct (GetValueExact _ fwdGen g) as [gen' g']. cbn [fst] in Hstep.
      rewrite Nat.add_succ_r, <- Nat.add_succ_l. apply IH; [|assumption].
      eapply counted_step; eassumption.
    + pose proof (GetValueExact_counters (_size p) revGen g) as Hstep.
      destruct (GetValueExact _ revGen g) as [gen' g']. cbn [fst] in Hstep.
      rewrite Nat.add_succ_r, <- Nat.add_succ_l. apply IH; [assumption|].
      eapply counted_step; eassumption.
Qed.

Lemma assign_sizes_counters (packets : list Packet) :
  forall fwdGen revGen g a b,
  _assignedPkts fwdGen = wrap64 (Z.of_nat a) ->
  _assignedPkts revGen = wrap64 (Z.of_nat b) ->
  _assignedPkts (fst (snd (fst (assign_sizes packets fwdGen revGen g))))
  = wrap64 (Z.of_nat
      (a + length (filter (fun p => is_forward p && negb (_isFinished p)) packets))) /\
  _assignedPkts (snd (snd (fst (assign_sizes packets fwdGen revGen g))))
  = wrap64 (Z.of_nat
      (b + length (filter (fun p => negb (is_forward p) && negb (_isFinished p))
                          packets))).
Proof.
  induction packets as [|p packets IH]; intros fwdGen revGen g a b Ha Hb;
    cbn [assign_sizes filter].
  - cbn. rewrite !Nat.add_0_r. split; assumption.
  - destruct (_isFinished p) eqn:Hfin; cbn [negb];
      rewrite ?andb_false_r, ?andb_true_r.
    { unfold bind, ret. specialize (IH fwdGen revGen g a b Ha Hb).
      destruct (assign_sizes packets fwdGen revGen g) as [[ps gens] g'].
      exact IH. }
    unfold is_forward.
    destruct (_direction p); unfold bind, ret; cbn [negb length].
    + pose proof (GetValue_counters revGen g) as Hstep.
      destruct (GetValue revGen g) as [[value gen'] g']. cbn [fst snd] in Hstep |- *.
      rewrite Nat.add_succ_r, <- Nat.add_succ_l.
      specialize (IH fwdGen gen' g' a (S b) Ha (counted_step _ _ _ Hb Hstep)).
      destruct (assign_sizes packets fwdGen gen' g') as [[ps gens] g''].
      exact IH.
    + pose proof (GetValue_counters fwdGen g) as Hstep.
      destruct (GetValue fwdGen g) as [[value gen'] g']. cbn [fst snd] in Hstep |- *.
      rewrite Nat.add_succ_r, <- Nat.add_succ_l.
      specialize (IH gen' revGen g' (S a) b (counted_step _ _ _ Ha Hstep) Hb).
      destruct (assign_sizes packets gen' revGen g') as [[ps gens] g''].
      exact IH.
    + pose proof (GetValue_counters revGen g) as Hstep.
      destruct (GetValue revGen g) as [[value gen'] g']. cbn [fst snd] in Hstep |- *.
      rewrite Nat.add_succ_r, <- Nat.add_succ_l.
      specialize (IH fwdGen gen' g' a (S b) Ha (counted_step _ _ _ Hb Hstep)).
      destruct (assign_sizes packets fwdGen gen' g') as [[ps gens] g''].
      exact IH.
Qed.

Lemma assign_sizes_sized (packets : list Packet) :
  forall fwdGen revGen g,
  Forall2 sized_from packets (fst (fst (assign_sizes packets fwdGen revGen g))).
Proof.
  induction packets as [|p packets IH]; intros fwdGen revGen g;
    cbn [assign_sizes]; [constructor|].
  destruct (_isFinished p) eqn:Hfin; cbn [negb].
  { unfold bind, ret. specialize (IH fwdGen revGen g).
    destruct (assign_sizes packets fwdGen revGen g) as [[ps gens] g'].
    cbn [fst] in IH |- *. constructor; [|exact IH].
    unfold sized_from. repeat split; lia. }
  assert (Hone : forall value, sized_from p (set_size p (Z.max (_size p) value))).
  { intros value. unfold sized_from, set_size. cbn.
    repeat split; try lia. rewrite Hfin. discriminate. }
  destruct (_direction p); unfold bind, ret.
  - destruct (GetValue revGen g) as [[value gen'] g']. cbn [fst snd].
    specialize (IH fwdGen gen' g').
    destruct (assign_sizes packets fwdGen gen' g') as [[ps gens] g''].
    constructor; [apply Hone | exact IH].
  - destruct (GetValue fwdGen g) as [[value gen'] g']. cbn [fst snd].
    specialize (IH gen' revGen g').
    destruct (assign_sizes packets gen' revGen g') as [[ps gens] g''].
    constructor; [apply Hone | exact IH].
  - destruct (GetValue revGen g) as [[value gen'] g']. cbn [fst snd].
    specialize (IH fwdGen gen' g').
    destruct (assign_sizes packets fwdGen gen' g') as [[ps gens] g''].
    constructor; [apply Hone | exact IH].
Qed.

Lemma filter_split (keep finished : Packet -> bool) (packets : list Packet) :
  (length (filter (fun p => keep p && finished p) packets)
   + length (filter (fun p => keep p && negb (finished p)) packets))%nat
  = length (filter keep packets).
Proof.
  induction packets as [|p packets IH]; [reflexivity|]. cbn [filter].
  destruct (keep p), (finished p); cbn [andb negb length]; lia.
Qed.

(** X17: [PlanPacketsSizes] only ever sets sizes.  Each plan keeps its
    direction, its timestamp and its finished flag; the size of a finished
    plan is left alone and the size of any other plan never gets smaller than
    what the layers asked for.  Every plan is counted exactly once: when the
    function returns, [fwdGen] has counted the plans whose direction is
    [Forward] and [revGen] all the others (finished ones through
    [GetValueExact], the rest through [GetValue]), as 64-bit counters.  The
    other members of the flow are untouched. *)
Theorem PlanPacketsSizes_accounting (intervals : list IntervalInfo) (f : Flow.t)
  (g : rng) :
  Forall2 sized_from (Flow._packets f)
    (Flow._packets (fst (fst (PlanPacketsSizes intervals f g)))) /\
  _assignedPkts (fst (snd (fst (PlanPacketsSizes intervals f g))))
  = wrap64 (Z.of_nat (count_forward (Flow._packets f))) /\
  _assignedPkts (snd (snd (fst (PlanPacketsSizes intervals f g))))
  = wrap64 (Z.of_nat (count_reverse (Flow._packets f))) /\
  set_packets (fst (fst (PlanPacketsSizes intervals f g))) (Flow._packets f) = f.
Proof.
  unfold PlanPacketsSizes, bind, ret.
  pose proof (reserve_finished_counters (Flow._packets f)
                (make intervals (_fwdPackets f) (_fwdBytes f))
                (make intervals (_revPackets f) (_revBytes f)) g 0 0
                eq_refl eq_refl) as [Hf1 Hr1].
  destruct (reserve_finished _ _ _ g) as [[fwd1 rev1] g1]. cbn [fst snd] in Hf1, Hr1 |- *.
  pose proof (Generate_counters
                (if _numPkts fwd1 >=? _assignedPkts fwd1
                 then _numPkts fwd1 - _assignedPkts fwd1 else 0)
                (if _numBytes fwd1 >=? _assignedBytes fwd1
                 then _numBytes fwd1 - _assignedBytes fwd1 else 0) fwd1 g1) as Hf2.
  unfold PlanRemaining.
  destruct (Generate _ _ fwd1 g1) as [fwd2 g2]. cbn [fst] in Hf2.
  pose proof (Generate_counters
                (if _numPkts rev1 >=? _assignedPkts rev1
                 then _numPkts rev1 - _assignedPkts rev1 else 0)
                (if _numBytes rev1 >=? _assignedBytes rev1
                 then _numBytes rev1 - _assignedBytes rev1 else 0) rev1 g2) as Hr2.
  destruct (Generate _ _ rev1 g2) as [rev2 g3]. cbn [fst] in Hr2.
  rewrite <- Hf2 in Hf1. rewrite <- Hr2 in Hr1.
  pose proof (assign_sizes_counters (Flow._packets f) fwd2 rev2 g3 _ _ Hf1 Hr1)
    as [Hf3 Hr3].
  pose proof (assign_sizes_sized (Flow._packets f) fwd2 rev2 g3) as Hsized.
  destruct (assign_sizes _ fwd2 rev2 g3) as [[ps [fwd3 rev3]] g4].
  cbn [fst snd] in Hf3, Hr3, Hsized |- *.
  split; [exact Hsized|].
  rewrite Nat.add_0_l, filter_split in Hf3, Hr3.
  split; [exact Hf3|]. split; [exact Hr3|].
  destruct f; reflexivity.
Qed.

End WithSizeGenerators.

End FlowBuildFacts.

(** * The traffic meter *)

Module TrafficMeterFacts.

Import TrafficMeter.

Lemma wrap_i64_exact (z : Z) : is_int64 z -> wrap_i64 z = z.
Proof.
  unfold is_int64, INT64_MIN, INT64_MAX, wrap_i64. intros Hz.
  rewrite Z.mod_small; lia.
Qed.

Lemma limits_by_million :
  INT64_MAX ÷ 1000000 = 9223372036854 /\ INT64_MIN ÷ 1000000 = -9223372036854.
Proof. split; reflexivity. Qed.

Lemma TimevalToMicroseconds_cases (tv : Timeval) :
  is_int64 (tv_sec tv) -> is_int64 (tv_usec tv) ->
  TimevalToMicroseconds tv
  = if (tv_sec tv >? 9223372036854) || (tv_sec tv <? -9223372036854)
    then inl runtime_error
    else if ((tv_sec tv >? 0) && (INT64_MAX - tv_sec tv * 1000000 <? tv_usec tv))
            || ((tv_sec tv <? 0) && (tv_usec tv <? INT64_MIN - tv_sec tv * 1000000))
    then inl runtime_error
    else inr (tv_sec tv * 1000000 + tv_usec tv).
Proof.
  intros Hsec Husec. unfold TimevalToMicroseconds.
  destruct limits_by_million as [-> ->].
  destruct (Z.gtb_spec (tv_sec tv) 9223372036854) as [Hhi | Hhi]; [reflexivity|].
  destruct (Z.ltb_spec (tv_sec tv) (-9223372036854)) as [Hlo | Hlo]; [reflexivity|].
  cbn [orb]. rewrite Z.add_0_l.
  unfold is_int64, INT64_MIN, INT64_MAX in *.
  assert (Hprod : wrap_i64 (tv_sec tv * 1000000) = tv_sec tv * 1000000).
  { apply wrap_i64_exact. unfold is_int64, INT64_MIN, INT64_MAX. lia. }
  rewrite !Hprod.
  destruct (Z.gtb_spec (tv_sec tv * 1000000) 0) as [Hpos | Hpos];
    destruct (Z.gtb_spec (tv_sec tv) 0) as [Hpos' | Hpos']; try lia;
    destruct (Z.ltb_spec (tv_sec tv * 1000000) 0) as [Hneg | Hneg];
    destruct (Z.ltb_spec (tv_sec tv) 0) as [Hneg' | Hneg']; try lia;
    cbn [andb orb].
  - rewrite (wrap_i64_exact (2 ^ 63 - 1 - _))
      by (unfold is_int64, INT64_MIN, INT64_MAX; lia).
    destruct (Z.ltb_spec (2 ^ 63 - 1 - tv_sec tv * 1000000) (tv_usec tv));
      [reflexivity|].
    rewrite wrap_i64_exact by (unfold is_int64, INT64_MIN, INT64_MAX; lia).
    reflexivity.
  - rewrite (wrap_i64_exact (- 2 ^ 63 - _))
      by (unfold is_int64, INT64_MIN, INT64_MAX; lia).
    destruct (Z.ltb_spec (tv_usec tv) (- 2 ^ 63 - tv_sec tv * 1000000));
      [reflexivity|].
    rewrite wrap_i64_exact by (unfold is_int64, INT64_MIN, INT64_MAX; lia).
    reflexivity.
  - rewrite wrap_i64_exact by (unfold is_int64, INT64_MIN, INT64_MAX; lia).
    reflexivity.
Qed.

Lemma TimevalToMicroseconds_sound (tv : Timeval) (microseconds : Z) :
  is_int64 (tv_sec tv) -> is_int64 (tv_usec tv) ->
  TimevalToMicroseconds tv = inr microseconds ->
  microseconds = tv_sec tv * 1000000 + tv_usec tv /\ is_int64 microseconds.
Proof.
  intros Hsec Husec. rewrite (TimevalToMicroseconds_cases tv Hsec Husec).
  unfold is_int64, INT64_MIN, INT64_MAX in *.
  destruct (Z.gtb_spec (tv_sec tv) 9223372036854) as [Hhi | Hhi];
    [intros [=]|].
  destruct (Z.ltb_spec (tv_sec tv) (-9223372036854)) as [Hlo | Hlo];
    [intros [=]|].
  cbn [orb].
  destruct (Z.gtb_spec (tv_sec tv) 0) as [Hpos | Hpos];
    destruct (Z.ltb_spec (tv_sec tv) 0) as [Hneg | Hneg]; try lia; cbn [andb orb].
  - destruct (Z.ltb_spec (2 ^ 63 - 1 - tv_sec tv * 1000000) (tv_usec tv));
      intros [=]; subst; lia.
  - destruct (Z.ltb_spec (tv_usec tv) (- 2 ^ 63 - tv_sec tv * 1000000));
      intros [=]; subst; lia.
  - intros [=]; subst; lia.
Qed.

Lemma TimevalToMicroseconds_returns (tv : Timeval) :
  is_int64 (tv_sec tv) -> is_int64 (tv_usec tv) ->
  -9223372036854 <= tv_sec tv <= 9223372036854 ->
  is_int64 (tv_sec tv * 1000000 + tv_usec tv) ->
  TimevalToMicroseconds tv = inr (tv_sec tv * 1000000 + tv_usec tv).
Proof.
  intros Hsec Husec Hs Hsum. rewrite (TimevalToMicroseconds_cases tv Hsec Husec).
  unfold is_int64, INT64_MIN, INT64_MAX in *.
  destruct (Z.gtb_spec (tv_sec tv) 9223372036854) as [Hhi | Hhi]; [lia|].
  destruct (Z.ltb_spec (tv_sec tv) (-9223372036854)) as [Hlo | Hlo]; [lia|].
  cbn [orb].
  destruct (Z.gtb_spec (tv_sec tv) 0) as [Hpos | Hpos];
    destruct (Z.ltb_spec (tv_sec tv) 0) as [Hneg | Hneg]; try lia; cbn [andb orb].
  - destruct (Z.ltb_spec (2 ^ 63 - 1 - tv_sec tv * 1000000) (tv_usec tv));
      [lia | reflexivity].
  - destruct (Z.ltb_spec (tv_usec tv) (- 2 ^ 63 - tv_sec tv * 1000000));
      [lia | reflexivity].
  - reflexivity.
Qed.

(** X18: [TimevalToMicroseconds] never returns a wrapped value.  For 64-bit
    fields, whenever it returns, the result is exactly
    [tv_sec * 1000000 + tv_usec] and no operation on the way overflowed;
    it returns whenever the seconds lie within
    [-9223372036854, 9223372036854] and the sum fits 64 bits; and for a time
    that is not negative it throws [runtime_error] exactly when the number
    of microseconds exceeds [INT64_MAX]. *)
Theorem TimevalToMicroseconds_exact (tv : Timeval) :
  is_int64 (tv_sec tv) -> is_int64 (tv_usec tv) ->
  (forall microseconds,
     TimevalToMicroseconds tv = inr microseconds ->
     microseconds = tv_sec tv * 1000000 + tv_usec tv /\ is_int64 microseconds) /\
  (-9223372036854 <= tv_sec tv <= 9223372036854 ->
   is_int64 (tv_sec tv * 1000000 + tv_usec tv) ->
   TimevalToMicroseconds tv = inr (tv_sec tv * 1000000 + tv_usec tv)) /\
  (0 <= tv_sec tv -> 0 <= tv_usec tv ->
   (TimevalToMicroseconds tv = inl runtime_error
    <-> INT64_MAX < tv_sec tv * 1000000 + tv_usec tv)).
Proof.
  intros Hsec Husec.
  split; [intros microseconds; apply TimevalToMicroseconds_sound; assumption|].
  split; [apply TimevalToMicroseconds_returns; assumption|].
  intros Hs Hu. split.
  - intros Hthrow.
    destruct (Z.lt_ge_cases INT64_MAX (tv_sec tv * 1000000 + tv_usec tv))
      as [Hover | Hfits]; [exact Hover|].
    rewrite TimevalToMicroseconds_returns in Hthrow;
      try assumption; try discriminate Hthrow;
      unfold is_int64, INT64_MIN, INT64_MAX in *; lia.
  - intros Hover.
    destruct (TimevalToMicroseconds tv) as [[] | microseconds] eqn:Hrun;
      try reflexivity.
    + exfalso. revert Hrun. unfold TimevalToMicroseconds.
      destruct (_ || _); [discriminate|]. destruct (_ || _); discriminate.
    + destruct (TimevalToMicroseconds_sound tv microseconds Hsec Husec Hrun)
        as [-> Hrange].
      unfold is_int64 in Hrange. lia.
Qed.

Lemma TimevalToMicroseconds_exact_witness :
  TimevalToMicroseconds (mkTimeval 10 250000) = inr 10250000.
Proof.
  refine (proj1 (proj2 (TimevalToMicroseconds_exact (mkTimeval 10 250000) _ _)) _ _);
    unfold is_int64, INT64_MIN, INT64_MAX; cbn; lia.
Defined.

(** X19: the time columns of the CSV report.  For a time that is not
    negative, with its microseconds below one million and at most
    [INT64_MAX] microseconds in all, [WriteReportCsv] prints the milliseconds
    [tv_sec * 1000 + tv_usec / 1000], followed after the point by the
    remaining microseconds [tv_usec mod 1000], a number below 1000; nothing
    is thrown and the conversion to [uint64_t] changes nothing.  A time
    before the epoch that is converted is printed from its value plus
    [2^64]. *)
Theorem csv_time_milliseconds (tv : Timeval) :
  is_int64 (tv_sec tv) -> is_int64 (tv_usec tv) ->
  (0 <= tv_sec tv -> 0 <= tv_usec tv < 1000000 ->
   tv_sec tv * 1000000 + tv_usec tv <= INT64_MAX ->
   csv_time tv
   = inr (tv_sec tv * 1000 + tv_usec tv / 1000, tv_usec tv mod 1000)) /\
  (forall msec decimal,
     csv_time tv = inr (msec, decimal) ->
     tv_sec tv * 1000000 + tv_usec tv < 0 ->
     msec * 1000 + decimal = 2 ^ 64 + (tv_sec tv * 1000000 + tv_usec tv)).
Proof.
  intros Hsec Husec. unfold csv_time.
  split.
  - intros Hs Hu Hfits. rewrite TimevalToMicroseconds_returns
      by (unfold is_int64, INT64_MIN, INT64_MAX in *; lia).
    unfold INT64_MAX in Hfits.
    unfold wrap64. rewrite Z.mod_small by lia.
    f_equal. f_equal.
    + replace (tv_sec tv * 1000000 + tv_usec tv)
        with (tv_usec tv + (tv_sec tv * 1000) * 1000) by ring.
      rewrite Z.div_add by lia. ring.
    + replace (tv_sec tv * 1000000 + tv_usec tv)
        with (tv_usec tv + (tv_sec tv * 1000) * 1000) by ring.
      apply Z.mod_add. lia.
  - intros msec decimal Hcsv Hneg.
    destruct (TimevalToMicroseconds tv) as [e | microseconds] eqn:Hrun;
      [discriminate|].
    destruct (TimevalToMicroseconds_sound tv microseconds Hsec Husec Hrun)
      as [-> Hrange].
    injection Hcsv as <- <-.
    unfold is_int64, INT64_MIN, INT64_MAX in Hrange.
    assert (Hwrap : wrap64 (tv_sec tv * 1000000 + tv_usec tv)
                    = 2 ^ 64 + (tv_sec tv * 1000000 + tv_usec tv)).
    { unfold wrap64. symmetry. apply Z.mod_unique with (q := -1); lia. }
    rewrite Hwrap.
    pose proof (Z.div_mod (2 ^ 64 + (tv_sec tv * 1000000 + tv_usec tv)) 1000) as Hdm.
    lia.
Qed.

Lemma csv_time_milliseconds_witness :
  csv_time (mkTimeval 10 250123) = inr (10250, 123).
Proof.
  refine (proj1 (csv_time_milliseconds (mkTimeval 10 250123) _ _) _ _ _);
    unfold is_int64, INT64_MIN, INT64_MAX; cbn; lia.
Defined.

End TrafficMeterFacts.

(** * The pool of the older value generator *)

Module ValueGeneratorPoolFacts.

Import ValueGeneratorPool.

(** X20: [ValueGenerator::GetValueExact(v)] on a pool that is not empty
    returns a value of the pool and removes that one occurrence, keeping the
    others.  The search covers the whole pool, whatever its size: if some
    value of the pool is closer to [v] than [v] is to 0, the value returned
    is one closest to [v]; if none is, the value at index 0 is returned,
    however far it is.  [GetValue] returns and removes the last value. *)
Theorem GetValueExact_whole_pool (value : Z) (pool : list Z) :
  pool <> [] ->
  exists chosen rest,
    GetValueExact value pool = Some (chosen, rest) /\
    Permutation pool (chosen :: rest) /\
    ((exists v, In v pool /\ absdiff v value < value) ->
     forall v, In v pool -> absdiff chosen value <= absdiff v value) /\
    ((forall v, In v pool -> value <= absdiff v value) -> chosen = hd 0 pool) /\
    GetValue (rest ++ [chosen]) = Some (chosen, rest).
Proof.
  intros Hne.
  assert (Hlen : (0 < length pool)%nat)
    by (destruct pool; [congruence | cbn; lia]).
  unfold GetValueExact. destruct pool as [|x pool']; [congruence|].
  set (pool := x :: pool') in *.
  destruct (PacketSizeGeneratorSlowMoreFacts.find_closest_spec pool value
              (seq 0 (length pool)) 0%nat value) as (d & Hd & Hall & Hcase).
  set (closest := PacketSizeGeneratorSlow.find_closest pool value
                    (seq 0 (length pool)) 0%nat value) in *.
  assert (Hc : (closest < length pool)%nat).
  { destruct Hcase as [[-> _] | (Hin & _)]; [exact Hlen|].
    apply in_seq in Hin. lia. }
  exists (nth closest pool 0), (PacketSizeGeneratorSlow.swap_remove closest pool).
  split; [reflexivity|].
  split; [apply PacketSizeGeneratorSlowMoreFacts.swap_remove_perm; exact Hc|].
  split; [|split].
  - intros (v & Hv & Hnear) w Hw.
    destruct (In_nth pool v 0 Hv) as (i & Hi & <-).
    destruct (In_nth pool w 0 Hw) as (j & Hj & <-).
    assert (Hdi : d <= absdiff (nth i pool 0) value) by (apply Hall, in_seq; lia).
    destruct Hcase as [[_ ->] | (_ & -> & _)]; [lia|].
    apply Hall, in_seq. lia.
  - intros Hfar. destruct Hcase as [[-> _] | (Hin & Heq & Hlt)]; [reflexivity|].
    assert (Hin' : In (nth closest pool 0) pool) by (apply nth_In; exact Hc).
    specialize (Hfar _ Hin'). lia.
  - unfold GetValue. rewrite rev_app_distr. cbn [rev app].
    rewrite rev_involutive. reflexivity.
Qed.

Lemma GetValueExact_whole_pool_witness :
  exists chosen rest,
    GetValueExact 52 [70; 40; 55] = Some (chosen, rest) /\
    Permutation [70; 40; 55] (chosen :: rest).
Proof.
  destruct (GetValueExact_whole_pool 52 [70; 40; 55]) as (chosen & rest & H1 & H2 & _).
  - discriminate.
  - exists chosen, rest. split; assumption.
Defined.

End ValueGeneratorPoolFacts.

(** * Packets of the replay tool *)

Module ReplayPacketFacts.

Import ReplayPacket.

Lemma GetHash_addresses {H : Hash32} (p : Packet) :
  GetHash p = Z.lxor (XXH32 (source p) 0) (XXH32 (destination p) 0).
Proof.
  unfold GetHash, source, destination, CalculateIpv4Hash, CalculateIpv6Hash.
  destruct (l3Type (info p)); reflexivity.
Qed.

(** X21: the hash of a replayed packet does not depend on the direction.
    Whatever [XXH32] computes, two packets whose source and destination
    addresses are exchanged, a request and its reply, get the same hash,
    wherever the headers start and whatever else the packets carry; two
    packets with the same pair of addresses get the same hash; and a packet
    sent from an address to itself has hash 0. *)
Theorem GetHash_symmetric {H : Hash32} (p q : Packet) :
  (source p = destination q -> destination p = source q ->
   GetHash p = GetHash q) /\
  (source p = source q -> destination p = destination q ->
   GetHash p = GetHash q) /\
  (source p = destination p -> GetHash p = 0).
Proof.
  rewrite !GetHash_addresses. split; [|split].
  - intros -> ->. apply Z.lxor_comm.
  - intros -> ->. reflexivity.
  - intros ->. apply Z.lxor_nilpotent.
Qed.

Lemma GetHash_symmetric_witness :
  @GetHash ByteSum (ipv4_frame [10; 0; 0; 1] [10; 0; 0; 2] [1; 2; 3])
  = @GetHash ByteSum (ipv4_frame [10; 0; 0; 2] [10; 0; 0; 1] []).
Proof.
  refine (proj1 (@GetHash_symmetric ByteSum _ _) _ _); reflexivity.
Defined.

End ReplayPacketFacts.
